(** * Spectrogram worker: tile cache, window assembler, display mapper

    A shallow embedding of the Web Worker in
    [src/renderer/spectrogram/SpectrogramPlayer.tsx] (the part after the
    React component): [tileKey], [buildViridisLUT], [framesForWindow],
    [flattenMel], [concatTiles], [analyzeTiles], [assembleWindowMel],
    [computeSegmentAndPopulateTiles] and the [self.onmessage] dispatcher.

    Conventions of the embedding.
    - The analysis parameters that the settings form reads with [parseInt]
      ([sampleRate], [n_fft], [win_length], [hop_length], [n_mels],
      [top_db]) are integers ([Z]); [f_min], [f_max], [t0] and
      [windowDuration] are rationals ([Q]).  Arithmetic on them is exact:
      the rounding of IEEE doubles is not represented, except in the
      one place where it decides a comparison, the sum [smin + 1e-6] of
      the gain bounds, which is rounded to the nearest double.
    - Values that flow through the display mapper (mel values, gain bounds,
      gamma, brightness, contrast) are JavaScript numbers with their
      special values: a rational, [+Infinity], [-Infinity] or [NaN]
      (type [num]).  Signed zeros are not represented.
    - The two maps of the worker ([pcmStore], [melTileCache]) are [gmap]s
      keyed by strings, as in the source.
    - [mel_spectrogram_db] (the WASM primitive) and [Math.pow] are
      parameters of the development.  The worker reaches the primitive
      through [invoke], the export with a trace: each invocation leaves
      the arguments it received and the result it gave in [primCalls].
    - A thrown exception is a value of type [exn]; the worker's [catch]
      turns it into an [error] reply carrying that exception.

    The last part embeds the functions that produce the [t0] of a
    request: [enforceBoundaries] and [scroll] of the provider
    ([src/unnamed/part_003]) and [getTimeFromPosition] and
    [updateComplete] of the navigator
    ([src/renderer/spectrogram/SpectrogramNavigator.tsx]). *)

From Stdlib Require Import ZArith QArith Qround Qabs Qpower Lia Lqa Ascii.
From stdpp Require Import gmap strings list pretty.
From Equations Require Import Equations.

Open Scope Z_scope.

(** ** JavaScript numbers *)

Module Js.

Inductive num : Type :=
| Fin (q : Q)
| PInf
| NInf
| NaN.

Definition zero : num := Fin 0.
Definition one : num := Fin 1.

Definition isFinite (x : num) : bool :=
  match x with Fin _ => true | _ => false end.

Definition isNaN (x : num) : bool :=
  match x with NaN => true | _ => false end.

Definition Qltb (a b : Q) : bool :=
  if Qlt_le_dec a b then true else false.

Definition neg (x : num) : num :=
  match x with
  | Fin q => Fin (- q)
  | PInf => NInf
  | NInf => PInf
  | NaN => NaN
  end.

Definition add (x y : num) : num :=
  match x, y with
  | NaN, _ | _, NaN => NaN
  | Fin a, Fin b => Fin (a + b)
  | PInf, NInf | NInf, PInf => NaN
  | PInf, _ | _, PInf => PInf
  | NInf, _ | _, NInf => NInf
  end.

Definition sub (x y : num) : num := add x (neg y).

(** Sign of a number that is not [NaN]: [Lt] negative, [Eq] zero,
    [Gt] positive. *)
Definition sign (x : num) : comparison :=
  match x with
  | Fin q => (q ?= 0)%Q
  | PInf => Gt
  | NInf => Lt
  | NaN => Eq
  end.

Definition signed_inf (c1 c2 : comparison) : num :=
  match c1, c2 with
  | Eq, _ | _, Eq => NaN
  | Gt, Gt | Lt, Lt => PInf
  | _, _ => NInf
  end.

Definition mul (x y : num) : num :=
  match x, y with
  | NaN, _ | _, NaN => NaN
  | Fin a, Fin b => Fin (a * b)
  | _, _ => signed_inf (sign x) (sign y)
  end.

(** Division; a zero divisor counts as +0. *)
Definition div (x y : num) : num :=
  match x, y with
  | NaN, _ | _, NaN => NaN
  | Fin a, Fin b =>
      if Qeq_bool b 0 then signed_inf (sign x) Gt else Fin (a / b)
  | Fin _, _ => Fin 0
  | _, Fin b => signed_inf (sign x) (if Qeq_bool b 0 then Gt else sign y)
  | _, _ => NaN
  end.

(** [x < y] and [x > y]: false as soon as one side is [NaN]. *)
Definition ltb (x y : num) : bool :=
  match x, y with
  | NaN, _ | _, NaN => false
  | Fin a, Fin b => Qltb a b
  | NInf, NInf | PInf, _ | _, NInf => false
  | _, _ => true
  end.

Definition gtb (x y : num) : bool := ltb y x.

(** [Math.min] and [Math.max]: [NaN] if either argument is. *)
Definition Math_min (x y : num) : num :=
  match x, y with
  | NaN, _ | _, NaN => NaN
  | _, _ => if ltb y x then y else x
  end.

Definition Math_max (x y : num) : num :=
  match x, y with
  | NaN, _ | _, NaN => NaN
  | _, _ => if ltb x y then y else x
  end.

(** [x | 0]: ToInt32.  Non-finite values give 0; a finite value is
    truncated toward zero and wrapped into the signed 32-bit range. *)
Definition wrap32 (z : Z) : Z :=
  (z + 2 ^ 31) mod 2 ^ 32 - 2 ^ 31.

Definition Qtrunc (q : Q) : Z := Z.quot (Qnum q) (Zpos (Qden q)).

Definition to_int32 (x : num) : Z :=
  match x with
  | Fin q => wrap32 (Qtrunc q)
  | _ => 0
  end.

(** [Math.round] on a rational: the nearest integer, halves going up. *)
Definition Math_round (q : Q) : Z := Qfloor (q + (1 # 2))%Q.

(** The binade of a rational that is not zero: the [k] with
    [2^k <= |q| < 2^(k+1)]. *)
Definition binade (q : Q) : Z :=
  let k := Z.log2 (Z.abs (Qnum q)) - Z.log2 (Zpos (Qden q)) in
  if Qle_bool (2 ^ k) (Qabs q) then k else k - 1.

(** The nearest integer, a tie going to the even one. *)
Definition round_half_even (x : Q) : Z :=
  let f := Qfloor x in
  match (x - inject_Z f ?= 1 # 2)%Q with
  | Lt => f
  | Gt => f + 1
  | Eq => if Z.even f then f else f + 1
  end.

(** The double nearest to a rational: 53 significant bits, ties to
    even.  The exponent is not bounded: overflow and subnormal numbers
    are not represented. *)
Definition to_double (q : Q) : Q :=
  if Qeq_bool q 0 then 0%Q
  else
    let e := binade q - 52 in
    Qred (inject_Z (round_half_even (q / 2 ^ e)) * 2 ^ e).

(** [x + y] as a sum of doubles: the exact sum, rounded. *)
Definition add_double (x y : num) : num :=
  match add x y with
  | Fin q => Fin (to_double q)
  | r => r
  end.

(** Reading a typed array: [undefined] outside the bounds, which every
    use below feeds to arithmetic or a comparison, where it behaves as
    [NaN]. *)
Definition arr_get (a : list num) (i : Z) : num :=
  if i <? 0 then NaN else default NaN (a !! Z.to_nat i).

(** [a.subarray(b, e)] and [a.slice(b, e)] for integer arguments: a
    negative index counts from the end, and both are clamped to the
    array. *)
Definition rel_index (len i : Z) : Z :=
  if i <? 0 then Z.max (len + i) 0 else Z.min i len.

Definition slice {A} (a : list A) (b e : Z) : list A :=
  let len := Z.of_nat (length a) in
  let b' := rel_index len b in
  let e' := rel_index len e in
  take (Z.to_nat (e' - b')) (drop (Z.to_nat b') a).

End Js.

Import Js.

(** ** Exceptions and results *)

Inductive exn : Type :=
| PcmNotLoaded              (* Error('PCM not loaded for fileId') *)
| PrimitiveError (msg : string) (* raised inside mel_spectrogram_db *)
| RangeError                (* typed-array length or offset out of range *)
| TypeError                 (* property read on undefined *)
| CanvasError                (* OffscreenCanvas / createImageData refusal *)
| NonFiniteFrames.          (* hop_length = 0: Infinity / NaN frame indices *)

Inductive result (A : Type) : Type :=
| Ok (a : A)
| Throw (e : exn).
Arguments Ok {A} a.
Arguments Throw {A} e.

(** ** Messages and parameters *)

Record RenderParams : Type := mkParams {
  sampleRate : Z;
  n_fft : Z;
  win_length : Z;
  hop_length : Z;
  f_min : Q;
  f_max : Q;
  n_mels : Z;
  top_db : Z;
  t0 : Q;
  windowDuration : Q;
  dynamicGain : bool;
  autoGamma : bool;
  gammaValue : num;
  gainPercentile : num;
  brightness : num;
  contrast : num;
  colormap : string
}.

Inductive Msg : Type :=
| InitMsg
| SetPcmMsg (fileId : string) (sampleRate : Z) (pcm : list num)
| RenderMsg (fileId : string) (params : RenderParams).

Record Tile : Type := mkTile { startFrame : Z; frames : Z }.

Record PcmEntry : Type := mkPcm { pcm_sampleRate : Z; pcm : list num }.

(** ** Tile keys *)

(** A rational is printed as [num/den] of its reduced form (JavaScript
    prints a decimal expansion; what matters for the key is that the text
    holds no colon). *)
Definition show_Q (q : Q) : string :=
  pretty (Qnum (Qred q)) +:+ "/" +:+ pretty (Zpos (Qden (Qred q))).

Definition tileKey (fileId : string) (startFrame tileFrames : Z)
    (p : RenderParams) : string :=
  fileId +:+ ":" +:+ pretty startFrame +:+ ":" +:+ pretty tileFrames
    +:+ ":" +:+ pretty (sampleRate p) +:+ ":" +:+ pretty (n_fft p)
    +:+ ":" +:+ pretty (win_length p) +:+ ":" +:+ pretty (hop_length p)
    +:+ ":" +:+ pretty (n_mels p) +:+ ":" +:+ show_Q (f_min p)
    +:+ ":" +:+ show_Q (f_max p) +:+ ":" +:+ pretty (top_db p).

Definition TILE_FRAMES : Z := 1024.

(** ** Frame range of a window *)

(** [framesForWindow].  With [hop_length = 0] the source computes with
    [Infinity] and [NaN] frame indices; that case is [None] here. *)
Definition framesForWindow (p : RenderParams) : option (Z * Z) :=
  if hop_length p =? 0 then None
  else
    let framesPerSecond : Q :=
      (inject_Z (sampleRate p) / inject_Z (hop_length p))%Q in
    let F0 := Qfloor (t0 p * framesPerSecond) in
    let totalFrames :=
      Z.max 1 (Qfloor (windowDuration p * framesPerSecond)) in
    let F1 := F0 + totalFrames - 1 in
    Some (F0, F1).

(** ** Flattening and concatenation *)

(** [out.set(row, off)]: throws when the row does not fit. *)
Definition array_set (out row : list num) (off : Z) : result (list num) :=
  if (off <? 0) || (Z.of_nat (length out) <? off + Z.of_nat (length row))
  then Throw RangeError
  else Ok (take (Z.to_nat off) out ++ row
             ++ drop (Z.to_nat off + length row) out).

Fixpoint flattenLoop (rows : list (list num)) (t n_mels : Z)
    (out : list num) : result (list num) :=
  match rows with
  | [] => Ok out
  | row :: rest =>
      match array_set out row (t * n_mels) with
      | Ok out' => flattenLoop rest (t + 1) n_mels out'
      | Throw e => Throw e
      end
  end.

Definition flattenMel (melFrames : list (list num)) (n_mels : Z)
    : result (list num) :=
  let frames := Z.of_nat (length melFrames) in
  if frames * n_mels <? 0 then Throw RangeError
  else flattenLoop melFrames 0 n_mels
         (replicate (Z.to_nat (frames * n_mels)) zero).

(** [concatTiles].  A tile absent from the cache is [undefined]:
    reading its [length] throws.  The first loop adds up the lengths,
    the second copies each tile to its offset in the new array. *)
Fixpoint totalLength (tiles : list (option (list num))) (total : Z)
    : result Z :=
  match tiles with
  | [] => Ok total
  | None :: _ => Throw TypeError
  | Some t :: rest => totalLength rest (total + Z.of_nat (length t))
  end.

Fixpoint concatLoop (tiles : list (option (list num))) (offset : Z)
    (out : list num) : result (list num) :=
  match tiles with
  | [] => Ok out
  | None :: _ => Throw TypeError
  | Some t :: rest =>
      match array_set out t offset with
      | Ok out' => concatLoop rest (offset + Z.of_nat (length t)) out'
      | Throw e => Throw e
      end
  end.

Definition concatTiles (tiles : list (option (list num)))
    : result (list num) :=
  match totalLength tiles 0 with
  | Throw e => Throw e
  | Ok total => concatLoop tiles 0 (replicate (Z.to_nat total) zero)
  end.

(** ** Needed and missing tiles *)

Equations? neededLoop (cursor F1 : Z) : list Tile
  by wf (Z.to_nat (F1 - cursor + 1)) lt :=
  neededLoop cursor F1 with Z_le_gt_dec cursor F1 := {
    | left _ =>
        let frames := Z.min TILE_FRAMES (F1 - cursor + 1) in
        mkTile cursor frames :: neededLoop (cursor + frames) F1
    | right _ => [] }.
Proof. unfold TILE_FRAMES in *. lia. Qed.

(** State of the scan for missing segments: the segments pushed so far
    and the open segment, [-1] standing for none. *)
Record SegScan : Type := mkScan {
  scan_missing : list Tile;
  segStart : Z;
  segEnd : Z
}.

Definition scanTile (isCached : bool) (tile : Tile) (s : SegScan)
    : SegScan :=
  if isCached then
    if negb (segStart s =? -1) then
      mkScan (scan_missing s
                ++ [mkTile (segStart s) (segEnd s - segStart s + 1)])
             (-1) (-1)
    else s
  else if segStart s =? -1 then
    mkScan (scan_missing s) (startFrame tile)
           (startFrame tile + frames tile - 1)
  else if startFrame tile =? segEnd s + 1 then
    mkScan (scan_missing s) (segStart s)
           (startFrame tile + frames tile - 1)
  else
    mkScan (scan_missing s
              ++ [mkTile (segStart s) (segEnd s - segStart s + 1)])
           (startFrame tile) (startFrame tile + frames tile - 1).

Definition scanFinish (s : SegScan) : list Tile :=
  if negb (segStart s =? -1) then
    scan_missing s ++ [mkTile (segStart s) (segEnd s - segStart s + 1)]
  else scan_missing s.

Definition has_key (cache : gmap string (list num)) (key : string) : bool :=
  match cache !! key with Some _ => true | None => false end.

Definition analyzeTiles (cache : gmap string (list num))
    (fileId : string) (F0 F1 : Z) (p : RenderParams)
    : list Tile * list Tile :=
  let needed := neededLoop F0 F1 in
  let s :=
    foldl (fun s tile =>
             scanTile
               (has_key cache
                  (tileKey fileId (startFrame tile) (frames tile) p))
               tile s)
          (mkScan [] (-1) (-1)) needed in
  (needed, scanFinish s).

(** ** Worker state *)

(** One invocation of the spectral primitive: the nine arguments it
    received and the result it gave. *)
Record PrimCall : Type := mkCall {
  call_sampleRate : Z;
  call_samples : list num;
  call_n_fft : Z;
  call_win_length : Z;
  call_hop_length : Z;
  call_f_min : Q;
  call_f_max : Q;
  call_n_mels : Z;
  call_top_db : Z;
  call_result : result (list (list num))
}.

(** The module-level variables of the worker.  [primCalls] is not a
    variable of the source: it is the trace of the WASM export, oldest
    invocation first.  An entry is written by the export itself when it
    is invoked ([invoke] below) and by nothing else. *)
Record State : Type := mkState {
  wasmReady : bool;
  pcmStore : gmap string PcmEntry;
  melTileCache : gmap string (list num);
  primCalls : list PrimCall
}.

Definition initialState : State := mkState false ∅ ∅ [].

Definition set_wasmReady (b : bool) (st : State) : State :=
  mkState b (pcmStore st) (melTileCache st) (primCalls st).

Definition set_pcmStore (m : gmap string PcmEntry) (st : State) : State :=
  mkState (wasmReady st) m (melTileCache st) (primCalls st).

Definition set_melTileCache (c : gmap string (list num)) (st : State)
    : State :=
  mkState (wasmReady st) (pcmStore st) c (primCalls st).

Definition log_call (c : PrimCall) (st : State) : State :=
  mkState (wasmReady st) (pcmStore st) (melTileCache st)
          (primCalls st ++ [c]).

(** ** Window assembler *)

(** The loop of [computeSegmentAndPopulateTiles] that cuts the usable
    frames into tiles and stores them. *)
Equations? storeTiles (fileId : string) (seg : Tile) (p : RenderParams)
    (usable : list (list num)) (cursor : Z)
    (cache : gmap string (list num))
    : result unit * gmap string (list num)
  by wf (Z.to_nat (frames seg - cursor)) lt :=
  storeTiles fileId seg p usable cursor cache
    with Z_lt_ge_dec cursor (frames seg) := {
    | right _ => (Ok tt, cache)
    | left _
        with flattenMel
               (slice usable cursor
                  (cursor + Z.min TILE_FRAMES (frames seg - cursor)))
               (n_mels p) := {
        | Throw e => (Throw e, cache)
        | Ok flat =>
            let thisFrames := Z.min TILE_FRAMES (frames seg - cursor) in
            let tStart := startFrame seg + cursor in
            let key := tileKey fileId tStart thisFrames p in
            storeTiles fileId seg p usable (cursor + thisFrames)
              (<[key := flat]> cache) } }.
Proof. unfold TILE_FRAMES in *. lia. Qed.

Section Assembler.

(** The spectral primitive of the WASM module: sample rate, samples,
    [n_fft], [win_length], [hop_length], [f_min], [f_max], [n_mels],
    [top_db]; one row per output frame, or an exception. *)
Variable mel_spectrogram_db :
  Z -> list num -> Z -> Z -> Z -> Q -> Q -> Z -> Z ->
  result (list (list num)).

(** The export as the worker reaches it: an invocation returns the
    result of the primitive on the arguments it is given and leaves
    these arguments and that result at the end of the trace. *)
Definition invoke (sampleRate : Z) (samples : list num)
    (n_fft win_length hop_length : Z) (f_min f_max : Q)
    (n_mels top_db : Z) (st : State)
    : result (list (list num)) * State :=
  let r :=
    mel_spectrogram_db sampleRate samples n_fft win_length hop_length
      f_min f_max n_mels top_db in
  (r, log_call
        (mkCall sampleRate samples n_fft win_length hop_length
           f_min f_max n_mels top_db r) st).

(** The result of the primitive on a slice with the analysis parameters
    of a request, and the trace entry of that invocation. *)
Definition call_primitive (p : RenderParams) (samples : list num)
    : result (list (list num)) :=
  mel_spectrogram_db (sampleRate p) samples (n_fft p) (win_length p)
    (hop_length p) (f_min p) (f_max p) (n_mels p) (top_db p).

Definition callOf (p : RenderParams) (samples : list num) : PrimCall :=
  mkCall (sampleRate p) samples (n_fft p) (win_length p) (hop_length p)
    (f_min p) (f_max p) (n_mels p) (top_db p) (call_primitive p samples).

(** [computeSegmentAndPopulateTiles].  It is reached only with
    [hop_length <> 0], where [Math.floor(pad / hop)] is the integer
    quotient rounded down. The console logging has no effect on the
    state and is left out. *)
Definition computeSegmentAndPopulateTiles (fileId : string) (seg : Tile)
    (p : RenderParams) (st : State) : result unit * State :=
  match pcmStore st !! fileId with
  | None => (Throw PcmNotLoaded, st)
  | Some pcmEntry =>
      let hop := hop_length p in
      let pad := n_fft p in
      let startSample := Z.max 0 (startFrame seg * hop - pad) in
      let endSample :=
        Z.min (Z.of_nat (length (pcm pcmEntry)))
              ((startFrame seg + frames seg) * hop + pad) in
      let samples := slice (pcm pcmEntry) startSample endSample in
      let '(melFrames, st1) :=
        invoke (sampleRate p) samples (n_fft p) (win_length p)
          (hop_length p) (f_min p) (f_max p) (n_mels p) (top_db p) st in
      match melFrames with
      | Throw e => (Throw e, st1)
      | Ok melFrames =>
          let framesPerPad := pad / hop in
          let usable :=
            slice melFrames framesPerPad (framesPerPad + frames seg) in
          let '(r, cache) :=
            storeTiles fileId seg p usable 0 (melTileCache st1) in
          (r, set_melTileCache cache st1)
      end
  end.

(** The loop of [assembleWindowMel] over the missing segments. *)
Fixpoint computeSegments (fileId : string) (missing : list Tile)
    (p : RenderParams) (st : State) : result unit * State :=
  match missing with
  | [] => (Ok tt, st)
  | seg :: rest =>
      match computeSegmentAndPopulateTiles fileId seg p st with
      | (Ok _, st') => computeSegments fileId rest p st'
      | (Throw e, st') => (Throw e, st')
      end
  end.

(** [assembleWindowMel]: the assembled buffer and the number of frames
    of the window.  With [hop_length = 0] the frame indices of the
    source are [Infinity] or [NaN]; depending on [t0] and on the sample
    store it then answers that the PCM is not loaded, invokes the
    primitive on an empty slice, or fails with a [TypeError].  These
    paths are outside the model: the request is answered
    [NonFiniteFrames] here.  They store no tile and load no PCM, so the
    invariants of the cache proved below hold of them as well; every
    statement about the reply or the trace of a render assumes a frame
    range ([framesForWindow p = Some _]), a valid window or an image
    reply, each of which excludes [hop_length = 0]. *)
Definition assembleWindowMel (fileId : string) (p : RenderParams)
    (st : State) : result (list num * Z) * State :=
  match framesForWindow p with
  | None => (Throw NonFiniteFrames, st)
  | Some (F0, F1) =>
      let '(needed, missing) :=
        analyzeTiles (melTileCache st) fileId F0 F1 p in
      match computeSegments fileId missing p st with
      | (Throw e, st') => (Throw e, st')
      | (Ok _, st') =>
          let tiles :=
            map (fun t : Tile =>
                   melTileCache st'
                     !! tileKey fileId (startFrame t) (frames t) p)
                needed in
          match concatTiles tiles with
          | Throw e => (Throw e, st')
          | Ok mel => (Ok (mel, F1 - F0 + 1), st')
          end
      end
  end.

End Assembler.

(** ** Colormap *)

Definition clamp_byte (z : Z) : Z := Z.max 0 (Z.min 255 z).

(** The three channels of entry [i] of the viridis table. *)
Definition viridisRGB (i : Z) : Z * Z * Z :=
  let t : Q := (inject_Z i / 255)%Q in
  let mix (a b : Z) (localT : Q) : Z :=
    Math_round (inject_Z a * (1 - localT) + inject_Z b * localT)%Q in
  if Qltb t (1 # 4) then
    let localT := (t / (1 # 4))%Q in
    (mix 68 59 localT, mix 1 82 localT, mix 84 139 localT)
  else if Qltb t (1 # 2) then
    let localT := ((t - (1 # 4)) / (1 # 4))%Q in
    (mix 59 53 localT, mix 82 183 localT, mix 139 121 localT)
  else if Qltb t (3 # 4) then
    let localT := ((t - (1 # 2)) / (1 # 4))%Q in
    (mix 53 253 localT, mix 183 231 localT, mix 121 37 localT)
  else
    let localT := ((t - (3 # 4)) / (1 # 4))%Q in
    (mix 253 254 localT, mix 231 240 localT, mix 37 36 localT).

Definition buildViridisLUT : list Z :=
  foldl (fun lut (i : nat) =>
           let '(r, g, b) := viridisRGB (Z.of_nat i) in
           <[(i * 4 + 3)%nat := 255]>
             (<[(i * 4 + 2)%nat := clamp_byte b]>
                (<[(i * 4 + 1)%nat := clamp_byte g]>
                   (<[(i * 4 + 0)%nat := clamp_byte r]> lut))))
        (replicate (256 * 4) 0) (seq 0 256).

Definition viridisLUT : list Z := Eval vm_compute in buildViridisLUT.

(** Reading the table: [undefined] outside it, which a clamped byte
    array stores as 0. *)
Definition lut_get (i : Z) : Z :=
  if i <? 0 then 0 else default 0 (viridisLUT !! Z.to_nat i).

(** ** Display mapper and rasterizer *)

(** A canvas: its size and its RGBA bytes, row by row. *)
Record Image : Type := mkImage {
  img_width : Z;
  img_height : Z;
  img_data : list Z
}.

(** A fresh 1x1 canvas: one transparent pixel. *)
Definition placeholder : Image := mkImage 1 1 [0; 0; 0; 0].

Inductive Reply : Type :=
| ImageReply (img : Image)
| ErrorReply (e : exn).

Definition finite_values (mel : list num) : list Q :=
  omap (fun v => match v with Fin q => Some q | _ => None end) mel.

Fixpoint insert_sorted (x : Q) (l : list Q) : list Q :=
  match l with
  | [] => [x]
  | y :: l' => if Qle_bool x y then x :: l else y :: insert_sorted x l'
  end.

(** [.sort((a, b) => a - b)] on finite numbers: ascending and stable. *)
Definition sort_asc (l : list Q) : list Q := foldr insert_sorted [] l.

Definition Math_floor (x : num) : num :=
  match x with
  | Fin q => Fin (inject_Z (Qfloor q))
  | _ => x
  end.

(** [a[i]] where the index is a number: defined only at an integer
    inside the array. *)
Definition arr_get_num (a : list num) (i : num) : num :=
  match i with
  | Fin q =>
      if Qeq_bool q (inject_Z (Qfloor q)) then arr_get a (Qfloor q)
      else NaN
  | _ => NaN
  end.

Definition num_of_nat (n : nat) : num := Fin (inject_Z (Z.of_nat n)).

Definition minmax_step (acc : num * num) (v : num) : num * num :=
  let '(smin, smax) := acc in
  if negb (isFinite v) then acc
  else
    let smin := if ltb v smin then v else smin in
    let smax := if gtb v smax then v else smax in
    (smin, smax).

(** The gain bounds [smin], [smax] of a render.  The sum
    [smin + 1e-6] is one of doubles: it is rounded, and [1e-6] is the
    double nearest to it. *)
Definition gainBounds (p : RenderParams) (mel : list num) : num * num :=
  let '(smin, smax) := foldl minmax_step (PInf, NInf) mel in
  let '(smin, smax) :=
    if dynamicGain p then
      let sorted := Fin <$> sort_asc (finite_values mel) in
      if (0 <? length sorted)%nat then
        let len := num_of_nat (length sorted) in
        let idxLow := Math_floor (mul (Fin (5 # 100)) len) in
        let idxHigh :=
          Math_floor (mul (div (gainPercentile p) (Fin 100)) len) in
        (arr_get_num sorted (Math_min idxLow (sub len one)),
         arr_get_num sorted (Math_min idxHigh (sub len one)))
      else (smin, smax)
    else (smin, smax) in
  let smax := if negb (gtb smax smin)
              then add_double smin (Fin (to_double (1 # 1000000)))
              else smax in
  (smin, smax).

Definition chooseGamma (p : RenderParams) (mel : list num)
    (smin smax : num) : num :=
  if autoGamma p then
    let sorted := Fin <$> sort_asc (finite_values mel) in
    let mid :=
      if (0 <? length sorted)%nat then
        arr_get_num sorted
          (Math_floor (mul (num_of_nat (length sorted)) (Fin (1 # 2))))
      else zero in
    let normalizedMedian := div (sub mid smin) (sub smax smin) in
    if ltb normalizedMedian (Fin (3 # 10)) then Fin (6 # 10)
    else if gtb normalizedMedian (Fin (7 # 10)) then Fin (14 # 10)
    else Fin 1
  else gammaValue p.

(** [for (let k = n - 1; k >= 0; k--) body]. *)
Fixpoint for_down {S : Type} (n : nat) (body : nat -> S -> S) (s : S) : S :=
  match n with
  | O => s
  | S k => for_down k body (body k s)
  end.

Section Display.

Variable Math_pow : num -> num -> num.

(** The body of the rasterize loop, one variable of the source at a
    time: [normalizedValue] after its guard and clamp, [adjustedValue],
    and [clampedValue], the display intensity. *)
Definition normalizedValue (smin smax v : num) : num :=
  let normalizedValue := div (sub v smin) (sub smax smin) in
  let normalizedValue :=
    if negb (isFinite normalizedValue) then zero else normalizedValue in
  Math_max zero (Math_min one normalizedValue).

Definition adjustedValue (smin smax gamma : num) (p : RenderParams)
    (v : num) : num :=
  let gammaAdjusted := Math_pow (normalizedValue smin smax v) gamma in
  add (add (mul (sub gammaAdjusted (Fin (1 # 2))) (contrast p))
           (Fin (1 # 2)))
      (brightness p).

Definition clampedValue (smin smax gamma : num) (p : RenderParams)
    (v : num) : num :=
  Math_max zero (Math_min one (adjustedValue smin smax gamma p v)).

(** [num] of the loop body: the index into the colormap. *)
Definition colorIndex (smin smax gamma : num) (p : RenderParams)
    (v : num) : Z :=
  to_int32 (mul (clampedValue smin smax gamma p v) (Fin 255)).

Definition writePixel (smin smax gamma : num) (p : RenderParams)
    (mel : list num) (width height : Z) (j i : nat) (data : list Z)
    : list Z :=
  let v := arr_get mel (Z.of_nat i * height + Z.of_nat j) in
  let num := colorIndex smin smax gamma p v in
  let o := Z.to_nat (((height - 1 - Z.of_nat j) * width + Z.of_nat i) * 4) in
  <[(o + 3)%nat := 255]>
    (<[(o + 2)%nat := lut_get (num * 4 + 2)]>
       (<[(o + 1)%nat := lut_get (num * 4 + 1)]>
          (<[(o + 0)%nat := lut_get (num * 4 + 0)]> data))).

Definition rasterize (smin smax gamma : num) (p : RenderParams)
    (mel : list num) (width height : Z) : list Z :=
  for_down (Z.to_nat height)
    (fun j data =>
       for_down (Z.to_nat width)
         (fun i data =>
            writePixel smin smax gamma p mel width height j i data)
         data)
    (replicate (Z.to_nat (width * height * 4)) 0).

(** The display stage of the render branch, after the placeholder
    guard: gain bounds, gamma, canvas and rasterization. *)
Definition displayImage (p : RenderParams) (mel : list num)
    (frames : Z) : result Image :=
  let width := frames in
  let height := n_mels p in
  let '(smin, smax) := gainBounds p mel in
  let gamma := chooseGamma p mel smin smax in
  if (width <=? 0) || (height <=? 0) then Throw CanvasError
  else Ok (mkImage width height
             (rasterize smin smax gamma p mel width height)).

Variable mel_spectrogram_db :
  Z -> list num -> Z -> Z -> Z -> Q -> Q -> Z -> Z ->
  result (list (list num)).

Definition ensureWasmInitialized (st : State) : State :=
  if negb (wasmReady st) then set_wasmReady true st else st.

(** The [render] branch of [self.onmessage].  The assembled buffer is a
    typed array, hence truthy: of the guard [!mel || frames <= 0] only
    the second test can hold. *)
Definition render (fileId : string) (p : RenderParams) (st : State)
    : Reply * State :=
  let st := ensureWasmInitialized st in
  match assembleWindowMel mel_spectrogram_db fileId p st with
  | (Throw e, st') => (ErrorReply e, st')
  | (Ok (mel, frames), st') =>
      if frames <=? 0 then (ImageReply placeholder, st')
      else
        match displayImage p mel frames with
        | Throw e => (ErrorReply e, st')
        | Ok img => (ImageReply img, st')
        end
  end.

(** [self.onmessage]: the replies posted for one message and the state
    it leaves. *)
Definition onmessage (msg : Msg) (st : State) : list Reply * State :=
  match msg with
  | InitMsg => ([], ensureWasmInitialized st)
  | SetPcmMsg fileId sampleRate pcm =>
      ([], set_pcmStore (<[fileId := mkPcm sampleRate pcm]> (pcmStore st)) st)
  | RenderMsg fileId p =>
      let '(r, st') := render fileId p st in ([r], st')
  end.

(** A batch of messages.  The handler is [async].  It is suspended at
    [await ensureWasmInitialized()], whose promise is settled at once, so
    that it resumes before the next message is taken up, and at
    [await off.convertToBlob()], after everything it does to the
    module-level variables: the messages act on the state one after the
    other, in the order they arrive.  The replies are listed by request,
    the reply to an earlier message first; an image is posted only after
    the encoder has finished, so the order in which the replies reach the
    caller may be another and is not represented. *)
Fixpoint run (msgs : list Msg) (st : State) : list Reply * State :=
  match msgs with
  | [] => ([], st)
  | m :: rest =>
      let '(out, st') := onmessage m st in
      let '(outs, st'') := run rest st' in
      (out ++ outs, st'')
  end.

End Display.

(** * Properties *)

(** ** Tile keys determine the file, the start frame and the frame count *)

Fixpoint colons (s : string) : nat :=
  match s with
  | EmptyString => 0
  | String c s' => (if decide (c = ":"%char) then 1 else 0) + colons s'
  end.

Lemma colons_app (a b : string) : colons (a +:+ b) = (colons a + colons b)%nat.
Proof. induction a as [|c a IH]; simpl; [done|]. rewrite IH. lia. Qed.

Lemma colons_pretty_N_go (x : N) (s : string) :
  colons (pretty_N_go x s) = colons s.
Proof.
  revert s. induction (N.lt_wf_0 x) as [x _ IH]; intros s.
  assert (x = 0 ∨ 0 < x)%N as [->|Hx] by lia.
  - by rewrite pretty_N_go_0.
  - rewrite pretty_N_go_step by done.
    rewrite IH by (by apply N.div_lt). simpl.
    unfold pretty_N_char. by repeat case_match.
Qed.

Lemma colons_pretty_N (x : N) : colons (pretty x) = 0%nat.
Proof.
  unfold pretty, pretty_N. case_decide; [done|].
  by rewrite colons_pretty_N_go.
Qed.

Lemma colons_pretty_Z (z : Z) : colons (pretty z) = 0%nat.
Proof.
  destruct z as [|x|x]; unfold pretty, pretty_Z; [done| |].
  - apply colons_pretty_N.
  - rewrite colons_app. simpl. apply colons_pretty_N.
Qed.

Lemma colons_show_Q (q : Q) : colons (show_Q q) = 0%nat.
Proof.
  unfold show_Q. rewrite !colons_app, !colons_pretty_Z. done.
Qed.

Lemma append_nil_l (s : string) : "" +:+ s = s.
Proof. reflexivity. Qed.

Lemma append_cons (c : ascii) (a s : string) :
  String c a +:+ s = String c (a +:+ s).
Proof. reflexivity. Qed.

(** Two texts that agree after a prefix and a colon, with as many colons
    behind it, have the same prefix. *)
Lemma split_at_colon (a a' s s' : string) :
  colons s = colons s' ->
  a +:+ ":" +:+ s = a' +:+ ":" +:+ s' ->
  a = a' ∧ s = s'.
Proof.
  revert a'. induction a as [|c a IH]; intros [|c' a'] Hn Heq;
    repeat (rewrite append_nil_l in Heq || rewrite append_cons in Heq).
  - injection Heq as ->. done.
  - injection Heq as <- ->. rewrite colons_app in Hn.
    simpl in Hn. lia.
  - injection Heq as -> <-. rewrite colons_app in Hn.
    simpl in Hn. lia.
  - injection Heq as -> Heq. destruct (IH a' Hn Heq) as [-> ->]. done.
Qed.

(** Everything of a key behind the file identifier. *)
Definition keyTail (startFrame tileFrames : Z) (p : RenderParams) : string :=
  pretty startFrame +:+ ":" +:+ pretty tileFrames
    +:+ ":" +:+ pretty (sampleRate p) +:+ ":" +:+ pretty (n_fft p)
    +:+ ":" +:+ pretty (win_length p) +:+ ":" +:+ pretty (hop_length p)
    +:+ ":" +:+ pretty (n_mels p) +:+ ":" +:+ show_Q (f_min p)
    +:+ ":" +:+ show_Q (f_max p) +:+ ":" +:+ pretty (top_db p).

Lemma tileKey_tail fileId s n p :
  tileKey fileId s n p = fileId +:+ ":" +:+ keyTail s n p.
Proof. reflexivity. Qed.

Lemma colons_keyTail s n p : colons (keyTail s n p) = 9%nat.
Proof.
  unfold keyTail.
  rewrite !colons_app, !colons_pretty_Z, !colons_show_Q. done.
Qed.

Lemma tileKey_inj fileId fileId' s s' n n' p p' :
  tileKey fileId s n p = tileKey fileId' s' n' p' ->
  fileId = fileId' ∧ s = s' ∧ n = n'.
Proof.
  rewrite !tileKey_tail. intros Heq.
  apply split_at_colon in Heq as [-> Heq];
    [|by rewrite !colons_keyTail].
  split; [done|]. unfold keyTail in Heq.
  apply split_at_colon in Heq as [Hs Heq];
    [|by rewrite !colons_app, !colons_pretty_Z, !colons_show_Q].
  apply split_at_colon in Heq as [Hn _];
    [|by rewrite !colons_app, !colons_pretty_Z, !colons_show_Q].
  split; by eapply (inj pretty).
Qed.

Lemma tileKey_ne fileId s s' n n' p :
  (s, n) ≠ (s', n') -> tileKey fileId s n p ≠ tileKey fileId s' n' p.
Proof. intros Hne Heq. apply tileKey_inj in Heq as (_ & -> & ->). done. Qed.

(** ** The needed tiles partition the frame range *)

(** [tiling c F1 l]: [l] is a sequence of consecutive tiles that starts
    at frame [c] and ends at frame [F1], every tile [TILE_FRAMES] wide
    except the last one, which holds between 1 and [TILE_FRAMES]
    frames. *)
Inductive tiling : Z -> Z -> list Tile -> Prop :=
| tiling_last c F1 :
    c <= F1 -> F1 - c + 1 <= TILE_FRAMES ->
    tiling c F1 [mkTile c (F1 - c + 1)]
| tiling_full c F1 rest :
    TILE_FRAMES < F1 - c + 1 ->
    tiling (c + TILE_FRAMES) F1 rest ->
    tiling c F1 (mkTile c TILE_FRAMES :: rest).

Lemma neededLoop_eq (c F1 : Z) :
  neededLoop c F1 =
    if Z_le_gt_dec c F1 then
      mkTile c (Z.min TILE_FRAMES (F1 - c + 1))
        :: neededLoop (c + Z.min TILE_FRAMES (F1 - c + 1)) F1
    else [].
Proof.
  rewrite neededLoop_equation_1 at 1.
  destruct (Z_le_gt_dec c F1).
  - by rewrite neededLoop_clause_1_equation_1.
  - by rewrite neededLoop_clause_1_equation_2.
Qed.

Lemma neededLoop_empty (c F1 : Z) : F1 < c -> neededLoop c F1 = [].
Proof.
  intros H. rewrite neededLoop_eq. destruct (Z_le_gt_dec c F1); [lia|done].
Qed.

Lemma neededLoop_tiling (c F1 : Z) : c <= F1 -> tiling c F1 (neededLoop c F1).
Proof.
  intros Hle. remember (Z.to_nat (F1 - c)) as n eqn:Hn.
  revert c Hle Hn. induction (lt_wf n) as [n _ IH]. intros c Hle ->.
  rewrite neededLoop_eq. destruct (Z_le_gt_dec c F1) as [_|?]; [|lia].
  destruct (Z_le_gt_dec (F1 - c + 1) TILE_FRAMES) as [Hs|Hl].
  - rewrite Z.min_r by lia.
    rewrite neededLoop_empty by lia. by constructor.
  - rewrite Z.min_l by lia. constructor; [lia|].
    eapply IH; [|unfold TILE_FRAMES in *; lia|reflexivity].
    unfold TILE_FRAMES in *. lia.
Qed.

(** Tiles that follow one another from frame [c] on. *)
Fixpoint consecutive (c : Z) (l : list Tile) : Prop :=
  match l with
  | [] => True
  | t :: l' =>
      startFrame t = c ∧ 0 < frames t ∧ consecutive (c + frames t) l'
  end.

Lemma tiling_consecutive c F1 l : tiling c F1 l -> consecutive c l.
Proof.
  induction 1 as [c F1 H1 H2|c F1 rest H1 _ IH]; simpl.
  - split; [done|]. split; [lia|done].
  - split; [done|]. split; [unfold TILE_FRAMES; lia|done].
Qed.

Lemma tiling_total c F1 l :
  tiling c F1 l -> foldr (fun t n => frames t + n) 0 l = F1 - c + 1.
Proof.
  induction 1 as [c F1 H1 H2|c F1 rest H1 _ IH]; simpl; lia.
Qed.

#[global] Instance Tile_eq_dec : EqDecision Tile.
Proof. solve_decision. Defined.

Lemma consecutive_starts c l t :
  consecutive c l -> t ∈ l -> c <= startFrame t.
Proof.
  revert c. induction l as [|u l IH]; intros c Hc Hin; [by inversion Hin|].
  destruct Hc as (Hs & Hf & Hc). apply elem_of_cons in Hin as [->|Hin].
  - lia.
  - specialize (IH _ Hc Hin). lia.
Qed.

Lemma framesForWindow_nonempty p F0 F1 :
  framesForWindow p = Some (F0, F1) -> F0 <= F1.
Proof.
  unfold framesForWindow. destruct (hop_length p =? 0); [done|].
  intros [= <- <-]. lia.
Qed.

Lemma framesForWindow_Some p :
  hop_length p <> 0 -> ∃ F0 F1, framesForWindow p = Some (F0, F1).
Proof.
  intros H. unfold framesForWindow.
  destruct (Z.eqb_spec (hop_length p) 0); [done|]. eauto.
Qed.

Definition example_params : RenderParams :=
  mkParams 32000 2048 1024 256 10 8000 64 80 0 8
           true true (Fin 1) (Fin 98) (Fin 0) (Fin 1) "viridis".

(** C5. For every render request (with a non-zero hop length) the frame
    range is F0 = floor(t0 * fps), F1 = F0 + totalFrames - 1 with
    fps = sampleRate / hop_length and
    totalFrames = max(1, floor(windowDuration * fps)); the needed tiles
    are consecutive from F0 to F1, each 1024 frames wide except possibly a
    shorter last one; and with sampleRate 32000, hop_length 256, t0 = 0,
    windowDuration = 8 exactly one tile, frames 0..999, is needed. *)
Theorem needed_tiles_partition_window (cache : gmap string (list num))
    (fileId : string) (p : RenderParams) :
  hop_length p <> 0 ->
  let framesPerSecond := (inject_Z (sampleRate p) / inject_Z (hop_length p))%Q in
  let F0 := Qfloor (t0 p * framesPerSecond) in
  let totalFrames := Z.max 1 (Qfloor (windowDuration p * framesPerSecond)) in
  let F1 := F0 + totalFrames - 1 in
  framesForWindow p = Some (F0, F1)
  ∧ TILE_FRAMES = 1024
  ∧ tiling F0 F1 (fst (analyzeTiles cache fileId F0 F1 p))
  ∧ (sampleRate p = 32000 -> hop_length p = 256 ->
     (t0 p == 0)%Q -> (windowDuration p == 8)%Q ->
     fst (analyzeTiles cache fileId F0 F1 p) = [mkTile 0 1000]).
Proof.
  intros Hhop fps F0 total F1. split; [|split; [done|split]].
  - unfold framesForWindow.
    destruct (Z.eqb_spec (hop_length p) 0); [done|reflexivity].
  - simpl. apply neededLoop_tiling. lia.
  - intros Hsr Hh Ht Hw. simpl.
    assert (F0 = 0) as ->.
    { unfold F0. rewrite Ht. by rewrite Qmult_0_l. }
    assert (total = 1000) as Htot.
    { unfold total, fps. rewrite Hw, Hsr, Hh. reflexivity. }
    unfold F1. rewrite Htot. reflexivity.
Qed.

Lemma needed_tiles_partition_window_witness :
  let p := example_params in
  hop_length p <> 0
  ∧ framesForWindow p = Some (0, 999)
  ∧ tiling 0 999 (fst (analyzeTiles ∅ "a" 0 999 p))
  ∧ fst (analyzeTiles ∅ "a" 0 999 p) = [mkTile 0 1000].
Proof.
  pose proof (needed_tiles_partition_window ∅ "a" example_params) as H.
  simpl in H. split; [done|].
  destruct H as (H1 & _ & H2 & H3); [done|].
  split; [exact H1|]. split; [exact H2|]. by apply H3.
Defined.

(** ** Missing segments are the maximal runs of missing tiles *)

(** The maximal runs of missing tiles, as segments: [l] pairs every
    needed tile with its cache-hit flag, [open] is the run in progress. *)
Fixpoint segments (open : option Tile) (l : list (Tile * bool))
    : list Tile :=
  match l with
  | [] => match open with Some seg => [seg] | None => [] end
  | (t, true) :: l' =>
      match open with
      | Some seg => seg :: segments None l'
      | None => segments None l'
      end
  | (t, false) :: l' =>
      match open with
      | Some seg =>
          segments (Some (mkTile (startFrame seg) (frames seg + frames t))) l'
      | None => segments (Some t) l'
      end
  end.

(** The number of maximal runs of [false] (missing) in a list of
    cache-hit flags; [prev] tells whether the tile before was missing. *)
Fixpoint count_runs (prev : bool) (cached : list bool) : nat :=
  match cached with
  | [] => 0
  | true :: l => count_runs false l
  | false :: l => (if prev then 0 else 1) + count_runs true l
  end.

Definition cachedFlags (cache : gmap string (list num)) (fileId : string)
    (p : RenderParams) (needed : list Tile) : list bool :=
  map (fun t : Tile =>
         has_key cache (tileKey fileId (startFrame t) (frames t) p))
      needed.

Definition scan_of (acc : list Tile) (open : option Tile) : SegScan :=
  match open with
  | None => mkScan acc (-1) (-1)
  | Some seg =>
      mkScan acc (startFrame seg) (startFrame seg + frames seg - 1)
  end.

Definition open_ok (c : Z) (open : option Tile) : Prop :=
  match open with
  | None => True
  | Some seg => 0 <= startFrame seg ∧ startFrame seg + frames seg = c
  end.

Lemma tile_eta (t : Tile) : mkTile (startFrame t) (frames t) = t.
Proof. by destruct t. Qed.

Lemma scanTile_step (cached : bool) (t : Tile) acc open :
  open_ok (startFrame t) open ->
  scanTile cached t (scan_of acc open)
  = match cached, open with
    | true, Some seg => scan_of (acc ++ [seg]) None
    | true, None => scan_of acc None
    | false, Some seg =>
        scan_of acc (Some (mkTile (startFrame seg) (frames seg + frames t)))
    | false, None => scan_of acc (Some t)
    end.
Proof.
  intros Ho. unfold scanTile.
  destruct cached, open as [seg|]; simpl in *.
  - destruct (Z.eqb_spec (startFrame seg) (-1)); [lia|]. simpl.
    replace (startFrame seg + frames seg - 1 - startFrame seg + 1)
      with (frames seg) by lia.
    by rewrite tile_eta.
  - done.
  - destruct (Z.eqb_spec (startFrame seg) (-1)); [lia|].
    destruct (Z.eqb_spec (startFrame t)
                (startFrame seg + frames seg - 1 + 1)); [|lia].
    do 2 f_equal. lia.
  - done.
Qed.

Lemma scanFinish_scan_of acc open :
  open_ok (match open with Some seg => startFrame seg + frames seg
           | None => 0 end) open ->
  scanFinish (scan_of acc open)
  = acc ++ match open with Some seg => [seg] | None => [] end.
Proof.
  intros Ho. unfold scanFinish. destruct open as [seg|]; simpl in *.
  - destruct (Z.eqb_spec (startFrame seg) (-1)); [lia|]. simpl.
    replace (startFrame seg + frames seg - 1 - startFrame seg + 1)
      with (frames seg) by lia.
    by rewrite tile_eta.
  - by rewrite app_nil_r.
Qed.

Lemma scan_segments (flag : Tile -> bool) (l : list Tile) :
  ∀ c acc open,
    0 <= c -> consecutive c l -> open_ok c open ->
    scanFinish (foldl (fun s t => scanTile (flag t) t s) (scan_of acc open) l)
    = acc ++ segments open (map (fun t => (t, flag t)) l).
Proof.
  induction l as [|t l IH]; intros c acc open Hc Hl Ho.
  - simpl. apply scanFinish_scan_of. destruct open; simpl in *; [|done].
    split; lia.
  - destruct Hl as (Hs & Hf & Hl). cbn [foldl map].
    rewrite scanTile_step by (by rewrite Hs).
    assert (0 <= c + frames t) as Hc' by lia.
    destruct (flag t), open as [seg|]; cbn [segments]; simpl in Ho.
    + rewrite (IH (c + frames t) _ None) by done.
      by rewrite <- app_assoc.
    + by rewrite (IH (c + frames t) _ None).
    + rewrite (IH (c + frames t)); [done..|]. simpl. lia.
    + rewrite (IH (c + frames t)); [done..|]. simpl. lia.
Qed.

Lemma analyzeTiles_missing cache fileId F0 F1 p :
  0 <= F0 -> F0 <= F1 ->
  snd (analyzeTiles cache fileId F0 F1 p)
  = segments None
      (map (fun t : Tile =>
              (t, has_key cache
                    (tileKey fileId (startFrame t) (frames t) p)))
           (neededLoop F0 F1)).
Proof.
  intros H0 Hle. unfold analyzeTiles. simpl.
  apply (scan_segments
           (fun t => has_key cache
                       (tileKey fileId (startFrame t) (frames t) p))
           _ F0 [] None); [done| |done].
  by eapply tiling_consecutive, neededLoop_tiling.
Qed.

Lemma segments_length open (l : list (Tile * bool)) :
  length (segments open l)
  = (match open with Some _ => 1 | None => 0 end
     + count_runs (match open with Some _ => true | None => false end)
         (map snd l))%nat.
Proof.
  revert open. induction l as [|[t [|]] l IH]; intros [seg|]; simpl;
    rewrite ?IH; simpl; lia.
Qed.

Lemma analyzeTiles_missing_length cache fileId F0 F1 p :
  0 <= F0 -> F0 <= F1 ->
  length (snd (analyzeTiles cache fileId F0 F1 p))
  = count_runs false (cachedFlags cache fileId p (neededLoop F0 F1)).
Proof.
  intros H0 Hle. rewrite analyzeTiles_missing by done.
  rewrite segments_length. simpl. unfold cachedFlags.
  by rewrite map_map.
Qed.

(** One block of missing tiles between cached ones is a single run. *)
Lemma count_runs_block (a N b : nat) :
  (1 <= N)%nat ->
  count_runs false (replicate a true ++ replicate N false ++ replicate b true)
  = 1%nat.
Proof.
  intros HN.
  assert (∀ k, count_runs false (replicate k true) = 0%nat) as Hc.
  { induction k; simpl; done. }
  assert (∀ k, count_runs true (replicate k false ++ replicate b true)
               = 0%nat) as Hm.
  { induction k as [|k IHk]; simpl.
    - destruct b; simpl; [done|apply Hc].
    - done. }
  induction a as [|a IHa]; simpl; [|done].
  destruct N as [|N]; [lia|]. simpl. by rewrite Hm.
Qed.

(** The missing tiles among the needed ones, in order. *)
Definition missingTiles (cache : gmap string (list num)) (fileId : string)
    (p : RenderParams) (needed : list Tile) : list Tile :=
  List.filter
    (fun t : Tile =>
       negb (has_key cache (tileKey fileId (startFrame t) (frames t) p)))
    needed.

(** Every tile starts at the frame after the last frame of the tile
    before it. *)
Fixpoint contiguous (l : list Tile) : Prop :=
  match l with
  | t :: (u :: _) as l' =>
      startFrame u = startFrame t + frames t - 1 + 1 ∧ contiguous l'
  | _ => True
  end.

Lemma count_runs_none_missing (flag : Tile -> bool) (l : list Tile) :
  List.filter (fun t => negb (flag t)) l = [] ->
  count_runs false (map flag l) = 0%nat.
Proof.
  induction l as [|t l IH]; [done|]. simpl.
  destruct (flag t); simpl; [done|discriminate].
Qed.

Lemma count_runs_tail (flag : Tile -> bool) (l : list Tile) :
  ∀ c,
    consecutive c l ->
    match List.filter (fun t => negb (flag t)) l with
    | [] => True
    | u :: _ => startFrame u = c
    end ->
    contiguous (List.filter (fun t => negb (flag t)) l) ->
    count_runs true (map flag l) = 0%nat.
Proof.
  induction l as [|t l IH]; intros c Hc Hhead Hcont; [done|].
  destruct Hc as (Hs & Hf & Hc). simpl in *.
  destruct (flag t); simpl in *.
  - apply count_runs_none_missing.
    destruct (List.filter _ l) as [|u m] eqn:Hm; [done|].
    assert (u ∈ l) as Hu.
    { apply list_elem_of_In.
      apply (proj1 (filter_In (fun t => negb (flag t)) u l)).
      rewrite Hm. by left. }
    pose proof (consecutive_starts _ _ _ Hc Hu). lia.
  - apply (IH (c + frames t) Hc).
    + destruct (List.filter _ l) as [|u m]; [done|]. lia.
    + by destruct (List.filter _ l) as [|u m]; [|destruct Hcont].
Qed.

(** Missing tiles that are frame-contiguous form a single run. *)
Lemma count_runs_contiguous (flag : Tile -> bool) (l : list Tile) :
  ∀ c,
    consecutive c l ->
    List.filter (fun t => negb (flag t)) l ≠ [] ->
    contiguous (List.filter (fun t => negb (flag t)) l) ->
    count_runs false (map flag l) = 1%nat.
Proof.
  induction l as [|t l IH]; intros c Hc Hne Hcont; [done|].
  destruct Hc as (Hs & Hf & Hc). simpl in *.
  destruct (flag t); simpl in *.
  - by apply (IH (c + frames t)).
  - rewrite (count_runs_tail flag l (c + frames t)); [done|done| |].
    + destruct (List.filter _ l) as [|u m]; [done|]. lia.
    + by destruct (List.filter _ l) as [|u m]; [|destruct Hcont].
Qed.

(** ** Slices and flattening *)

Lemma slice_nonneg {A} (a : list A) (b e : Z) :
  0 <= b -> b <= e ->
  slice a b e = take (Z.to_nat (e - b)) (drop (Z.to_nat b) a).
Proof.
  intros Hb He. unfold slice, rel_index.
  destruct (Z.ltb_spec b 0); [lia|]. destruct (Z.ltb_spec e 0); [lia|].
  destruct (Z_le_gt_dec b (Z.of_nat (length a))) as [Hin|Hout].
  - rewrite (Z.min_l b) by lia.
    destruct (Z_le_gt_dec e (Z.of_nat (length a))).
    + by rewrite (Z.min_l e) by lia.
    + rewrite (Z.min_r e) by lia.
      rewrite !take_ge; [done|rewrite length_drop; lia..].
  - rewrite !drop_ge by lia. by rewrite !take_nil.
Qed.

Lemma slice_length_le {A} (a : list A) (b e : Z) :
  b <= e -> (length (slice a b e) <= Z.to_nat (e - b))%nat.
Proof.
  intros He. unfold slice, rel_index. rewrite length_take.
  destruct (Z.ltb_spec b 0), (Z.ltb_spec e 0); lia.
Qed.

Lemma slice_Forall {A} (P : A -> Prop) (a : list A) (b e : Z) :
  Forall P a -> Forall P (slice a b e).
Proof. intros H. unfold slice. by apply Forall_take, Forall_drop. Qed.

(** The contract of the primitive on its rows: [n_mels] columns each. *)
Definition rows_ok (n_mels : Z) (rows : list (list num)) : Prop :=
  Forall (fun row => Z.of_nat (length row) = n_mels) rows.

Lemma flattenLoop_rows (n_mels : Z) (rows : list (list num)) :
  rows_ok n_mels rows ->
  ∀ (t : Z) (done : list num),
    0 <= t -> Z.of_nat (length done) = t * n_mels ->
    flattenLoop rows t n_mels
      (done ++ replicate (Z.to_nat (Z.of_nat (length rows) * n_mels)) zero)
    = Ok (done ++ concat rows).
Proof.
  induction 1 as [|row rows Hrow Hrows IH]; intros t done Ht Hd.
  - simpl. by rewrite !app_nil_r.
  - cbn [flattenLoop]. unfold array_set.
    rewrite length_app, length_replicate.
    assert (0 <= n_mels) as Hn by lia.
    destruct (Z.ltb_spec (t * n_mels) 0) as [?|_]; [nia|].
    destruct (Z.ltb_spec
                (Z.of_nat (length done
                  + Z.to_nat (Z.of_nat (length (row :: rows)) * n_mels)))
                (t * n_mels + Z.of_nat (length row))) as [Hbad|_].
    { simpl length in Hbad. nia. }
    cbn [orb].
    replace (Z.to_nat (t * n_mels)) with (length done) by lia.
    rewrite take_app_length.
    rewrite drop_app_ge by lia.
    replace (length done + length row - length done)%nat
      with (length row) by lia.
    rewrite drop_replicate.
    replace (Z.to_nat (Z.of_nat (length (row :: rows)) * n_mels)
             - length row)%nat
      with (Z.to_nat (Z.of_nat (length rows) * n_mels)).
    2:{ simpl length. nia. }
    specialize (IH (t + 1) (done ++ row)).
    rewrite <- app_assoc in IH. rewrite IH.
    + by rewrite <- app_assoc.
    + lia.
    + rewrite length_app. nia.
Qed.

Lemma flattenMel_rows (n_mels : Z) (rows : list (list num)) :
  rows_ok n_mels rows -> flattenMel rows n_mels = Ok (concat rows).
Proof.
  intros H. unfold flattenMel.
  destruct (Z.ltb_spec (Z.of_nat (length rows) * n_mels) 0) as [Hneg|_].
  - destruct H as [|row rows Hrow _]; simpl in Hneg; [lia|nia].
  - apply (flattenLoop_rows n_mels rows H 0 []); simpl; lia.
Qed.

(** ** What a segment computation stores *)

Lemma storeTiles_eq fileId seg p usable cursor cache :
  storeTiles fileId seg p usable cursor cache =
    if Z_lt_ge_dec cursor (frames seg) then
      let thisFrames := Z.min TILE_FRAMES (frames seg - cursor) in
      match flattenMel (slice usable cursor (cursor + thisFrames))
              (n_mels p) with
      | Throw e => (Throw e, cache)
      | Ok flat =>
          storeTiles fileId seg p usable (cursor + thisFrames)
            (<[tileKey fileId (startFrame seg + cursor) thisFrames p := flat]>
               cache)
      end
    else (Ok tt, cache).
Proof.
  rewrite storeTiles_equation_1 at 1.
  destruct (Z_lt_ge_dec cursor (frames seg)).
  - rewrite storeTiles_clause_1_equation_1. cbv zeta.
    destruct (flattenMel _ _).
    + by rewrite storeTiles_clause_1_clause_2_equation_1.
    + by rewrite storeTiles_clause_1_clause_2_equation_2.
  - by rewrite storeTiles_clause_1_equation_2.
Qed.

(** The flattened rows of tile [t] of a segment that starts at frame
    [s], cut from the usable rows of the segment. *)
Definition tileValue (usable : list (list num)) (s : Z) (t : Tile)
    : list num :=
  concat (slice usable (startFrame t - s) (startFrame t - s + frames t)).

Definition putTile (fileId : string) (p : RenderParams)
    (usable : list (list num)) (s : Z)
    (cache : gmap string (list num)) (t : Tile) : gmap string (list num) :=
  <[tileKey fileId (startFrame t) (frames t) p := tileValue usable s t]>
    cache.

Lemma storeTiles_closed fileId seg p usable :
  rows_ok (n_mels p) usable ->
  ∀ cursor cache,
    storeTiles fileId seg p usable cursor cache
    = (Ok tt,
       foldl (putTile fileId p usable (startFrame seg)) cache
         (neededLoop (startFrame seg + cursor)
            (startFrame seg + frames seg - 1))).
Proof.
  intros Hrows cursor.
  remember (Z.to_nat (frames seg - cursor)) as n eqn:Hn.
  revert cursor Hn. induction (lt_wf n) as [n _ IH]. intros cursor -> cache.
  rewrite storeTiles_eq, neededLoop_eq.
  destruct (Z_lt_ge_dec cursor (frames seg)) as [Hlt|Hge];
    destruct (Z_le_gt_dec (startFrame seg + cursor)
                (startFrame seg + frames seg - 1)); try lia; [|done].
  cbn zeta.
  replace (startFrame seg + frames seg - 1 - (startFrame seg + cursor) + 1)
    with (frames seg - cursor) by lia.
  set (this := Z.min TILE_FRAMES (frames seg - cursor)).
  assert (0 < this) by (unfold this, TILE_FRAMES; lia).
  rewrite flattenMel_rows by (by apply slice_Forall).
  rewrite (IH (Z.to_nat (frames seg - (cursor + this)))) by (lia || done).
  cbn [foldl]. rewrite Z.add_assoc. do 2 f_equal.
  unfold putTile, tileValue. cbn [startFrame frames].
  by replace (startFrame seg + cursor - startFrame seg) with cursor by lia.
Qed.

Lemma lookup_putTiles_other fileId p usable s (l : list Tile) key :
  ∀ cache,
    (∀ t, t ∈ l -> key ≠ tileKey fileId (startFrame t) (frames t) p) ->
    foldl (putTile fileId p usable s) cache l !! key = cache !! key.
Proof.
  induction l as [|u l IH]; intros cache Hne; [done|]. cbn [foldl].
  rewrite IH by (intros t Ht; apply Hne; by right).
  unfold putTile. rewrite lookup_insert_ne; [done|].
  intros Heq. eapply Hne; [by left|done].
Qed.

(** Looking a tile up after the tiles of a consecutive sequence were
    stored. *)
Lemma lookup_putTiles fileId p usable s (l : list Tile) :
  ∀ c cache t,
    consecutive c l -> t ∈ l ->
    foldl (putTile fileId p usable s) cache l
      !! tileKey fileId (startFrame t) (frames t) p
    = Some (tileValue usable s t).
Proof.
  induction l as [|u l IH]; intros c cache t Hc Hin; [by inversion Hin|].
  destruct Hc as (Hs & Hf & Hc). cbn [foldl].
  destruct (decide (t ∈ l)) as [Hl|Hnl]; [by eapply IH|].
  apply elem_of_cons in Hin as [->|?]; [|done].
  rewrite lookup_putTiles_other.
  - unfold putTile. by rewrite lookup_insert_eq.
  - intros v Hv Heq. apply tileKey_inj in Heq as (_ & Heq & _).
    pose proof (consecutive_starts _ _ _ Hc Hv). lia.
Qed.

(** ** Segment computation and the count of primitive invocations *)

Section AssemblerFacts.

Variable mel_spectrogram_db :
  Z -> list num -> Z -> Z -> Z -> Q -> Q -> Z -> Z ->
  result (list (list num)).

Abbreviation computeSegment := (computeSegmentAndPopulateTiles mel_spectrogram_db).
Abbreviation computeSegments' := (computeSegments mel_spectrogram_db).
Abbreviation assemble := (assembleWindowMel mel_spectrogram_db).
Abbreviation primitive := (call_primitive mel_spectrogram_db).

(** The PCM slice handed to the primitive for a segment. *)
Definition paddedSlice (entry : PcmEntry) (seg : Tile) (p : RenderParams)
    : list num :=
  slice (pcm entry)
    (Z.max 0 (startFrame seg * hop_length p - n_fft p))
    (Z.min (Z.of_nat (length (pcm entry)))
       ((startFrame seg + frames seg) * hop_length p + n_fft p)).

(** The frames kept from the output of the primitive. *)
Definition usableFrames (melFrames : list (list num)) (seg : Tile)
    (p : RenderParams) : list (list num) :=
  slice melFrames (n_fft p / hop_length p)
    (n_fft p / hop_length p + frames seg).

(** [computeSegmentAndPopulateTiles] with the invocation spelled out:
    the result of the primitive and the state with the new trace
    entry. *)
Lemma computeSegment_eq fileId seg p st :
  computeSegment fileId seg p st
  = match pcmStore st !! fileId with
    | None => (Throw PcmNotLoaded, st)
    | Some pcmEntry =>
        let hop := hop_length p in
        let pad := n_fft p in
        let startSample := Z.max 0 (startFrame seg * hop - pad) in
        let endSample :=
          Z.min (Z.of_nat (length (pcm pcmEntry)))
                ((startFrame seg + frames seg) * hop + pad) in
        let samples := slice (pcm pcmEntry) startSample endSample in
        let st1 := log_call (callOf mel_spectrogram_db p samples) st in
        match primitive p samples with
        | Throw e => (Throw e, st1)
        | Ok melFrames =>
            let framesPerPad := pad / hop in
            let usable :=
              slice melFrames framesPerPad (framesPerPad + frames seg) in
            let '(r, cache) :=
              storeTiles fileId seg p usable 0 (melTileCache st1) in
            (r, set_melTileCache cache st1)
        end
    end.
Proof.
  unfold computeSegmentAndPopulateTiles, invoke, callOf, call_primitive.
  by destruct (pcmStore st !! fileId).
Qed.

Lemma computeSegment_not_loaded fileId seg p st :
  pcmStore st !! fileId = None ->
  computeSegment fileId seg p st = (Throw PcmNotLoaded, st).
Proof. intros H. rewrite computeSegment_eq. by rewrite H. Qed.

Lemma computeSegment_frame fileId seg p st :
  let st' := snd (computeSegment fileId seg p st) in
  pcmStore st' = pcmStore st ∧ wasmReady st' = wasmReady st.
Proof.
  rewrite computeSegment_eq. cbv zeta.
  destruct (pcmStore st !! fileId) as [entry|]; [|done].
  destruct (call_primitive _ _ _) as [melFrames|e]; [|done].
  cbv zeta. by destruct (storeTiles _ _ _ _ _ _).
Qed.

Lemma computeSegment_calls fileId seg p st entry :
  pcmStore st !! fileId = Some entry ->
  primCalls (snd (computeSegment fileId seg p st))
  = primCalls st ++ [callOf mel_spectrogram_db p (paddedSlice entry seg p)].
Proof.
  intros H. rewrite computeSegment_eq, H. cbv zeta.
  destruct (call_primitive _ _ _) as [melFrames|e]; [|done].
  cbv zeta. by destruct (storeTiles _ _ _ _ _ _).
Qed.

Lemma computeSegment_throw fileId seg p st entry e :
  pcmStore st !! fileId = Some entry ->
  primitive p (paddedSlice entry seg p) = Throw e ->
  computeSegment fileId seg p st
  = (Throw e,
     log_call (callOf mel_spectrogram_db p (paddedSlice entry seg p)) st).
Proof.
  intros H Hp. rewrite computeSegment_eq, H. cbv zeta.
  cbv zeta. fold (paddedSlice entry seg p). by rewrite Hp.
Qed.

Lemma computeSegment_ok fileId seg p st entry melFrames :
  pcmStore st !! fileId = Some entry ->
  primitive p (paddedSlice entry seg p) = Ok melFrames ->
  rows_ok (n_mels p) melFrames ->
  computeSegment fileId seg p st
  = (Ok tt,
     set_melTileCache
       (foldl (putTile fileId p (usableFrames melFrames seg p)
                 (startFrame seg))
          (melTileCache st)
          (neededLoop (startFrame seg) (startFrame seg + frames seg - 1)))
       (log_call (callOf mel_spectrogram_db p (paddedSlice entry seg p))
          st)).
Proof.
  intros H Hp Hrows. rewrite computeSegment_eq, H. cbv zeta.
  cbv zeta. fold (paddedSlice entry seg p). rewrite Hp.
  fold (usableFrames melFrames seg p).
  rewrite storeTiles_closed by (by apply slice_Forall).
  by rewrite Z.add_0_r.
Qed.

Lemma computeSegments_frame fileId missing p :
  ∀ st, pcmStore (snd (computeSegments' fileId missing p st)) = pcmStore st.
Proof.
  induction missing as [|seg rest IH]; intros st; [done|]. cbn [computeSegments].
  pose proof (computeSegment_frame fileId seg p st) as [Hp _].
  destruct (computeSegment fileId seg p st) as [[[]|e] st1]; simpl in *.
  - by rewrite IH.
  - done.
Qed.

Lemma computeSegments_calls_ok fileId missing p :
  ∀ st st' entry,
    pcmStore st !! fileId = Some entry ->
    computeSegments' fileId missing p st = (Ok tt, st') ->
    length (primCalls st') = (length (primCalls st) + length missing)%nat.
Proof.
  induction missing as [|seg rest IH]; intros st st' entry Hl Hr.
  - injection Hr as <-. simpl. lia.
  - cbn [computeSegments] in Hr.
    pose proof (computeSegment_frame fileId seg p st) as [Hp _].
    pose proof (computeSegment_calls fileId seg p st entry Hl) as Hc.
    destruct (computeSegment fileId seg p st) as [[[]|e] st1];
      simpl in *; [|done].
    rewrite (IH st1 st' entry); [|by rewrite Hp|done].
    rewrite Hc, length_app. simpl. lia.
Qed.

Lemma computeSegments_calls_single fileId seg p st entry :
  pcmStore st !! fileId = Some entry ->
  length (primCalls (snd (computeSegments' fileId [seg] p st)))
  = (length (primCalls st) + 1)%nat.
Proof.
  intros Hl. cbn [computeSegments].
  pose proof (computeSegment_calls fileId seg p st entry Hl) as Hc.
  destruct (computeSegment fileId seg p st) as [[[]|e] st1]; simpl in *;
    rewrite Hc, length_app; simpl; lia.
Qed.

(** The invocations of a run of the segment loop: one per segment, in
    order, up to the segment at which an exception ended the loop. *)
Lemma computeSegments_calls fileId missing p entry :
  ∀ st,
    pcmStore st !! fileId = Some entry ->
    ∃ k,
      (k <= length missing)%nat
      ∧ primCalls (snd (computeSegments' fileId missing p st))
        = primCalls st
            ++ map (fun seg =>
                      callOf mel_spectrogram_db p (paddedSlice entry seg p))
                 (take k missing)
      ∧ (fst (computeSegments' fileId missing p st) = Ok tt ->
         k = length missing).
Proof.
  induction missing as [|seg rest IH]; intros st Hl.
  - exists 0%nat. simpl. by rewrite app_nil_r.
  - cbn [computeSegments].
    pose proof (computeSegment_frame fileId seg p st) as [Hp _].
    pose proof (computeSegment_calls fileId seg p st entry Hl) as Hc.
    destruct (computeSegment fileId seg p st) as [[[]|e] st1]; simpl in *.
    + destruct (IH st1) as (k & Hk & Hcalls & Hall); [by rewrite Hp|].
      exists (S k). split; [lia|]. split.
      * rewrite Hcalls, Hc, <- app_assoc. done.
      * intros Hok. by rewrite Hall.
    + exists 1%nat. split; [lia|]. split; [by rewrite Hc|done].
Qed.

(** What [assembleWindowMel] leaves in the invocation log. *)
Lemma assemble_calls fileId p st F0 F1 :
  framesForWindow p = Some (F0, F1) ->
  primCalls (snd (assemble fileId p st))
  = primCalls
      (snd (computeSegments' fileId
              (snd (analyzeTiles (melTileCache st) fileId F0 F1 p)) p st)).
Proof.
  intros HF. unfold assembleWindowMel. rewrite HF.
  destruct (analyzeTiles _ _ _ _ _) as [needed missing]. simpl.
  destruct (computeSegments' fileId missing p st) as [[[]|e] st1]; [|done].
  by destruct (concatTiles _).
Qed.

Lemma assemble_ok_segments fileId p st F0 F1 v :
  framesForWindow p = Some (F0, F1) ->
  fst (assemble fileId p st) = Ok v ->
  fst (computeSegments' fileId
         (snd (analyzeTiles (melTileCache st) fileId F0 F1 p)) p st) = Ok tt.
Proof.
  intros HF. unfold assembleWindowMel. rewrite HF.
  destruct (analyzeTiles _ _ _ _ _) as [needed missing]. simpl.
  by destruct (computeSegments' fileId missing p st) as [[[]|e] st1].
Qed.

(** A request as the data model has it: positive rates and a start time
    that is not negative. *)
Definition valid_window (p : RenderParams) : Prop :=
  0 < sampleRate p ∧ 0 < hop_length p ∧ (0 <= t0 p)%Q.

Lemma valid_window_frames p :
  valid_window p ->
  ∃ F0 F1, framesForWindow p = Some (F0, F1) ∧ 0 <= F0 <= F1.
Proof.
  intros (Hsr & Hhop & Ht).
  set (fps := (inject_Z (sampleRate p) / inject_Z (hop_length p))%Q).
  exists (Qfloor (t0 p * fps)),
    (Qfloor (t0 p * fps) + Z.max 1 (Qfloor (windowDuration p * fps)) - 1).
  split; [|split; [|lia]].
  - unfold framesForWindow.
    destruct (Z.eqb_spec (hop_length p) 0); [lia|done].
  - change 0 with (Qfloor 0). apply Qfloor_resp_le.
    apply Qmult_le_0_compat; [done|].
    apply Qle_shift_div_l.
    + change 0%Q with (inject_Z 0). rewrite <- Zlt_Qlt. lia.
    + rewrite Qmult_0_l. change 0%Q with (inject_Z 0).
      rewrite <- Zle_Qle. lia.
Qed.

(** C4. For a render of a valid window with PCM loaded, the missing
    segments are as many as the maximal runs of missing tiles, and the
    invocations of the spectral primitive during the render, read off the
    trace the export keeps, are those on the padded slices of these
    segments with the analysis parameters of the request, one per
    segment and in order: all of them when the window is assembled, and
    in any case none beyond them.  In particular, when there are N >= 1
    missing tiles and they are frame-contiguous (each starts at the frame
    after the last frame of the one before), there is one segment and
    the primitive is invoked exactly once. *)
Theorem primitive_invoked_once_per_missing_run
    (st : State) (fileId : string) (p : RenderParams) (entry : PcmEntry)
    (F0 F1 : Z) :
  valid_window p ->
  pcmStore st !! fileId = Some entry ->
  framesForWindow p = Some (F0, F1) ->
  let needed := fst (analyzeTiles (melTileCache st) fileId F0 F1 p) in
  let missing := missingTiles (melTileCache st) fileId p needed in
  let cached := cachedFlags (melTileCache st) fileId p needed in
  let runs := snd (analyzeTiles (melTileCache st) fileId F0 F1 p) in
  let invocation (seg : Tile) : PrimCall :=
    let samples := paddedSlice entry seg p in
    mkCall (sampleRate p) samples (n_fft p) (win_length p) (hop_length p)
      (f_min p) (f_max p) (n_mels p) (top_db p)
      (mel_spectrogram_db (sampleRate p) samples (n_fft p) (win_length p)
         (hop_length p) (f_min p) (f_max p) (n_mels p) (top_db p)) in
  let r := fst (assemble fileId p st) in
  let st' := snd (assemble fileId p st) in
  length runs = count_runs false cached
  ∧ (∃ k, (k <= length runs)%nat
          ∧ primCalls st' = primCalls st ++ map invocation (take k runs))
  ∧ (∀ v, r = Ok v -> primCalls st' = primCalls st ++ map invocation runs)
  ∧ ((1 <= length missing)%nat -> contiguous missing ->
     ∃ seg, runs = [seg]
            ∧ primCalls st' = primCalls st ++ [invocation seg]).
Proof.
  intros Hv Hl HF needed missing cached runs invocation r st'.
  destruct (valid_window_frames p Hv) as (F0' & F1' & HF' & H0 & Hle).
  rewrite HF in HF'. injection HF' as <- <-.
  pose proof (analyzeTiles_missing_length (melTileCache st) fileId F0 F1 p
                H0 Hle) as Hlen.
  change (neededLoop F0 F1) with needed in Hlen. fold cached runs in Hlen.
  destruct (computeSegments_calls fileId runs p entry st Hl)
    as (k & Hk & Hcalls & Hall).
  change (fun seg => callOf mel_spectrogram_db p (paddedSlice entry seg p))
    with invocation in Hcalls.
  assert (primCalls st'
          = primCalls (snd (computeSegments' fileId runs p st))) as Hst'
    by apply (assemble_calls fileId p st F0 F1 HF).
  split; [exact Hlen|]. split; [|split].
  - exists k. split; [done|]. by rewrite Hst'.
  - intros v Hr.
    pose proof (assemble_ok_segments fileId p st F0 F1 v HF Hr) as Hok.
    rewrite Hst', Hcalls, (Hall Hok). by rewrite firstn_all.
  - intros HN Hcont.
    assert (count_runs false cached = 1%nat) as Hone.
    { apply (count_runs_contiguous _ needed F0).
      - by eapply tiling_consecutive, neededLoop_tiling.
      - intros Hnil. unfold missing, missingTiles in HN.
        rewrite Hnil in HN. simpl in HN. lia.
      - exact Hcont. }
    rewrite Hone in Hlen.
    destruct runs as [|seg [|]] eqn:Hruns; try done.
    exists seg. split; [done|]. rewrite Hst'. cbn [computeSegments].
    pose proof (computeSegment_calls fileId seg p st entry Hl) as Hc.
    destruct (computeSegment fileId seg p st) as [[[]|e] st1]; simpl in *;
      by rewrite Hc.
Qed.

End AssemblerFacts.

(** ** A window with no cached tile against one un-tiled computation *)

Definition total_frames (l : list Tile) : Z :=
  foldr (fun t n => frames t + n) 0 l.

Lemma segments_all_missing (l : list Tile) :
  ∀ open,
    segments open (map (fun t => (t, false)) l)
    = match open, l with
      | Some seg, _ =>
          [mkTile (startFrame seg) (frames seg + total_frames l)]
      | None, t :: l' => [mkTile (startFrame t) (total_frames l)]
      | None, [] => []
      end.
Proof.
  induction l as [|t l IH]; intros [seg|]; cbn [map segments].
  - rewrite <- (tile_eta seg) at 1. do 2 f_equal. simpl. lia.
  - done.
  - rewrite IH. do 2 f_equal. simpl. unfold total_frames. lia.
  - rewrite IH. by destruct l.
Qed.

Lemma totalLength_Some (vals : list (list num)) :
  ∀ total,
    totalLength (map Some vals) total
    = Ok (total + Z.of_nat (length (concat vals))).
Proof.
  induction vals as [|v vals IH]; intros total.
  - simpl. f_equal. lia.
  - cbn [map totalLength concat]. rewrite IH, length_app. f_equal. lia.
Qed.

Lemma totalLength_Ok_inv (tiles : list (option (list num))) :
  ∀ total n,
    totalLength tiles total = Ok n -> ∃ vals, tiles = map Some vals.
Proof.
  induction tiles as [|[t|] tiles IH]; intros total n; cbn [totalLength].
  - intros _. by exists [].
  - intros H. destruct (IH _ _ H) as [vals ->]. by exists (t :: vals).
  - done.
Qed.

Lemma totalLength_absent (tiles : list (option (list num))) :
  ∀ total, None ∈ tiles -> totalLength tiles total = Throw TypeError.
Proof.
  induction tiles as [|[t|] tiles IH]; intros total Hin.
  - by inversion Hin.
  - apply elem_of_cons in Hin as [|Hin]; [done|].
    cbn [totalLength]. by apply IH.
  - done.
Qed.

(** The copying loop, with [done] already written and room for the
    tiles that are left. *)
Lemma concatLoop_Some (vals : list (list num)) :
  ∀ (done : list num),
    concatLoop (map Some vals) (Z.of_nat (length done))
      (done ++ replicate (length (concat vals)) zero)
    = Ok (done ++ concat vals).
Proof.
  induction vals as [|v vals IH]; intros done.
  - simpl. by rewrite !app_nil_r.
  - cbn [map concatLoop concat]. unfold array_set.
    rewrite !length_app, length_replicate.
    destruct (Z.ltb_spec (Z.of_nat (length done)) 0) as [?|_]; [lia|].
    destruct (Z.ltb_spec
                (Z.of_nat (length done + (length v + length (concat vals))))
                (Z.of_nat (length done) + Z.of_nat (length v)))
      as [?|_]; [lia|].
    cbn [orb]. rewrite Nat2Z.id, take_app_length.
    rewrite drop_app_ge by lia.
    replace (length done + length v - length done)%nat
      with (length v) by lia.
    rewrite drop_replicate.
    replace (length v + length (concat vals) - length v)%nat
      with (length (concat vals)) by lia.
    specialize (IH (done ++ v)).
    rewrite length_app, Nat2Z.inj_add, <- app_assoc in IH.
    by rewrite IH, <- app_assoc.
Qed.

Lemma concatTiles_Some (vals : list (list num)) :
  concatTiles (map Some vals) = Ok (concat vals).
Proof.
  unfold concatTiles. rewrite totalLength_Some.
  rewrite Z.add_0_l, Nat2Z.id. apply (concatLoop_Some vals []).
Qed.

Lemma concatTiles_Ok_inv (tiles : list (option (list num))) (mel : list num) :
  concatTiles tiles = Ok mel ->
  ∃ vals, tiles = map Some vals ∧ mel = concat vals.
Proof.
  intros H.
  assert (∃ vals, tiles = map Some vals) as [vals ->].
  { unfold concatTiles in H.
    destruct (totalLength tiles 0) as [n|e] eqn:Ht; [|done].
    by eapply totalLength_Ok_inv. }
  exists vals. split; [done|].
  rewrite concatTiles_Some in H. by injection H as <-.
Qed.

Lemma concatTiles_absent (tiles : list (option (list num))) :
  None ∈ tiles -> concatTiles tiles = Throw TypeError.
Proof.
  intros Hin. unfold concatTiles. by rewrite totalLength_absent.
Qed.

Lemma concat_tileValues (usable : list (list num)) (F0 : Z) c F1 l :
  tiling c F1 l -> F0 <= c ->
  concat (map (tileValue usable F0) l)
  = concat (take (Z.to_nat (F1 - c + 1)) (drop (Z.to_nat (c - F0)) usable)).
Proof.
  induction 1 as [c F1 H1 H2|c F1 rest H1 _ IH]; intros Hc.
  - simpl. rewrite app_nil_r. unfold tileValue. cbn [startFrame frames].
    rewrite slice_nonneg by lia. do 3 f_equal. lia.
  - cbn [map concat]. rewrite IH by (unfold TILE_FRAMES; lia).
    unfold tileValue. cbn [startFrame frames].
    rewrite slice_nonneg by (unfold TILE_FRAMES; lia).
    rewrite <- concat_app. f_equal.
    replace (Z.to_nat (c - F0 + TILE_FRAMES - (c - F0)))
      with (Z.to_nat TILE_FRAMES) by lia.
    replace (Z.to_nat (c + TILE_FRAMES - F0))
      with (Z.to_nat (c - F0) + Z.to_nat TILE_FRAMES)%nat
      by (unfold TILE_FRAMES; lia).
    rewrite <- drop_drop, take_take_drop. f_equal.
    unfold TILE_FRAMES in *. lia.
Qed.

Section ColdWindow.

Variable mel_spectrogram_db :
  Z -> list num -> Z -> Z -> Z -> Q -> Q -> Z -> Z ->
  result (list (list num)).

(** The buffer of one call of the primitive over the whole frame range
    of the window, padded and cut as a segment is, with no tiling and no
    cache. *)
Definition referenceWindowMel (fileId : string) (p : RenderParams)
    (st : State) : result (list num * Z) :=
  match framesForWindow p with
  | None => Throw NonFiniteFrames
  | Some (F0, F1) =>
      match pcmStore st !! fileId with
      | None => Throw PcmNotLoaded
      | Some pcmEntry =>
          let hop := hop_length p in
          let pad := n_fft p in
          let totalFrames := F1 - F0 + 1 in
          let startSample := Z.max 0 (F0 * hop - pad) in
          let endSample :=
            Z.min (Z.of_nat (length (pcm pcmEntry)))
                  ((F0 + totalFrames) * hop + pad) in
          match call_primitive mel_spectrogram_db p
                  (slice (pcm pcmEntry) startSample endSample) with
          | Throw e => Throw e
          | Ok melFrames =>
              let framesPerPad := pad / hop in
              match flattenMel
                      (slice melFrames framesPerPad
                         (framesPerPad + totalFrames))
                      (n_mels p) with
              | Throw e => Throw e
              | Ok mel => Ok (mel, totalFrames)
              end
          end
      end
  end.

(** No tile needed by the window is in the cache. *)
Definition cold_window (st : State) (fileId : string) (p : RenderParams)
    : Prop :=
  ∀ F0 F1 t,
    framesForWindow p = Some (F0, F1) ->
    t ∈ neededLoop F0 F1 ->
    melTileCache st !! tileKey fileId (startFrame t) (frames t) p = None.

(** The primitive keeps its contract on the rows it returns. *)
Definition primitive_rows_ok (p : RenderParams) : Prop :=
  ∀ samples melFrames,
    call_primitive mel_spectrogram_db p samples = Ok melFrames ->
    rows_ok (n_mels p) melFrames.

Lemma cold_missing st fileId p F0 F1 :
  framesForWindow p = Some (F0, F1) -> 0 <= F0 ->
  cold_window st fileId p ->
  analyzeTiles (melTileCache st) fileId F0 F1 p
  = (neededLoop F0 F1, [mkTile F0 (F1 - F0 + 1)]).
Proof.
  intros HF H0 Hcold.
  pose proof (framesForWindow_nonempty p F0 F1 HF) as Hle.
  rewrite (surjective_pairing (analyzeTiles _ _ _ _ _)).
  rewrite analyzeTiles_missing by done. f_equal.
  rewrite (map_ext_in _ (fun t => (t, false))).
  2:{ intros t Ht. f_equal. unfold has_key.
      rewrite (Hcold F0 F1 t HF); [done|]. by apply list_elem_of_In. }
  rewrite segments_all_missing.
  pose proof (neededLoop_tiling F0 F1 Hle) as Ht.
  pose proof (tiling_total _ _ _ Ht) as Htot. fold (total_frames (neededLoop F0 F1)) in Htot.
  rewrite Htot. by destruct Ht.
Qed.

(** A window none of whose tiles is cached is assembled from one call
    of the primitive over its whole frame range. *)
Lemma cold_assemble_reference
    (st : State) (fileId : string) (p : RenderParams) (entry : PcmEntry)
    (F0 F1 : Z) :
  framesForWindow p = Some (F0, F1) -> 0 <= F0 ->
  pcmStore st !! fileId = Some entry ->
  cold_window st fileId p ->
  (∀ melFrames,
     call_primitive mel_spectrogram_db p
       (paddedSlice entry (mkTile F0 (F1 - F0 + 1)) p) = Ok melFrames ->
     rows_ok (n_mels p) melFrames) ->
  fst (assembleWindowMel mel_spectrogram_db fileId p st)
  = referenceWindowMel fileId p st.
Proof.
  intros HF H0 Hl Hcold Hrows.
  pose proof (framesForWindow_nonempty p F0 F1 HF) as Hle.
  unfold assembleWindowMel, referenceWindowMel. rewrite HF, Hl.
  rewrite (cold_missing st fileId p F0 F1 HF) by (lia || done).
  cbn [computeSegments]. cbv zeta.
  set (seg := mkTile F0 (F1 - F0 + 1)).
  change (slice (pcm entry) _ _) with (paddedSlice entry seg p).
  destruct (call_primitive mel_spectrogram_db p (paddedSlice entry seg p))
    as [melFrames|e] eqn:Hprim.
  - pose proof (Hrows _ Hprim) as Hok.
    rewrite (computeSegment_ok _ fileId seg p st entry melFrames Hl Hprim Hok).
    cbn [melTileCache set_melTileCache startFrame frames seg].
    replace (F0 + (F1 - F0 + 1) - 1) with F1 by lia.
    change (slice melFrames _ _) with (usableFrames melFrames seg p).
    set (usable := usableFrames melFrames seg p).
    pose proof (neededLoop_tiling F0 F1 Hle) as Htil.
    rewrite (map_ext_in _ (fun t => Some (tileValue usable F0 t))).
    2:{ intros t Ht. eapply lookup_putTiles.
        - by eapply tiling_consecutive.
        - by apply list_elem_of_In. }
    rewrite <- (map_map (tileValue usable F0) Some).
    rewrite (concatTiles_Some (map (tileValue usable F0) (neededLoop F0 F1))).
    rewrite (concat_tileValues usable F0 F0 F1 _ Htil) by lia.
    rewrite Z.sub_diag. cbn [Z.to_nat drop].
    rewrite take_ge.
    2:{ unfold usable, usableFrames. cbn [frames seg].
        etrans; [apply slice_length_le; lia|]. lia. }
    rewrite flattenMel_rows; [done|].
    by apply slice_Forall.
  - by rewrite (computeSegment_throw _ fileId seg p st entry e Hl Hprim).
Qed.

Lemma concat_rows_length (n : Z) (rows : list (list num)) :
  rows_ok n rows ->
  Z.of_nat (length (concat rows)) = Z.of_nat (length rows) * n.
Proof.
  induction 1 as [|row rows Hrow _ IH]; [done|].
  cbn [concat]. rewrite length_app. simpl length. lia.
Qed.

Lemma slice_length_inside {A} (a : list A) (b e : Z) :
  0 <= b -> b <= e -> e <= Z.of_nat (length a) ->
  Z.of_nat (length (slice a b e)) = e - b.
Proof.
  intros Hb He Hlen. rewrite slice_nonneg by done.
  rewrite length_take, length_drop. lia.
Qed.

Lemma tiling_inside c F1 l t :
  tiling c F1 l -> t ∈ l ->
  c <= startFrame t ∧ 0 < frames t ∧ startFrame t + frames t - 1 <= F1.
Proof.
  induction 1 as [c F1 H1 H2|c F1 rest H1 _ IH]; intros Hin.
  - apply list_elem_of_singleton in Hin as ->. simpl. lia.
  - apply elem_of_cons in Hin as [->|Hin]; simpl.
    + unfold TILE_FRAMES in *. lia.
    + specialize (IH Hin). unfold TILE_FRAMES in *. lia.
Qed.

(** When the primitive returns all the frames asked of it (the padding
    frames and the frames of the window), the assembled buffer holds
    totalFrames x n_mels values and every tile of the window is stored
    with frameCount x n_mels values. *)
Lemma cold_window_sizes (st : State) (fileId : string) (p : RenderParams)
    (entry : PcmEntry) (F0 F1 : Z) (melFrames : list (list num)) :
  valid_window p ->
  framesForWindow p = Some (F0, F1) ->
  pcmStore st !! fileId = Some entry ->
  cold_window st fileId p ->
  call_primitive mel_spectrogram_db p
    (paddedSlice entry (mkTile F0 (F1 - F0 + 1)) p) = Ok melFrames ->
  rows_ok (n_mels p) melFrames ->
  0 <= n_fft p ->
  n_fft p / hop_length p + (F1 - F0 + 1) <= Z.of_nat (length melFrames) ->
  let r := assembleWindowMel mel_spectrogram_db fileId p st in
  (∃ mel, fst r = Ok (mel, F1 - F0 + 1)
          ∧ Z.of_nat (length mel) = (F1 - F0 + 1) * n_mels p)
  ∧ ∀ t, t ∈ neededLoop F0 F1 ->
      ∃ tile,
        melTileCache (snd r) !! tileKey fileId (startFrame t) (frames t) p
        = Some tile
        ∧ Z.of_nat (length tile) = frames t * n_mels p.
Proof.
  intros Hv HF Hl Hcold Hprim Hrows Hpad Hlen r.
  destruct (valid_window_frames p Hv) as (F0' & F1' & HF' & H0 & Hle).
  rewrite HF in HF'. injection HF' as <- <-.
  destruct Hv as (_ & Hhop & _).
  assert (0 <= n_fft p / hop_length p) as Hfpp by (apply Z.div_pos; lia).
  set (seg := mkTile F0 (F1 - F0 + 1)) in *.
  set (usable := usableFrames melFrames seg p).
  assert (rows_ok (n_mels p) usable) as Hus by (by apply slice_Forall).
  assert (Z.of_nat (length usable) = F1 - F0 + 1) as Huslen.
  { unfold usable, usableFrames. cbn [frames seg].
    rewrite slice_length_inside; lia. }
  pose proof (neededLoop_tiling F0 F1 Hle) as Htil.
  unfold r, assembleWindowMel. rewrite HF.
  rewrite (cold_missing st fileId p F0 F1 HF) by (lia || done).
  cbn [computeSegments]. fold seg.
  rewrite (computeSegment_ok _ fileId seg p st entry melFrames Hl Hprim Hrows).
  cbn [melTileCache set_melTileCache startFrame frames seg].
  replace (F0 + (F1 - F0 + 1) - 1) with F1 by lia. fold seg usable.
  rewrite (map_ext_in _ (fun t => Some (tileValue usable F0 t))).
  2:{ intros t Ht. eapply lookup_putTiles.
      - by eapply tiling_consecutive.
      - by apply list_elem_of_In. }
  rewrite <- (map_map (tileValue usable F0) Some).
  rewrite (concatTiles_Some (map (tileValue usable F0) (neededLoop F0 F1))).
  cbn [fst snd melTileCache set_melTileCache]. split.
  - eexists. split; [reflexivity|].
    rewrite (concat_tileValues usable F0 F0 F1 _ Htil) by lia.
    rewrite Z.sub_diag. change (Z.to_nat 0) with 0%nat. rewrite drop_0.
    rewrite take_ge by lia.
    rewrite (concat_rows_length _ _ Hus). lia.
  - intros t Ht. exists (tileValue usable F0 t). split.
    + eapply lookup_putTiles; [by eapply tiling_consecutive|done].
    + destruct (tiling_inside _ _ _ _ Htil Ht) as (H1 & H2 & H3).
      unfold tileValue.
      rewrite (concat_rows_length (n_mels p)) by (by apply slice_Forall).
      rewrite slice_length_inside; lia.
Qed.

End ColdWindow.

(** ** Display mapper: range of the intensity and of the color index *)

Lemma Qltb_true (a b : Q) : Qltb a b = true -> (a < b)%Q.
Proof. unfold Qltb. by destruct (Qlt_le_dec a b). Qed.

Lemma Qltb_false (a b : Q) : Qltb a b = false -> (b <= a)%Q.
Proof. unfold Qltb. by destruct (Qlt_le_dec a b). Qed.

(** A number in the unit interval, or [NaN]. *)
Definition unit_or_NaN (x : num) : Prop :=
  match x with
  | Fin q => (0 <= q <= 1)%Q
  | NaN => True
  | _ => False
  end.

Definition in_unit (x : num) : Prop :=
  match x with
  | Fin q => (0 <= q <= 1)%Q
  | _ => False
  end.

(** The clamp [Math.max(0, Math.min(1, x))]. *)
Definition clamp01 (x : num) : num := Math_max zero (Math_min one x).

Ltac qltb_cases :=
  repeat match goal with
         | |- context [Qltb ?a ?b] =>
             let H := fresh "Hlt" in
             destruct (Qltb a b) eqn:H;
             [apply Qltb_true in H | apply Qltb_false in H]; simpl
         end.

Lemma clamp01_range (x : num) : unit_or_NaN (clamp01 x).
Proof.
  unfold clamp01, Math_max, Math_min, zero, one.
  destruct x as [q| | |]; simpl; qltb_cases; simpl; try done; split; lra.
Qed.

Lemma clamp01_not_NaN (x : num) : x <> NaN -> in_unit (clamp01 x).
Proof.
  intros Hx. pose proof (clamp01_range x) as H.
  destruct (clamp01 x) eqn:Hc; try done.
  destruct x as [q| | |]; [| | |done];
    unfold clamp01, Math_max, Math_min, zero, one in Hc; simpl in Hc;
    repeat (destruct (Qltb _ _); simpl in Hc); done.
Qed.

Lemma clamp01_fin (q : Q) :
  clamp01 (Fin q) = Fin (if Qltb q 1 then if Qltb 0 q then q else 0 else 1).
Proof.
  unfold clamp01, Math_max, Math_min, zero, one. simpl.
  destruct (Qltb q 1); simpl; [by destruct (Qltb 0 q)|done].
Qed.

Lemma wrap32_small (z : Z) : - 2 ^ 31 <= z < 2 ^ 31 -> wrap32 z = z.
Proof. intros H. unfold wrap32. rewrite Z.mod_small; lia. Qed.

Lemma Qtrunc_nonneg (q : Q) : (0 <= q)%Q -> Qtrunc q = Qfloor q.
Proof.
  destruct q as [n d]. unfold Qle, Qtrunc, Qfloor; simpl. intros H.
  apply Z.quot_div_nonneg; lia.
Qed.

(** The index of an intensity: [floor (255 * x)] on the unit interval, 0
    at [NaN]. *)
Lemma to_int32_unit (x : num) :
  unit_or_NaN x ->
  to_int32 (mul x (Fin 255))
  = match x with Fin q => Qfloor (q * 255) | _ => 0 end
  ∧ 0 <= to_int32 (mul x (Fin 255)) <= 255.
Proof.
  destruct x as [q| | |]; try done.
  intros [H0 H1]. cbn [mul to_int32].
  assert (0 <= Qfloor (q * 255) <= 255) as Hb.
  { split.
    - apply Z.le_trans with (Qfloor 0); [done|].
      apply Qfloor_resp_le. lra.
    - apply Z.le_trans with (Qfloor 255); [|done].
      apply Qfloor_resp_le. lra. }
  rewrite Qtrunc_nonneg by lra. rewrite wrap32_small by lia. done.
Qed.

Lemma viridisLUT_length : length viridisLUT = 1024%nat.
Proof. reflexivity. Qed.

Lemma viridisLUT_alpha (i : nat) :
  (i < 256)%nat -> viridisLUT !! (i * 4 + 3)%nat = Some 255.
Proof.
  intros H. do 256 (destruct i as [|i]; [reflexivity|]). lia.
Qed.

(** ** Rasterizer: every pixel of the canvas is written once *)

Lemma for_down_inv {S : Type} (P : nat -> S -> Prop) (n : nat)
    (body : nat -> S -> S) (s : S) :
  P n s ->
  (∀ k s, (k < n)%nat -> P (Datatypes.S k) s -> P k (body k s)) ->
  P 0%nat (for_down n body s).
Proof.
  revert s. induction n as [|n IH]; intros s Hs Hstep; [done|].
  cbn [for_down]. apply IH.
  - apply Hstep; [lia|done].
  - intros k s' Hk. apply Hstep. lia.
Qed.

Section Raster.

Variable Math_pow : num -> num -> num.
Variables (smin smax gamma : num) (p : RenderParams) (mel : list num).
Variables (W H : nat).

Let width : Z := Z.of_nat W.
Let height : Z := Z.of_nat H.

(** Byte offset of the pixel written for column [i] and mel bin [j]. *)
Definition pixelOffset (j i : nat) : nat := (((H - 1 - j) * W + i) * 4)%nat.

(** The four bytes the loop body writes for column [i] and bin [j]. *)
Definition pixelBytes (j i : nat) : list Z :=
  let num :=
    colorIndex Math_pow smin smax gamma p
      (arr_get mel (Z.of_nat i * height + Z.of_nat j)) in
  [lut_get (num * 4 + 0); lut_get (num * 4 + 1); lut_get (num * 4 + 2); 255].

Definition pixel_ok (data : list Z) (j i : nat) : Prop :=
  ∀ c : nat, (c < 4)%nat ->
    data !! (pixelOffset j i + c)%nat = pixelBytes j i !! c.

Lemma pixelOffset_Z (j i : nat) :
  (j < H)%nat ->
  Z.to_nat (((height - 1 - Z.of_nat j) * width + Z.of_nat i) * 4)
  = pixelOffset j i.
Proof. intros Hj. unfold pixelOffset, width, height. nia. Qed.

Lemma pixelOffset_bound (j i : nat) :
  (j < H)%nat -> (i < W)%nat -> (pixelOffset j i + 3 < W * H * 4)%nat.
Proof. intros Hj Hi. unfold pixelOffset. nia. Qed.

Lemma pixelOffset_apart (j i j' i' : nat) :
  (j < H)%nat -> (i < W)%nat -> (j' < H)%nat -> (i' < W)%nat ->
  (j, i) ≠ (j', i') ->
  (pixelOffset j i + 4 <= pixelOffset j' i'
   ∨ pixelOffset j' i' + 4 <= pixelOffset j i)%nat.
Proof.
  intros Hj Hi Hj' Hi' Hne. unfold pixelOffset.
  destruct (decide (j = j')) as [->|Hjj].
  - assert (i ≠ i') by congruence. lia.
  - destruct (decide (j < j')%nat); [right|left]; nia.
Qed.

Lemma writePixel_spec (data : list Z) (j i : nat) :
  (j < H)%nat -> (i < W)%nat -> length data = (W * H * 4)%nat ->
  let data' :=
    writePixel Math_pow smin smax gamma p mel width height j i data in
  length data' = (W * H * 4)%nat
  ∧ pixel_ok data' j i
  ∧ (∀ k, (k < pixelOffset j i ∨ pixelOffset j i + 4 <= k)%nat ->
       data' !! k = data !! k).
Proof.
  intros Hj Hi Hlen. unfold writePixel. rewrite pixelOffset_Z by done.
  pose proof (pixelOffset_bound j i Hj Hi) as Hb.
  set (o := pixelOffset j i) in *. cbv zeta.
  split; [by rewrite !length_insert|]. split.
  - intros c Hc. unfold pixelBytes. fold o.
    destruct c as [|[|[|[|c]]]]; [..|lia]; cbn [lookup list_lookup].
    + rewrite !list_lookup_insert_ne by lia.
      rewrite Nat.add_0_r, <- (Nat.add_0_r o) at 1.
      rewrite list_lookup_insert_eq; [done|lia].
    + rewrite !list_lookup_insert_ne by lia.
      rewrite list_lookup_insert_eq; [done|rewrite !length_insert; lia].
    + rewrite !list_lookup_insert_ne by lia.
      rewrite list_lookup_insert_eq; [done|rewrite !length_insert; lia].
    + rewrite list_lookup_insert_eq; [done|rewrite !length_insert; lia].
  - intros k Hk. by rewrite !list_lookup_insert_ne by lia.
Qed.

(** The canvas after the two loops: its size, and the bytes of every
    pixel. *)
Lemma rasterize_spec :
  let data := rasterize Math_pow smin smax gamma p mel width height in
  length data = (W * H * 4)%nat
  ∧ ∀ j i, (j < H)%nat -> (i < W)%nat -> pixel_ok data j i.
Proof.
  cbv zeta. unfold rasterize.
  replace (Z.to_nat height) with H by (unfold height; lia).
  replace (Z.to_nat width) with W by (unfold width; lia).
  set (row_done (j : nat) (data : list Z) :=
         length data = (W * H * 4)%nat
         ∧ ∀ j' i, (j <= j' < H)%nat -> (i < W)%nat -> pixel_ok data j' i).
  match goal with
  | |- length ?d = _ ∧ _ =>
      enough (row_done 0%nat d) as [Hl Hp];
        [split; [done|]; intros j i Hj Hi; apply Hp; lia|]
  end.
  apply (for_down_inv row_done).
  - split; [rewrite length_replicate; unfold width, height; lia|].
    intros j' i Hj'. lia.
  - intros j data Hj [Hlen Hrows].
    set (col_done (i : nat) (data : list Z) :=
           length data = (W * H * 4)%nat
           ∧ (∀ j' i', (Datatypes.S j <= j' < H)%nat -> (i' < W)%nat ->
                pixel_ok data j' i')
           ∧ ∀ i', (i <= i' < W)%nat -> pixel_ok data j i').
    assert (col_done 0%nat
              (for_down W
                 (fun i data =>
                    writePixel Math_pow smin smax gamma p mel width height
                      j i data) data)) as (Hl & Hup & Hrow).
    { apply (for_down_inv col_done).
      - split; [done|]. split; [done|]. intros i' Hi'. lia.
      - intros i d Hi (Hl & Hup & Hrow).
        destruct (writePixel_spec d j i Hj Hi Hl) as (Hl' & Hok & Hkeep).
        split; [done|]. split.
        + intros j' i' Hj' Hi' c Hc. rewrite Hkeep; [by apply Hup|].
          destruct (pixelOffset_apart j i j' i') as [?|?]; try lia.
          intros [= -> ->]. lia.
        + intros i' Hi'. destruct (decide (i' = i)) as [->|Hne]; [done|].
          intros c Hc. rewrite Hkeep; [apply Hrow; lia|].
          destruct (pixelOffset_apart j i j i') as [?|?]; try lia.
          intros [= ->]. lia. }
    split; [done|]. intros j' i Hj' Hi.
    destruct (decide (j' = j)) as [->|Hne].
    + apply Hrow. lia.
    + apply Hup; lia.
Qed.

Lemma rasterize_alpha (j i : nat) :
  (j < H)%nat -> (i < W)%nat ->
  rasterize Math_pow smin smax gamma p mel width height
    !! (pixelOffset j i + 3)%nat = Some 255.
Proof.
  intros Hj Hi. destruct rasterize_spec as [_ Hpix].
  by rewrite (Hpix j i Hj Hi 3%nat) by lia.
Qed.

End Raster.

(** ** Display mapper: the index formula *)

(** [Math.pow] at exponent 1, where it returns its base. *)
Definition pow_gamma_one (x gamma : num) : num := x.

Definition display_params (gammaValue brightness contrast : num)
    : RenderParams :=
  mkParams 32000 2048 1024 256 10 8000 64 80 0 8
           false false gammaValue (Fin 98) brightness contrast "viridis".

Section DisplayFacts.

Variable Math_pow : num -> num -> num.

(** C6 (as amended). For every spectral value [v]:
    norm = clamp((v - smin) / (smax - smin), 0, 1), with 0 in place of a
    quotient that is not finite; g = norm ^ gamma;
    adjusted = clamp((g - 0.5) * contrast + 0.5 + brightness, 0, 1);
    and the index is adjusted * 255 rounded down (0 when adjusted is
    NaN), not rounded to the nearest integer. *)
Theorem color_index_formula (smin smax gamma : num) (p : RenderParams)
    (v : num) :
  let ratio := div (sub v smin) (sub smax smin) in
  let norm := clamp01 (if isFinite ratio then ratio else zero) in
  let g := Math_pow norm gamma in
  let adjusted :=
    clamp01 (add (add (mul (sub g (Fin (1 # 2))) (contrast p)) (Fin (1 # 2)))
               (brightness p)) in
  normalizedValue smin smax v = norm
  ∧ clampedValue Math_pow smin smax gamma p v = adjusted
  ∧ colorIndex Math_pow smin smax gamma p v
    = match adjusted with Fin q => Qfloor (q * 255) | _ => 0 end.
Proof.
  intros ratio norm g adjusted.
  assert (normalizedValue smin smax v = norm) as Hn.
  { unfold normalizedValue, norm, clamp01. fold ratio.
    by destruct (isFinite ratio). }
  assert (clampedValue Math_pow smin smax gamma p v = adjusted) as Hc.
  { unfold clampedValue, adjustedValue. by rewrite Hn. }
  split; [done|]. split; [done|].
  unfold colorIndex. rewrite Hc.
  apply to_int32_unit, clamp01_range.
Qed.

(** C9 (as amended). For all inputs the display intensity lies in [0,1]
    or is NaN, and it is NaN only when the adjusted value is; the color
    index lies in [0,255], so that every read of the 1024-byte colormap
    table is in bounds; and every pixel of the canvas gets alpha 255. *)
Theorem display_index_in_range (smin smax gamma : num) (p : RenderParams)
    (v : num) (mel : list num) (W H : nat) :
  let x := clampedValue Math_pow smin smax gamma p v in
  let idx := colorIndex Math_pow smin smax gamma p v in
  unit_or_NaN x
  ∧ (adjustedValue Math_pow smin smax gamma p v <> NaN -> in_unit x)
  ∧ 0 <= idx <= 255
  ∧ (∀ c, 0 <= c <= 3 ->
       0 <= idx * 4 + c ∧ (Z.to_nat (idx * 4 + c) < length viridisLUT)%nat)
  ∧ (∀ j i, (j < H)%nat -> (i < W)%nat ->
       rasterize Math_pow smin smax gamma p mel (Z.of_nat W) (Z.of_nat H)
         !! (pixelOffset W H j i + 3)%nat = Some 255).
Proof.
  intros x idx.
  assert (unit_or_NaN x) as Hx by apply clamp01_range.
  assert (0 <= idx <= 255) as Hidx by (by apply to_int32_unit).
  split; [done|]. split; [apply clamp01_not_NaN|]. split; [done|]. split.
  - intros c Hc. rewrite viridisLUT_length. lia.
  - intros j i Hj Hi. by apply rasterize_alpha.
Qed.

End DisplayFacts.

(** With gamma 1, contrast 1 and brightness 0 the value halfway between
    the bounds has intensity 0.5 (the fraction 4/8): the index is 127,
    while 0.5 * 255 = 127.5 rounds to 128.  And the value +Infinity is
    normalized to 0, where the clamp of its quotient is 1. *)
Lemma color_index_not_rounded :
  let p := display_params (Fin 1) (Fin 0) (Fin 1) in
  clampedValue pow_gamma_one (Fin 0) (Fin 1) (Fin 1) p (Fin (1 # 2))
    = Fin (4 # 8)
  ∧ colorIndex pow_gamma_one (Fin 0) (Fin 1) (Fin 1) p (Fin (1 # 2)) = 127
  ∧ Math_round ((4 # 8) * 255) = 128
  ∧ normalizedValue (Fin 0) (Fin 1) PInf = Fin 0
  ∧ clamp01 (div (sub PInf (Fin 0)) (sub (Fin 1) (Fin 0))) = Fin 1.
Proof. vm_compute. done. Qed.

(** A brightness that is NaN makes the intensity NaN, outside [0,1]. *)
Lemma intensity_NaN_brightness :
  let p := display_params (Fin 1) NaN (Fin 1) in
  clampedValue pow_gamma_one (Fin 0) (Fin 1) (Fin 1) p (Fin (1 # 2)) = NaN
  ∧ ¬ in_unit
        (clampedValue pow_gamma_one (Fin 0) (Fin 1) (Fin 1) p (Fin (1 # 2))).
Proof. vm_compute. split; [done|]. intros []. Qed.

(** ** The worker: frame conditions, cache ownership, replies *)

Lemma scan_all_cached (flag : Tile -> bool) (l : list Tile) :
  (∀ t, t ∈ l -> flag t = true) ->
  foldl (fun s t => scanTile (flag t) t s) (mkScan [] (-1) (-1)) l
  = mkScan [] (-1) (-1).
Proof.
  induction l as [|t l IH]; intros Hall; [done|]. cbn [foldl].
  rewrite (Hall t) by (by left). unfold scanTile at 2. simpl.
  apply IH. intros u Hu. apply Hall. by right.
Qed.

(** Every tile needed by the window is in the cache. *)
Definition warm_window (cache : gmap string (list num)) (fileId : string)
    (p : RenderParams) : Prop :=
  ∀ F0 F1 t,
    framesForWindow p = Some (F0, F1) ->
    t ∈ neededLoop F0 F1 ->
    is_Some (cache !! tileKey fileId (startFrame t) (frames t) p).

Lemma warm_missing cache fileId p F0 F1 :
  framesForWindow p = Some (F0, F1) ->
  warm_window cache fileId p ->
  analyzeTiles cache fileId F0 F1 p = (neededLoop F0 F1, []).
Proof.
  intros HF Hwarm. unfold analyzeTiles. cbv zeta. f_equal.
  rewrite scan_all_cached; [done|].
  intros t Ht. unfold has_key.
  by destruct (Hwarm F0 F1 t HF Ht) as [v ->].
Qed.

Section WorkerFacts.

Variable Math_pow : num -> num -> num.
Variable mel_spectrogram_db :
  Z -> list num -> Z -> Z -> Z -> Q -> Q -> Z -> Z ->
  result (list (list num)).

Abbreviation assemble := (assembleWindowMel mel_spectrogram_db).
Abbreviation render' := (render Math_pow mel_spectrogram_db).
Abbreviation onmessage' := (onmessage Math_pow mel_spectrogram_db).

(** The buffer assembled for a window whose tiles are all cached. *)
Definition cachedWindowMel (cache : gmap string (list num))
    (fileId : string) (p : RenderParams) : result (list num * Z) :=
  match framesForWindow p with
  | None => Throw NonFiniteFrames
  | Some (F0, F1) =>
      match concatTiles
              (map (fun t : Tile =>
                      cache !! tileKey fileId (startFrame t) (frames t) p)
                   (neededLoop F0 F1)) with
      | Throw e => Throw e
      | Ok mel => Ok (mel, F1 - F0 + 1)
      end
  end.

Lemma assemble_warm st fileId p :
  warm_window (melTileCache st) fileId p ->
  assemble fileId p st = (cachedWindowMel (melTileCache st) fileId p, st).
Proof.
  intros Hwarm. unfold assembleWindowMel, cachedWindowMel.
  destruct (framesForWindow p) as [[F0 F1]|] eqn:HF; [|done].
  rewrite (warm_missing _ fileId p F0 F1 HF Hwarm). cbn [computeSegments].
  by destruct (concatTiles _).
Qed.

(** The reply of a render, from the result of the assembler. *)
Definition replyOf (p : RenderParams) (r : result (list num * Z)) : Reply :=
  match r with
  | Throw e => ErrorReply e
  | Ok (mel, frames) =>
      if frames <=? 0 then ImageReply placeholder
      else
        match displayImage Math_pow p mel frames with
        | Throw e => ErrorReply e
        | Ok img => ImageReply img
        end
  end.

Lemma render_reply fileId p st :
  render' fileId p st
  = (replyOf p (fst (assemble fileId p (ensureWasmInitialized st))),
     snd (assemble fileId p (ensureWasmInitialized st))).
Proof.
  unfold render, replyOf.
  destruct (assemble fileId p (ensureWasmInitialized st))
    as [[[mel frames]|e] st']; [|done]. simpl.
  destruct (frames <=? 0); [done|]. by destruct (displayImage _ _ _ _).
Qed.

Lemma ensureWasm_frame st :
  pcmStore (ensureWasmInitialized st) = pcmStore st
  ∧ melTileCache (ensureWasmInitialized st) = melTileCache st
  ∧ primCalls (ensureWasmInitialized st) = primCalls st.
Proof. unfold ensureWasmInitialized. by destruct (wasmReady st). Qed.

Lemma lookups_Some {A} (f : Tile -> option A) (l : list Tile)
    (vals : list A) :
  Forall2 (fun t v => f t = Some v) l vals -> map f l = map Some vals.
Proof.
  induction 1 as [|t v l vals Ht _ IH]; [done|]. simpl. by rewrite Ht, IH.
Qed.

(** C10. A [set_pcm] message posts no reply and changes only the
    sample-store entry of its file: the tile cache, the other entries and
    the trace of the primitive are as before.  Hence a render (with a
    hop length that is not 0) whose needed tiles are all cached is
    answered, after the message, from the values these tiles had before
    it, one after the other: it gets the reply it got before and the
    primitive is not invoked. *)
Theorem set_pcm_keeps_cache (st : State) (fileId : string) (sampleRate : Z)
    (samples : list num) :
  let st' := snd (onmessage' (SetPcmMsg fileId sampleRate samples) st) in
  fst (onmessage' (SetPcmMsg fileId sampleRate samples) st) = []
  ∧ melTileCache st' = melTileCache st
  ∧ pcmStore st' !! fileId = Some (mkPcm sampleRate samples)
  ∧ (∀ other, other ≠ fileId -> pcmStore st' !! other = pcmStore st !! other)
  ∧ primCalls st' = primCalls st
  ∧ (∀ f p F0 F1 tiles,
       framesForWindow p = Some (F0, F1) ->
       Forall2
         (fun t tile =>
            melTileCache st !! tileKey f (startFrame t) (frames t) p
            = Some tile)
         (neededLoop F0 F1) tiles ->
       assemble f p st' = (Ok (concat tiles, F1 - F0 + 1), st')
       ∧ fst (render' f p st') = fst (render' f p st)
       ∧ primCalls (snd (render' f p st')) = primCalls st).
Proof.
  intros st'. simpl in st'.
  split; [done|]. split; [done|]. split; [apply lookup_insert_eq|].
  split; [intros other Hne; by apply lookup_insert_ne|]. split; [done|].
  intros f p F0 F1 tiles HF Htiles.
  assert (warm_window (melTileCache st) f p) as Hwarm.
  { intros G0 G1 t HG Ht. rewrite HF in HG. injection HG as <- <-.
    apply list_elem_of_In in Ht. revert Ht. clear -Htiles.
    induction Htiles as [|u v l vals Hu _ IH]; intros Ht; [done|].
    destruct Ht as [<-|Ht]; [by rewrite Hu|by apply IH]. }
  assert (cachedWindowMel (melTileCache st) f p
          = Ok (concat tiles, F1 - F0 + 1)) as Hcached.
  { unfold cachedWindowMel. rewrite HF.
    rewrite (lookups_Some _ _ tiles Htiles).
    by rewrite concatTiles_Some. }
  assert (∀ s, melTileCache s = melTileCache st ->
               assemble f p s = (Ok (concat tiles, F1 - F0 + 1), s))
    as Has.
  { intros s Hs. rewrite <- Hcached, <- Hs. apply assemble_warm.
    by rewrite Hs. }
  split; [by rewrite Has|].
  rewrite !render_reply.
  destruct (ensureWasm_frame st) as (_ & Hc & Hp).
  destruct (ensureWasm_frame st') as (_ & Hc' & Hp').
  rewrite !Has by (by rewrite ?Hc, ?Hc').
  split; [done|]. simpl. by rewrite Hp'.
Qed.

End WorkerFacts.

(** ** Cached tiles belong to files whose PCM is loaded *)

Definition cache_owned (st : State) : Prop :=
  ∀ key,
    is_Some (melTileCache st !! key) ->
    ∃ fileId s n p,
      key = tileKey fileId s n p ∧ is_Some (pcmStore st !! fileId).

Lemma storeTiles_keys fileId seg p usable :
  ∀ cursor cache key,
    is_Some (snd (storeTiles fileId seg p usable cursor cache) !! key) ->
    is_Some (cache !! key) ∨ ∃ s n, key = tileKey fileId s n p.
Proof.
  intros cursor.
  remember (Z.to_nat (frames seg - cursor)) as n eqn:Hn.
  revert cursor Hn. induction (lt_wf n) as [n _ IH]. intros cursor -> cache key.
  rewrite storeTiles_eq.
  destruct (Z_lt_ge_dec cursor (frames seg)) as [Hlt|Hge]; [|by left].
  cbv zeta. destruct (flattenMel _ _) as [flat|e]; [|by left].
  intros Hk.
  eapply IH in Hk; [| |reflexivity]; [|unfold TILE_FRAMES; lia].
  destruct Hk as [Hk|Hk]; [|by right].
  destruct (decide (tileKey fileId (startFrame seg + cursor)
                      (Z.min TILE_FRAMES (frames seg - cursor)) p = key))
    as [<-|Hne].
  - right. eauto.
  - left. by rewrite lookup_insert_ne in Hk.
Qed.

Section Ownership.

Variable Math_pow : num -> num -> num.
Variable mel_spectrogram_db :
  Z -> list num -> Z -> Z -> Z -> Q -> Q -> Z -> Z ->
  result (list (list num)).

Lemma computeSegment_owned fileId seg p st :
  cache_owned st ->
  cache_owned
    (snd (computeSegmentAndPopulateTiles mel_spectrogram_db fileId seg p st)).
Proof.
  intros Hown. rewrite computeSegment_eq. cbv zeta.
  destruct (pcmStore st !! fileId) as [entry|] eqn:Hl; [|done].
  destruct (call_primitive _ _ _) as [melFrames|e]; [|done]. cbv zeta.
  destruct (storeTiles _ _ _ _ _ _) as [r cache] eqn:Hst.
  intros key Hk. cbn [snd melTileCache set_melTileCache pcmStore log_call] in *.
  pose proof (storeTiles_keys fileId seg p
                (slice melFrames (n_fft p / hop_length p)
                   (n_fft p / hop_length p + frames seg))
                0 (melTileCache st) key) as Hkeys.
  cbn [log_call melTileCache] in Hst. rewrite Hst in Hkeys.
  destruct (Hkeys Hk) as [Hold|(s & n & ->)].
  - by apply Hown.
  - exists fileId, s, n, p. by rewrite Hl.
Qed.

Lemma computeSegments_owned fileId missing p :
  ∀ st,
    cache_owned st ->
    cache_owned (snd (computeSegments mel_spectrogram_db fileId missing p st)).
Proof.
  induction missing as [|seg rest IH]; intros st Hown; [done|].
  cbn [computeSegments].
  pose proof (computeSegment_owned fileId seg p st Hown) as H1.
  destruct (computeSegmentAndPopulateTiles _ _ _ _ _) as [[[]|e] st1];
    simpl in *; [by apply IH|done].
Qed.

Lemma assemble_owned fileId p st :
  cache_owned st ->
  cache_owned (snd (assembleWindowMel mel_spectrogram_db fileId p st)).
Proof.
  intros Hown. unfold assembleWindowMel.
  destruct (framesForWindow p) as [[F0 F1]|]; [|done].
  destruct (analyzeTiles _ _ _ _ _) as [needed missing].
  pose proof (computeSegments_owned fileId missing p st Hown) as H1.
  destruct (computeSegments _ _ _ _ _) as [[[]|e] st1]; simpl in *; [|done].
  by destruct (concatTiles _).
Qed.

Lemma onmessage_owned msg st :
  cache_owned st ->
  cache_owned (snd (onmessage Math_pow mel_spectrogram_db msg st)).
Proof.
  intros Hown. destruct msg as [|fileId sr samples|fileId p]; simpl.
  - unfold ensureWasmInitialized. by destruct (wasmReady st).
  - intros key Hk. destruct (Hown key Hk) as (f & s & n & q & -> & Hl).
    exists f, s, n, q. split; [done|]. simpl.
    destruct (decide (fileId = f)) as [->|Hne].
    + by rewrite lookup_insert_eq.
    + by rewrite lookup_insert_ne.
  - rewrite render_reply. simpl. apply assemble_owned.
    unfold ensureWasmInitialized. by destruct (wasmReady st).
Qed.

(** The states the worker can be in: the initial one, and the one left
    by a message in such a state. *)
Inductive reachable : State -> Prop :=
| reachable_init : reachable initialState
| reachable_step msg st :
    reachable st ->
    reachable (snd (onmessage Math_pow mel_spectrogram_db msg st)).

Lemma reachable_owned st : reachable st -> cache_owned st.
Proof.
  induction 1 as [|msg st _ IH].
  - intros key [v Hv]. cbn [initialState melTileCache] in Hv.
    by rewrite lookup_empty in Hv.
  - by apply onmessage_owned.
Qed.

Lemma reachable_run msgs st :
  reachable st ->
  reachable (snd (run Math_pow mel_spectrogram_db msgs st)).
Proof.
  revert st. induction msgs as [|m msgs IH]; intros st Hst; [done|].
  cbn [run].
  pose proof (reachable_step m st Hst) as H1.
  destruct (onmessage _ _ m st) as [out st1]. simpl in H1.
  specialize (IH st1 H1).
  by destruct (run _ _ msgs st1) as [outs st2].
Qed.

(** C8. In every state the worker can reach, a render of a valid window
    that names a file for which no PCM was delivered posts exactly one
    reply, the error 'PCM not loaded for fileId'; it posts no image,
    invokes no primitive and stores no tile. *)
Theorem render_without_pcm_fails (st : State) (fileId : string)
    (p : RenderParams) :
  reachable st ->
  valid_window p ->
  pcmStore st !! fileId = None ->
  onmessage Math_pow mel_spectrogram_db (RenderMsg fileId p) st
  = ([ErrorReply PcmNotLoaded], ensureWasmInitialized st).
Proof.
  intros Hreach Hv Hnone. cbn [onmessage]. rewrite render_reply.
  set (st0 := ensureWasmInitialized st).
  destruct (ensureWasm_frame st) as (Hp & Hc & _). fold st0 in Hp, Hc.
  assert (cold_window st0 fileId p) as Hcold.
  { intros F0 F1 t _ _. rewrite Hc.
    destruct (melTileCache st !! _) as [v|] eqn:Hk; [|done].
    destruct (reachable_owned st Hreach _ (mk_is_Some _ _ Hk))
      as (f & s & n & q & Hkey & [e He]).
    apply tileKey_inj in Hkey as (<- & _). congruence. }
  destruct (valid_window_frames p Hv) as (F0 & F1 & HF & H0 & Hle).
  unfold assembleWindowMel. rewrite HF.
  rewrite (cold_missing st0 fileId p F0 F1 HF) by (lia || done).
  cbn [computeSegments].
  rewrite computeSegment_not_loaded by (by rewrite Hp).
  done.
Qed.

End Ownership.

(** ** Exceptions of the steps after the primitive *)

Lemma array_set_throw out row off e :
  array_set out row off = Throw e -> e = RangeError.
Proof. unfold array_set. destruct (_ || _); [by intros [= <-]|done]. Qed.

Lemma flattenLoop_throw rows :
  ∀ t n_mels out e,
    flattenLoop rows t n_mels out = Throw e -> e = RangeError.
Proof.
  induction rows as [|row rows IH]; intros t n_mels out e; [done|].
  cbn [flattenLoop].
  destruct (array_set out row (t * n_mels)) as [out'|e'] eqn:Hset.
  - apply IH.
  - intros [= <-]. by eapply array_set_throw.
Qed.

Lemma flattenMel_throw melFrames n_mels e :
  flattenMel melFrames n_mels = Throw e -> e = RangeError.
Proof.
  unfold flattenMel. destruct (_ <? 0); [by intros [= <-]|].
  apply flattenLoop_throw.
Qed.

Lemma storeTiles_throw fileId seg p usable :
  ∀ cursor cache e,
    fst (storeTiles fileId seg p usable cursor cache) = Throw e ->
    e = RangeError.
Proof.
  intros cursor.
  remember (Z.to_nat (frames seg - cursor)) as n eqn:Hn.
  revert cursor Hn. induction (lt_wf n) as [n _ IH]. intros cursor -> cache e.
  rewrite storeTiles_eq.
  destruct (Z_lt_ge_dec cursor (frames seg)) as [Hlt|Hge]; [|done].
  cbv zeta. destruct (flattenMel _ _) as [flat|e'] eqn:Hflat.
  - eapply IH; [|reflexivity]. unfold TILE_FRAMES. lia.
  - intros [= <-]. by eapply flattenMel_throw.
Qed.

Lemma concatLoop_throw tiles :
  ∀ offset out e,
    concatLoop tiles offset out = Throw e ->
    e = TypeError ∨ e = RangeError.
Proof.
  induction tiles as [|[t|] tiles IH]; intros offset out e; cbn [concatLoop].
  - done.
  - destruct (array_set out t offset) as [out'|e'] eqn:Hset.
    + apply IH.
    + intros [= <-]. right. by eapply array_set_throw.
  - intros [= <-]. by left.
Qed.

Lemma totalLength_throw tiles :
  ∀ total e, totalLength tiles total = Throw e -> e = TypeError.
Proof.
  induction tiles as [|[t|] tiles IH]; intros total e; cbn [totalLength].
  - done.
  - apply IH.
  - by intros [= <-].
Qed.

Lemma concatTiles_throw tiles e :
  concatTiles tiles = Throw e -> e = TypeError ∨ e = RangeError.
Proof.
  unfold concatTiles.
  destruct (totalLength tiles 0) as [total|e'] eqn:Ht.
  - apply concatLoop_throw.
  - intros [= <-]. left. by eapply totalLength_throw.
Qed.

(** ** Replies of a render: never the placeholder *)

Section Replies.

Variable Math_pow : num -> num -> num.
Variable mel_spectrogram_db :
  Z -> list num -> Z -> Z -> Z -> Q -> Q -> Z -> Z ->
  result (list (list num)).

Lemma assemble_frames fileId p st mel frames :
  fst (assembleWindowMel mel_spectrogram_db fileId p st) = Ok (mel, frames) ->
  ∃ F0 F1,
    framesForWindow p = Some (F0, F1) ∧ frames = F1 - F0 + 1 ∧ 1 <= frames.
Proof.
  unfold assembleWindowMel.
  destruct (framesForWindow p) as [[F0 F1]|] eqn:HF; [|done].
  pose proof (framesForWindow_nonempty p F0 F1 HF) as Hle.
  destruct (analyzeTiles _ _ _ _ _) as [needed missing].
  destruct (computeSegments _ _ _ _ _) as [[[]|e] st1]; [|done].
  destruct (concatTiles _) as [mel'|e]; [|done].
  intros [= <- <-]. exists F0, F1. split; [done|]. split; [done|lia].
Qed.

Lemma displayImage_ok p mel frames img :
  displayImage Math_pow p mel frames = Ok img ->
  0 < frames ∧ 0 < n_mels p
  ∧ img_width img = frames ∧ img_height img = n_mels p
  ∧ ∃ smin smax gamma,
      img_data img = rasterize Math_pow smin smax gamma p mel frames (n_mels p).
Proof.
  unfold displayImage. destruct (gainBounds p mel) as [smin smax].
  destruct (Z.leb_spec frames 0), (Z.leb_spec (n_mels p) 0); try done.
  intros [= <-]. simpl. do 4 (split; [lia || done|]). eauto.
Qed.

(** The guard [!mel || frames <= 0] of the render branch never holds:
    a render replies with an error or with a canvas of
    totalFrames x n_mels opaque pixels, never with the 1x1 placeholder. *)
Lemma render_never_placeholder fileId p st :
  match fst (render Math_pow mel_spectrogram_db fileId p st) with
  | ErrorReply _ => True
  | ImageReply img =>
      img ≠ placeholder
      ∧ ∃ F0 F1,
          framesForWindow p = Some (F0, F1)
          ∧ img_width img = F1 - F0 + 1 ∧ img_height img = n_mels p
  end.
Proof.
  rewrite render_reply. cbn [fst]. unfold replyOf.
  destruct (fst (assembleWindowMel _ _ _ _)) as [[mel frames]|e] eqn:Has;
    [|done].
  destruct (assemble_frames _ _ _ _ _ Has) as (F0 & F1 & HF & -> & Hpos).
  destruct (Z.leb_spec (F1 - F0 + 1) 0); [lia|].
  destruct (displayImage _ _ _ _) as [img|e] eqn:Himg; [|done].
  destruct (displayImage_ok _ _ _ _ Himg)
    as (Hw & Hh & Hiw & Hih & smin & smax & gamma & Hdata).
  split; [|eauto].
  intros ->. simpl in Hiw, Hih, Hdata.
  pose proof (rasterize_alpha Math_pow smin smax gamma p mel 1 1 0 0) as Ha.
  change (Z.of_nat 1) with 1 in Ha.
  rewrite <- Hiw, <- Hih in Hdata. rewrite <- Hdata in Ha.
  specialize (Ha ltac:(lia) ltac:(lia)). done.
Qed.

Lemma displayImage_throw p mel frames e :
  displayImage Math_pow p mel frames = Throw e -> e = CanvasError.
Proof.
  unfold displayImage. destruct (gainBounds p mel) as [smin smax].
  destruct (_ || _); [by intros [= <-]|done].
Qed.

Lemma displayImage_positive p mel frames :
  0 < frames -> 0 < n_mels p ->
  ∃ img, displayImage Math_pow p mel frames = Ok img
         ∧ img_width img = frames ∧ img_height img = n_mels p.
Proof.
  intros Hf Hn. unfold displayImage. destruct (gainBounds p mel) as [smin smax].
  destruct (Z.leb_spec frames 0); [lia|].
  destruct (Z.leb_spec (n_mels p) 0); [lia|].
  cbn [orb]. by eexists.
Qed.

(** C7 (as amended). The worker checks no parameter itself.  A render
    over loaded PCM of a window none of whose tiles is cached invokes the
    primitive once, on the padded slice of the window, with [sampleRate],
    [n_fft], [win_length], [hop_length], [f_min], [f_max], [n_mels] and
    [top_db] exactly as the request has them, whatever their values
    (a non-positive [n_fft] or [n_mels], f_min >= f_max).  What the
    primitive answers decides the reply: its exception is the error
    reply, unchanged; rows of [n_mels] > 0 values each give an image of
    totalFrames x n_mels; and an error reply carries either the
    exception of the primitive or the [RangeError], [TypeError] or canvas
    error of a later step. *)
Theorem render_forwards_params fileId p st entry F0 F1 :
  framesForWindow p = Some (F0, F1) -> 0 <= F0 ->
  pcmStore st !! fileId = Some entry ->
  cold_window st fileId p ->
  let samples := paddedSlice entry (mkTile F0 (F1 - F0 + 1)) p in
  let answer :=
    mel_spectrogram_db (sampleRate p) samples (n_fft p) (win_length p)
      (hop_length p) (f_min p) (f_max p) (n_mels p) (top_db p) in
  let r := render Math_pow mel_spectrogram_db fileId p st in
  primCalls (snd r)
  = primCalls st
      ++ [mkCall (sampleRate p) samples (n_fft p) (win_length p)
            (hop_length p) (f_min p) (f_max p) (n_mels p) (top_db p) answer]
  ∧ (∀ e, answer = Throw e -> fst r = ErrorReply e)
  ∧ (∀ melFrames,
       answer = Ok melFrames -> rows_ok (n_mels p) melFrames ->
       0 < n_mels p ->
       ∃ img, fst r = ImageReply img
              ∧ img_width img = F1 - F0 + 1 ∧ img_height img = n_mels p)
  ∧ (∀ e, fst r = ErrorReply e ->
          answer = Throw e
          ∨ e = RangeError ∨ e = TypeError ∨ e = CanvasError).
Proof.
  intros HF H0 Hl Hcold samples answer r. unfold r. clear r.
  rewrite render_reply. cbn [fst snd].
  set (st0 := ensureWasmInitialized st).
  destruct (ensureWasm_frame st) as (Hp & Hc & Hcalls).
  fold st0 in Hp, Hc, Hcalls.
  assert (cold_window st0 fileId p) as Hcold0.
  { intros ? ? t ? ?. rewrite Hc. eauto. }
  assert (pcmStore st0 !! fileId = Some entry) as Hl0 by (by rewrite Hp).
  pose proof (framesForWindow_nonempty p F0 F1 HF) as Hle.
  set (seg := mkTile F0 (F1 - F0 + 1)) in *.
  assert (assembleWindowMel mel_spectrogram_db fileId p st0
          = match computeSegmentAndPopulateTiles mel_spectrogram_db fileId
                    seg p st0 with
            | (Throw e, st') => (Throw e, st')
            | (Ok _, st') =>
                match concatTiles
                        (map (fun t : Tile =>
                                melTileCache st'
                                  !! tileKey fileId (startFrame t)
                                       (frames t) p)
                             (neededLoop F0 F1)) with
                | Throw e => (Throw e, st')
                | Ok mel => (Ok (mel, F1 - F0 + 1), st')
                end
            end) as Has.
  { unfold assembleWindowMel. rewrite HF.
    rewrite (cold_missing st0 fileId p F0 F1 HF H0 Hcold0).
    cbn [computeSegments]. fold seg.
    by destruct (computeSegmentAndPopulateTiles _ _ _ _ _) as [[[]|e] st1]. }
  pose proof (computeSegment_calls mel_spectrogram_db fileId seg p st0 entry
                Hl0) as Hlog.
  rewrite Hcalls in Hlog.
  change (callOf mel_spectrogram_db p (paddedSlice entry seg p))
    with (mkCall (sampleRate p) samples (n_fft p) (win_length p)
            (hop_length p) (f_min p) (f_max p) (n_mels p) (top_db p) answer)
    in Hlog.
  split; [|split; [|split]].
  - rewrite Has.
    destruct (computeSegmentAndPopulateTiles _ _ _ _ _) as [[[]|e] st1];
      simpl in *; [|done].
    by destruct (concatTiles _).
  - intros e He. rewrite Has.
    by rewrite (computeSegment_throw mel_spectrogram_db fileId seg p st0
                  entry e Hl0 He).
  - intros melFrames Hans Hrows Hn.
    rewrite (cold_assemble_reference mel_spectrogram_db st0 fileId p entry
               F0 F1 HF H0 Hl0 Hcold0).
    2:{ intros rows Hrows'. fold seg samples in Hrows'.
        change (call_primitive mel_spectrogram_db p samples) with answer
          in Hrows'.
        rewrite Hans in Hrows'. by injection Hrows' as <-. }
    unfold referenceWindowMel. rewrite HF, Hl0. cbv zeta.
    replace (F0 + (F1 - F0 + 1)) with (F0 + frames seg) by done.
    change (slice (pcm entry) _ _) with samples.
    change (call_primitive mel_spectrogram_db p samples) with answer.
    rewrite Hans.
    rewrite flattenMel_rows by (by apply slice_Forall).
    cbn [replyOf].
    destruct (Z.leb_spec (F1 - F0 + 1) 0); [lia|].
    destruct (displayImage_positive p
                (concat (slice melFrames (n_fft p / hop_length p)
                           (n_fft p / hop_length p + (F1 - F0 + 1))))
                (F1 - F0 + 1)) as (img & -> & Hw & Hh); [lia|done|].
    by exists img.
  - intros e. rewrite Has, computeSegment_eq, Hl0. cbv zeta.
    change (slice (pcm entry) _ _) with samples.
    change (call_primitive mel_spectrogram_db p samples) with answer.
    destruct answer as [melFrames|e'] eqn:Hans.
    + pose proof (storeTiles_throw fileId seg p
                    (slice melFrames (n_fft p / hop_length p)
                       (n_fft p / hop_length p + frames seg))
                    0 (melTileCache
                         (log_call (callOf mel_spectrogram_db p samples)
                            st0))) as Hst.
      destruct (storeTiles _ _ _ _ _ _) as [[[]|e1] cache].
      * destruct (concatTiles _) as [mel|e2] eqn:Hcat; cbn [fst replyOf].
        -- destruct (F1 - F0 + 1 <=? 0); [done|].
           destruct (displayImage _ _ _ _) as [img|e3] eqn:Hd; [done|].
           intros [= <-]. right; right; right.
           by eapply displayImage_throw.
        -- intros [= <-].
           destruct (concatTiles_throw _ _ Hcat) as [->| ->]; auto.
      * cbn [fst replyOf]. intros [= <-]. right; left. by apply Hst.
    + cbn [fst replyOf]. intros [= <-]. by left.
Qed.

End Replies.

(** ** A stand-in for the spectral primitive *)

(** Frames of [n_fft] samples taken every [hop_length] samples, without
    centering: [1 + (len - n_fft) / hop] rows when the slice holds a
    frame, none otherwise.  Every row repeats the first sample of its
    frame [n_mels] times.  It checks none of its parameters. *)
Definition framing_primitive (sr : Z) (samples : list num)
    (n_fft win_length hop_length : Z) (f_min f_max : Q)
    (n_mels top_db : Z) : result (list (list num)) :=
  let len := Z.of_nat (length samples) in
  if (hop_length <=? 0) || (len <? n_fft) then Ok []
  else
    Ok (map (fun k : nat =>
               replicate (Z.to_nat n_mels)
                 (arr_get samples (Z.of_nat k * hop_length)))
            (seq 0 (Z.to_nat (1 + (len - n_fft) / hop_length)))).

(** The same frames with the decibel floor of the primitive: no value
    lies more than [top_db] below the largest sample of the slice. *)
Definition floor_primitive (sr : Z) (samples : list num)
    (n_fft win_length hop_length : Z) (f_min f_max : Q)
    (n_mels top_db : Z) : result (list (list num)) :=
  let len := Z.of_nat (length samples) in
  let peak := foldl Math_max NInf samples in
  let floor := sub peak (Fin (inject_Z top_db)) in
  if (hop_length <=? 0) || (len <? n_fft) then Ok []
  else
    Ok (map (fun k : nat =>
               replicate (Z.to_nat n_mels)
                 (Math_max (arr_get samples (Z.of_nat k * hop_length)) floor))
            (seq 0 (Z.to_nat (1 + (len - n_fft) / hop_length)))).

Lemma framing_rows_ok (p : RenderParams) :
  0 <= n_mels p -> primitive_rows_ok framing_primitive p.
Proof.
  intros Hn samples melFrames. unfold call_primitive, framing_primitive.
  destruct (_ || _); intros [= <-]; [constructor|].
  apply Forall_forall. intros row Hrow.
  apply list_elem_of_In, in_map_iff in Hrow as (k & <- & _).
  rewrite length_replicate. lia.
Qed.

(** The samples 0, 1, 2, ... *)
Definition ramp (n : nat) : list num :=
  map (fun i : nat => Fin (inject_Z (Z.of_nat i))) (seq 0 n).

(** ** Worked runs of the worker *)

(** A file of 12 samples at 8 Hz (1.5 s), analysed with a hop of one
    sample: 8 frames per second. *)
Definition short_params (t0 windowDuration : Q) (n_fft n_mels : Z)
    (f_min f_max : Q) : RenderParams :=
  mkParams 8 n_fft 1 1 f_min f_max n_mels 80 t0 windowDuration
           false false (Fin 1) (Fin 98) (Fin 0) (Fin 1) "viridis".

Definition short_loaded : State :=
  snd (onmessage pow_gamma_one framing_primitive
         (SetPcmMsg "a" 8 (ramp 12)) initialState).

(** The first second of the file: frames 0..7, left padding clamped. *)
Definition first_second : RenderParams := short_params 0 1 2 2 10 4000.

Lemma first_second_valid : valid_window first_second.
Proof. repeat split; vm_compute; congruence. Qed.

Lemma short_loaded_cold (fileId : string) (p : RenderParams) :
  cold_window short_loaded fileId p.
Proof. intros F0 F1 t _ _. apply lookup_empty. Qed.

(** Two renders over a file of 3100 samples at 1024 Hz, one sample per
    hop and per frame, one mel bin.

    With the floored primitive: first the second second (frames
    1024..2047), then two seconds from the same start (frames
    1024..3071).  The second render reuses the tile of the first, whose
    floor came from a shorter slice: its first value is 1968, where one
    call over the whole range gives 2992.

    With the plain framing primitive: first the first second (frames
    0..1023, left padding clamped at sample 0), then the first two
    seconds.  The cached tile holds the samples 1..1024 and the tile
    computed for frames 1024..2047 holds the samples 1024..2047: value
    1024 of the assembled buffer is the sample 1024, where one call over
    the whole range gives the sample 1025. *)
Definition long_params (t0 windowDuration : Q) : RenderParams :=
  mkParams 1024 1 1 1 10 4000 1 80 t0 windowDuration
           false false (Fin 1) (Fin 98) (Fin 0) (Fin 1) "viridis".

Definition long_after_floored_render : State :=
  snd (run pow_gamma_one floor_primitive
         [SetPcmMsg "a" 1024 (ramp 3100); RenderMsg "a" (long_params 1 1)]
         initialState).

Definition long_after_first_second : State :=
  snd (run pow_gamma_one framing_primitive
         [SetPcmMsg "a" 1024 (ramp 3100); RenderMsg "a" (long_params 0 1)]
         initialState).

(** A file of 4200 samples at 1024 Hz, loaded; and the same after its
    second second (frames 1024..2047, one tile) was rendered. *)
Definition longer_loaded : State :=
  snd (onmessage pow_gamma_one framing_primitive
         (SetPcmMsg "a" 1024 (ramp 4200)) initialState).

Definition longer_after_second_second : State :=
  snd (run pow_gamma_one framing_primitive
         [SetPcmMsg "a" 1024 (ramp 4200); RenderMsg "a" (long_params 1 1)]
         initialState).

(** Two seconds from a cold cache: two contiguous missing tiles, one
    segment, one invocation.  Four seconds around the cached second
    second: three missing tiles in two runs, two invocations. *)
Lemma primitive_invoked_once_per_missing_run_witness :
  (valid_window (long_params 0 2)
   ∧ missingTiles (melTileCache longer_loaded) "a" (long_params 0 2)
       (neededLoop 0 2047)
     = [mkTile 0 1024; mkTile 1024 1024]
   ∧ snd (analyzeTiles (melTileCache longer_loaded) "a" 0 2047
            (long_params 0 2))
     = [mkTile 0 2048]
   ∧ length (primCalls
               (snd (assembleWindowMel framing_primitive "a"
                       (long_params 0 2) longer_loaded)))
     = 1%nat)
  ∧ (valid_window (long_params 0 4)
     ∧ missingTiles (melTileCache longer_after_second_second) "a"
         (long_params 0 4) (neededLoop 0 4095)
       = [mkTile 0 1024; mkTile 2048 1024; mkTile 3072 1024]
     ∧ snd (analyzeTiles (melTileCache longer_after_second_second) "a"
              0 4095 (long_params 0 4))
       = [mkTile 0 1024; mkTile 2048 2048]
     ∧ length (primCalls longer_after_second_second) = 1%nat
     ∧ length (primCalls
                 (snd (assembleWindowMel framing_primitive "a"
                         (long_params 0 4) longer_after_second_second)))
       = 3%nat).
Proof.
  assert (valid_window (long_params 0 2)) as Hv2
    by (repeat split; vm_compute; congruence).
  assert (valid_window (long_params 0 4)) as Hv4
    by (repeat split; vm_compute; congruence).
  assert (pcmStore longer_loaded !! "a" = Some (mkPcm 1024 (ramp 4200)))
    as Hl2 by (vm_compute; reflexivity).
  assert (pcmStore longer_after_second_second !! "a"
          = Some (mkPcm 1024 (ramp 4200))) as Hl4
    by (vm_compute; reflexivity).
  assert (framesForWindow (long_params 0 2) = Some (0, 2047)) as HF2
    by reflexivity.
  assert (framesForWindow (long_params 0 4) = Some (0, 4095)) as HF4
    by reflexivity.
  assert (missingTiles (melTileCache longer_loaded) "a" (long_params 0 2)
            (neededLoop 0 2047)
          = [mkTile 0 1024; mkTile 1024 1024]) as Hm2
    by (vm_compute; reflexivity).
  assert (missingTiles (melTileCache longer_after_second_second) "a"
            (long_params 0 4) (neededLoop 0 4095)
          = [mkTile 0 1024; mkTile 2048 1024; mkTile 3072 1024]) as Hm4
    by (vm_compute; reflexivity).
  assert (snd (analyzeTiles (melTileCache longer_after_second_second) "a"
                 0 4095 (long_params 0 4))
          = [mkTile 0 1024; mkTile 2048 2048]) as Hr4
    by (vm_compute; reflexivity).
  assert (length (primCalls longer_after_second_second) = 1%nat) as Hc4
    by (vm_compute; reflexivity).
  assert (∃ v, fst (assembleWindowMel framing_primitive "a" (long_params 0 4)
                      longer_after_second_second) = Ok v) as [v Hok]
    by (vm_compute; eexists; reflexivity).
  split.
  - pose proof (primitive_invoked_once_per_missing_run framing_primitive
                  longer_loaded "a" (long_params 0 2) _ 0 2047 Hv2 Hl2 HF2)
      as H.
    cbv zeta in H. destruct H as (_ & _ & _ & Hone).
    change (fst (analyzeTiles (melTileCache longer_loaded) "a" 0 2047
                   (long_params 0 2))) with (neededLoop 0 2047) in Hone.
    rewrite Hm2 in Hone.
    destruct Hone as (seg & Hruns & Hcalls);
      [simpl; lia|split; [reflexivity|exact I]|].
    split; [exact Hv2|]. split; [exact Hm2|].
    split; [vm_compute; reflexivity|].
    rewrite Hcalls. reflexivity.
  - pose proof (primitive_invoked_once_per_missing_run framing_primitive
                  longer_after_second_second "a" (long_params 0 4) _ 0 4095
                  Hv4 Hl4 HF4) as H.
    cbv zeta in H. destruct H as (_ & _ & Hall & _).
    specialize (Hall v Hok). rewrite Hr4 in Hall.
    split; [exact Hv4|]. split; [exact Hm4|]. split; [exact Hr4|].
    split; [exact Hc4|].
    rewrite Hall, length_app, Hc4. reflexivity.
Defined.

Definition value_at (k : nat) (r : result (list num * Z)) : option num :=
  match r with
  | Ok (mel, _) => mel !! k
  | Throw _ => None
  end.

Lemma warm_window_differs_from_single_call :
  (value_at 0
     (fst (assembleWindowMel floor_primitive "a" (long_params 1 2)
             long_after_floored_render))
     = Some (Fin 1968)
   ∧ value_at 0
       (referenceWindowMel floor_primitive "a" (long_params 1 2)
          long_after_floored_render)
     = Some (Fin 2992)
   ∧ fst (assembleWindowMel floor_primitive "a" (long_params 1 2)
            long_after_floored_render)
     ≠ referenceWindowMel floor_primitive "a" (long_params 1 2)
         long_after_floored_render)
  ∧ (value_at 1024
       (fst (assembleWindowMel framing_primitive "a" (long_params 0 2)
               long_after_first_second))
     = Some (Fin 1024)
     ∧ value_at 1024
         (referenceWindowMel framing_primitive "a" (long_params 0 2)
            long_after_first_second)
       = Some (Fin 1025)
     ∧ fst (assembleWindowMel framing_primitive "a" (long_params 0 2)
              long_after_first_second)
       ≠ referenceWindowMel framing_primitive "a" (long_params 0 2)
           long_after_first_second).
Proof.
  assert (value_at 0
            (fst (assembleWindowMel floor_primitive "a" (long_params 1 2)
                    long_after_floored_render))
          = Some (Fin 1968)) as H1 by (vm_compute; reflexivity).
  assert (value_at 0
            (referenceWindowMel floor_primitive "a" (long_params 1 2)
               long_after_floored_render)
          = Some (Fin 2992)) as H2 by (vm_compute; reflexivity).
  assert (value_at 1024
            (fst (assembleWindowMel framing_primitive "a" (long_params 0 2)
                    long_after_first_second))
          = Some (Fin 1024)) as H3 by (vm_compute; reflexivity).
  assert (value_at 1024
            (referenceWindowMel framing_primitive "a" (long_params 0 2)
               long_after_first_second)
          = Some (Fin 1025)) as H4 by (vm_compute; reflexivity).
  split; (split; [eassumption|]; split; [eassumption|]).
  - intros Heq. rewrite Heq, H2 in H1. discriminate H1.
  - intros Heq. rewrite Heq, H4 in H3. discriminate H3.
Qed.

(** C2. Failing input: the 1.5 s file is loaded and a window that starts
    at t0 = 100 s is requested.  The primitive gets an empty slice and
    returns no frame; the worker then replies with a canvas of
    8 x 2 pixels (totalFrames x n_mels), not with the 1x1 placeholder. *)
Theorem past_end_render_is_full_size :
  ∃ img,
    fst (run pow_gamma_one framing_primitive
           [SetPcmMsg "a" 8 (ramp 12);
            RenderMsg "a" (short_params 100 1 2 2 10 4000)]
           initialState)
    = [ImageReply img]
    ∧ img_width img = 8 ∧ img_height img = 2 ∧ img ≠ placeholder
    ∧ fst (assembleWindowMel framing_primitive "a"
             (short_params 100 1 2 2 10 4000) short_loaded)
      = Ok ([], 8).
Proof.
  eexists. split; [vm_compute; reflexivity|].
  split; [reflexivity|]. split; [reflexivity|]. split; [discriminate|].
  vm_compute. reflexivity.
Qed.

(** C3. Failing input: the 1.5 s file is loaded and the window from
    t0 = 1 s to 2 s (frames 8..15) is requested.  The tile stored under
    the key that declares 8 frames holds 6 values, not 8 x 2 = 16, and the
    assembler returns these 6 values with the frame count 8. *)
Theorem past_end_tile_is_short :
  let p := short_params 1 1 2 2 10 4000 in
  let r := assembleWindowMel framing_primitive "a" p short_loaded in
  framesForWindow p = Some (8, 15)
  ∧ fst r = Ok ([Fin 8; Fin 8; Fin 9; Fin 9; Fin 10; Fin 10], 8)
  ∧ melTileCache (snd r) !! tileKey "a" 8 8 p
    = Some [Fin 8; Fin 8; Fin 9; Fin 9; Fin 10; Fin 10]
  ∧ (6 <> 8 * n_mels p).
Proof. vm_compute. repeat split; congruence. Qed.

(** A band with f_min = 4000 above f_max = 10 is handed to the stand-in
    primitive, which does not check it, and the worker replies with an
    image. *)
Lemma invalid_band_render_gives_image :
  let p := short_params 0 1 2 2 4000 10 in
  (f_max p <= f_min p)%Q
  ∧ ∃ img,
      fst (run pow_gamma_one framing_primitive
             [SetPcmMsg "a" 8 (ramp 12); RenderMsg "a" p] initialState)
      = [ImageReply img]
      ∧ img_width img = 8 ∧ img_height img = 2.
Proof.
  split; [vm_compute; congruence|].
  eexists. split; [vm_compute; reflexivity|]. split; reflexivity.
Qed.

(** A request with [n_fft = 0] and f_min = 4000 above f_max = 10. *)
Lemma render_forwards_params_witness :
  let p := short_params 0 1 0 2 4000 10 in
  let samples := paddedSlice (mkPcm 8 (ramp 12)) (mkTile 0 8) p in
  let r := render pow_gamma_one framing_primitive "a" p short_loaded in
  framesForWindow p = Some (0, 7)
  ∧ pcmStore short_loaded !! "a" = Some (mkPcm 8 (ramp 12))
  ∧ cold_window short_loaded "a" p
  ∧ primCalls (snd r)
    = [mkCall 8 samples 0 1 1 4000 10 2 80
         (framing_primitive 8 samples 0 1 1 4000 10 2 80)]
  ∧ ∃ img, fst r = ImageReply img ∧ img_width img = 8 ∧ img_height img = 2.
Proof.
  intros p samples r.
  assert (framesForWindow p = Some (0, 7)) as HF by reflexivity.
  assert (pcmStore short_loaded !! "a" = Some (mkPcm 8 (ramp 12))) as Hl
    by reflexivity.
  split; [exact HF|]. split; [exact Hl|].
  split; [apply short_loaded_cold|].
  pose proof (render_forwards_params pow_gamma_one framing_primitive "a" p
                short_loaded _ 0 7 HF ltac:(lia) Hl
                (short_loaded_cold "a" p)) as H.
  cbv zeta in H. destruct H as (Hcalls & _ & Himg & _).
  split; [exact Hcalls|].
  assert (∃ rows, framing_primitive 8 samples 0 1 1 4000 10 2 80 = Ok rows)
    as [rows Hrows] by (vm_compute; eexists; reflexivity).
  apply (Himg rows Hrows).
  - apply (framing_rows_ok p ltac:(vm_compute; congruence) samples rows Hrows).
  - reflexivity.
Defined.

(** The state after the file was loaded and its first second rendered:
    the tile of frames 0..7 is cached. *)
Definition short_rendered : State :=
  snd (run pow_gamma_one framing_primitive
         [SetPcmMsg "a" 8 (ramp 12); RenderMsg "a" first_second]
         initialState).

Lemma render_without_pcm_fails_witness :
  reachable pow_gamma_one framing_primitive short_rendered
  ∧ valid_window first_second
  ∧ pcmStore short_rendered !! "b" = None
  ∧ is_Some (melTileCache short_rendered !! tileKey "a" 0 8 first_second)
  ∧ onmessage pow_gamma_one framing_primitive (RenderMsg "b" first_second)
      short_rendered
    = ([ErrorReply PcmNotLoaded], ensureWasmInitialized short_rendered).
Proof.
  assert (reachable pow_gamma_one framing_primitive short_rendered) as Hr
    by (apply reachable_run, reachable_init).
  assert (pcmStore short_rendered !! "b" = None) as Hn
    by (vm_compute; reflexivity).
  split; [exact Hr|]. split; [exact first_second_valid|]. split; [exact Hn|].
  split; [vm_compute; eauto|].
  exact (render_without_pcm_fails pow_gamma_one framing_primitive
           short_rendered "b" first_second Hr first_second_valid Hn).
Defined.

Lemma short_rendered_warm :
  warm_window (melTileCache short_rendered) "a" first_second.
Proof.
  intros F0 F1 t HF Ht.
  assert (framesForWindow first_second = Some (0, 7)) as HF' by reflexivity.
  rewrite HF' in HF. injection HF as <- <-.
  assert (neededLoop 0 7 = [mkTile 0 8]) as Hn by reflexivity.
  rewrite Hn in Ht. apply list_elem_of_singleton in Ht as ->.
  vm_compute. eauto.
Qed.

(** The cached tile of the first second holds the samples 2..8 (the
    first two frames are dropped as padding), twice each; after the file is
    delivered again with every sample equal to 5, the render is still
    answered from it. *)
Lemma set_pcm_keeps_cache_witness :
  let st' :=
    snd (onmessage pow_gamma_one framing_primitive
           (SetPcmMsg "a" 8 (replicate 12 (Fin 5))) short_rendered) in
  let tile :=
    [Fin 2; Fin 2; Fin 3; Fin 3; Fin 4; Fin 4; Fin 5; Fin 5;
     Fin 6; Fin 6; Fin 7; Fin 7; Fin 8; Fin 8] in
  melTileCache short_rendered !! tileKey "a" 0 8 first_second = Some tile
  ∧ pcmStore st' !! "a" = Some (mkPcm 8 (replicate 12 (Fin 5)))
  ∧ fst (assembleWindowMel framing_primitive "a" first_second st')
    = Ok (tile, 8)
  ∧ fst (render pow_gamma_one framing_primitive "a" first_second st')
    = fst (render pow_gamma_one framing_primitive "a" first_second
             short_rendered).
Proof.
  intros st' tile.
  assert (melTileCache short_rendered !! tileKey "a" 0 8 first_second
          = Some tile) as Hk by (vm_compute; reflexivity).
  assert (framesForWindow first_second = Some (0, 7)) as HF by reflexivity.
  assert (Forall2
            (fun t v =>
               melTileCache short_rendered
                 !! tileKey "a" (startFrame t) (frames t) first_second
               = Some v)
            (neededLoop 0 7) [tile]) as Htiles.
  { change (neededLoop 0 7) with [mkTile 0 8]. by repeat constructor. }
  destruct (set_pcm_keeps_cache pow_gamma_one framing_primitive
              short_rendered "a" 8 (replicate 12 (Fin 5)))
    as (_ & _ & Hpcm & _ & _ & Hrender).
  destruct (Hrender "a" first_second 0 7 [tile] HF Htiles)
    as (Has & Hreply & _).
  split; [exact Hk|]. split; [exact Hpcm|].
  split; [|exact Hreply].
  fold st' in Has. by rewrite Has.
Defined.

Lemma display_index_in_range_witness :
  let p := display_params (Fin 1) (Fin 0) (Fin 1) in
  adjustedValue pow_gamma_one (Fin 0) (Fin 1) (Fin 1) p (Fin (1 # 2)) <> NaN
  ∧ in_unit
      (clampedValue pow_gamma_one (Fin 0) (Fin 1) (Fin 1) p (Fin (1 # 2)))
  ∧ 0 <= colorIndex pow_gamma_one (Fin 0) (Fin 1) (Fin 1) p (Fin (1 # 2))
      <= 255.
Proof.
  intros p.
  assert (adjustedValue pow_gamma_one (Fin 0) (Fin 1) (Fin 1) p
            (Fin (1 # 2)) <> NaN) as Hadj by (vm_compute; discriminate).
  destruct (display_index_in_range pow_gamma_one (Fin 0) (Fin 1) (Fin 1) p
              (Fin (1 # 2)) [] 0 0) as (_ & Hunit & Hidx & _).
  split; [exact Hadj|]. split; [exact (Hunit Hadj)|exact Hidx].
Defined.

(** * Further properties of the worker *)

(** ** Flattening and concatenation: sizes and failures *)

Lemma array_set_length (out row out' : list num) (off : Z) :
  array_set out row off = Ok out' -> length out' = length out.
Proof.
  unfold array_set.
  destruct (Z.ltb_spec off 0) as [?|Hoff]; [done|].
  destruct (Z.ltb_spec (Z.of_nat (length out)) (off + Z.of_nat (length row)))
    as [?|Hfit]; [done|].
  cbn [orb]. intros [= <-].
  rewrite !length_app, length_take, length_drop. lia.
Qed.

Lemma flattenLoop_length (rows : list (list num)) (n_mels : Z) :
  ∀ t out out',
    flattenLoop rows t n_mels out = Ok out' -> length out' = length out.
Proof.
  induction rows as [|row rows IH]; intros t out out'; cbn [flattenLoop].
  - by intros [= <-].
  - destruct (array_set out row (t * n_mels)) as [out1|e] eqn:Hset; [|done].
    intros Hloop. rewrite (IH _ _ _ Hloop).
    by eapply array_set_length.
Qed.

(** X1. [flattenMel]: whenever it returns, the buffer holds
    frames x n_mels values; rows of [n_mels] values are laid out one
    after the other, frame 0 first; no frame gives the empty buffer; and
    a negative [n_mels] with at least one frame is a [RangeError]. *)
Theorem flattenMel_layout (melFrames : list (list num)) (n_mels : Z) :
  (∀ out, flattenMel melFrames n_mels = Ok out ->
          Z.of_nat (length out) = Z.of_nat (length melFrames) * n_mels)
  ∧ (rows_ok n_mels melFrames ->
     flattenMel melFrames n_mels = Ok (concat melFrames))
  ∧ (melFrames = [] -> flattenMel melFrames n_mels = Ok [])
  ∧ (melFrames <> [] -> n_mels < 0 ->
     flattenMel melFrames n_mels = Throw RangeError).
Proof.
  split; [|split; [apply flattenMel_rows|split]].
  - intros out. unfold flattenMel.
    destruct (Z.ltb_spec (Z.of_nat (length melFrames) * n_mels) 0); [done|].
    intros Hloop. apply flattenLoop_length in Hloop.
    rewrite Hloop, length_replicate. lia.
  - by intros ->.
  - intros Hne Hneg. unfold flattenMel.
    destruct (Z.ltb_spec (Z.of_nat (length melFrames) * n_mels) 0) as [|Hge];
      [done|].
    destruct melFrames; [done|]. simpl length in Hge. nia.
Qed.

Lemma flattenMel_layout_witness :
  rows_ok 2 [[Fin 1; Fin 2]; [Fin 3; Fin 4]]
  ∧ flattenMel [[Fin 1; Fin 2]; [Fin 3; Fin 4]] 2
    = Ok [Fin 1; Fin 2; Fin 3; Fin 4]
  ∧ flattenMel [[Fin 1; Fin 2]] (-1) = Throw RangeError.
Proof.
  assert (rows_ok 2 [[Fin 1; Fin 2]; [Fin 3; Fin 4]]) as Hrows
    by (repeat constructor).
  destruct (flattenMel_layout [[Fin 1; Fin 2]; [Fin 3; Fin 4]] 2)
    as (_ & Hcat & _).
  destruct (flattenMel_layout [[Fin 1; Fin 2]] (-1)) as (_ & _ & _ & Hneg).
  split; [exact Hrows|]. split; [exact (Hcat Hrows)|].
  apply Hneg; [discriminate|lia].
Defined.

(** X2. [concatTiles], with its loop that adds up the lengths, the
    array it allocates and its loop that copies each tile to its offset,
    returns exactly when every tile is present, and then gives the tiles
    one after the other; a single absent tile makes it throw a
    [TypeError]. *)
Theorem concatTiles_present (tiles : list (option (list num))) :
  (∀ mel, concatTiles tiles = Ok mel <->
          ∃ vals, tiles = map Some vals ∧ mel = concat vals)
  ∧ (None ∈ tiles -> concatTiles tiles = Throw TypeError).
Proof.
  split.
  - intros mel. split; [apply concatTiles_Ok_inv|].
    intros (vals & -> & ->). apply concatTiles_Some.
  - apply concatTiles_absent.
Qed.

Lemma concatTiles_present_witness :
  None ∈ [Some [Fin 1]; None; Some [Fin 2]]
  ∧ concatTiles [Some [Fin 1]; None; Some [Fin 2]] = Throw TypeError
  ∧ concatTiles [Some [Fin 1]; Some []; Some [Fin 2; Fin 3]]
    = Ok [Fin 1; Fin 2; Fin 3].
Proof.
  assert (None ∈ [Some [Fin 1]; None; Some [Fin 2]]) as Hin
    by (right; left).
  split; [exact Hin|]. split.
  - exact (proj2 (concatTiles_present [Some [Fin 1]; None; Some [Fin 2]])
             Hin).
  - apply (proj1 (concatTiles_present
                    [Some [Fin 1]; Some []; Some [Fin 2; Fin 3]])).
    by exists [[Fin 1]; []; [Fin 2; Fin 3]].
Defined.

(** ** Repeating a render *)

Section Repeat.

Variable Math_pow : num -> num -> num.
Variable mel_spectrogram_db :
  Z -> list num -> Z -> Z -> Z -> Q -> Q -> Z -> Z ->
  result (list (list num)).

Lemma computeSegments_wasmReady fileId missing p :
  ∀ st,
    wasmReady (snd (computeSegments mel_spectrogram_db fileId missing p st))
    = wasmReady st.
Proof.
  induction missing as [|seg rest IH]; intros st; [done|].
  cbn [computeSegments].
  pose proof (computeSegment_frame mel_spectrogram_db fileId seg p st)
    as [_ Hw].
  destruct (computeSegmentAndPopulateTiles _ _ _ _ _) as [[[]|e] st1];
    simpl in *; [by rewrite IH|done].
Qed.

(** The assembler changes neither the sample store nor the ready
    flag. *)
Lemma assemble_frame fileId p st :
  let st' := snd (assembleWindowMel mel_spectrogram_db fileId p st) in
  pcmStore st' = pcmStore st ∧ wasmReady st' = wasmReady st.
Proof.
  unfold assembleWindowMel.
  destruct (framesForWindow p) as [[F0 F1]|]; [|done].
  destruct (analyzeTiles _ _ _ _ _) as [needed missing].
  pose proof (computeSegments_frame mel_spectrogram_db fileId missing p st)
    as Hp.
  pose proof (computeSegments_wasmReady fileId missing p st) as Hw.
  destruct (computeSegments _ _ _ _ _) as [[[]|e] st1]; simpl in *; [|done].
  by destruct (concatTiles _).
Qed.

Lemma assemble_again fileId p st v st' :
  assembleWindowMel mel_spectrogram_db fileId p st = (Ok v, st') ->
  warm_window (melTileCache st') fileId p
  ∧ assembleWindowMel mel_spectrogram_db fileId p st' = (Ok v, st').
Proof.
  intros Has.
  assert (cachedWindowMel (melTileCache st') fileId p = Ok v
          ∧ warm_window (melTileCache st') fileId p) as [Hc Hwarm].
  { unfold assembleWindowMel in Has. unfold cachedWindowMel, warm_window.
    destruct (framesForWindow p) as [[F0 F1]|]; [|done].
    destruct (analyzeTiles _ _ _ _ _) as [needed missing] eqn:Han.
    assert (needed = neededLoop F0 F1) as ->.
    { unfold analyzeTiles in Han. by injection Han as <- _. }
    destruct (computeSegments _ _ _ _ _) as [[[]|e] st1]; [|done].
    destruct (concatTiles _) as [mel|e] eqn:Hcat; [|done].
    injection Has as <- <-. rewrite Hcat. split; [done|].
    intros F0' F1' t [= <- <-] Ht.
    destruct (concatTiles_Ok_inv _ _ Hcat) as (vals & Hmap & _).
    assert (melTileCache st1 !! tileKey fileId (startFrame t) (frames t) p
            ∈ map Some vals) as Hin.
    { rewrite <- Hmap. apply list_elem_of_In, in_map_iff.
      exists t. split; [done|]. by apply list_elem_of_In. }
    apply list_elem_of_In, in_map_iff in Hin as (val & <- & _). eauto. }
  split; [done|]. by rewrite assemble_warm, Hc.
Qed.

(** X4. A render that was answered with an image, repeated in the state it
    left, is answered with the same image, from the cache alone: the
    state, and with it the log of primitive invocations, stays as it
    is. *)
Theorem repeated_render_is_cached (fileId : string) (p : RenderParams)
    (st st' : State) (img : Image) :
  render Math_pow mel_spectrogram_db fileId p st = (ImageReply img, st') ->
  warm_window (melTileCache st') fileId p
  ∧ render Math_pow mel_spectrogram_db fileId p st' = (ImageReply img, st').
Proof.
  rewrite render_reply. intros Hr.
  set (st0 := ensureWasmInitialized st) in *.
  destruct (assembleWindowMel mel_spectrogram_db fileId p st0)
    as [[v|e] st1] eqn:Has; cbn [fst snd] in Hr; [|done].
  injection Hr as Hreply <-.
  destruct (assemble_again fileId p st0 v st1 Has) as [Hwarm Hagain].
  split; [done|].
  assert (wasmReady st1 = true) as Hw.
  { pose proof (assemble_frame fileId p st0) as [_ Hw].
    rewrite Has in Hw. simpl in Hw. rewrite Hw.
    unfold st0, ensureWasmInitialized. by destruct (wasmReady st) eqn:E. }
  rewrite render_reply.
  assert (ensureWasmInitialized st1 = st1) as ->
    by (unfold ensureWasmInitialized; by rewrite Hw).
  rewrite Hagain. cbn [fst snd]. f_equal. exact Hreply.
Qed.

(** X5. When the primitive throws on the first missing segment of a render,
    the exception is the reply and the tile cache and the sample store
    are left as they were. *)
Theorem primitive_failure_keeps_cache (fileId : string) (p : RenderParams)
    (st : State) (entry : PcmEntry) (F0 F1 : Z) (seg : Tile)
    (rest : list Tile) (e : exn) :
  framesForWindow p = Some (F0, F1) ->
  pcmStore st !! fileId = Some entry ->
  snd (analyzeTiles (melTileCache st) fileId F0 F1 p) = seg :: rest ->
  call_primitive mel_spectrogram_db p (paddedSlice entry seg p) = Throw e ->
  let r := render Math_pow mel_spectrogram_db fileId p st in
  fst r = ErrorReply e
  ∧ melTileCache (snd r) = melTileCache st
  ∧ pcmStore (snd r) = pcmStore st.
Proof.
  intros HF Hl Hmiss Hthrow r. unfold r. rewrite render_reply. cbn [fst snd].
  set (st0 := ensureWasmInitialized st).
  destruct (ensureWasm_frame st) as (Hp & Hc & _). fold st0 in Hp, Hc.
  unfold assembleWindowMel. rewrite HF, Hc.
  destruct (analyzeTiles _ _ _ _ _) as [needed missing].
  simpl in Hmiss. subst missing. cbn [computeSegments].
  rewrite (computeSegment_throw mel_spectrogram_db fileId seg p st0 entry e)
    by (by rewrite ?Hp).
  done.
Qed.

(** X6. In every state the worker can reach, each cached tile was stored
    under the key of a file whose PCM is loaded. *)
Theorem cached_tiles_have_pcm (msgs : list Msg) (key : string) :
  let st := snd (run Math_pow mel_spectrogram_db msgs initialState) in
  is_Some (melTileCache st !! key) ->
  ∃ fileId s n p,
    key = tileKey fileId s n p ∧ is_Some (pcmStore st !! fileId).
Proof.
  intros st. apply reachable_owned with Math_pow mel_spectrogram_db.
  apply reachable_run, reachable_init.
Qed.

End Repeat.

(** ** The base of the power is in the unit interval *)

(** X7. Whatever the value and the gain bounds are (NaN and infinities
    included), [normalizedValue], the base handed to [Math.pow], is a
    number between 0 and 1. *)
Theorem normalizedValue_in_unit (smin smax v : num) :
  in_unit (normalizedValue smin smax v).
Proof.
  unfold normalizedValue. cbv zeta.
  apply clamp01_not_NaN.
  destruct (div (sub v smin) (sub smax smin)); simpl; discriminate.
Qed.

(** ** Tile keys separate analysis parameters *)

Fixpoint occurrences (c : ascii) (s : string) : nat :=
  match s with
  | EmptyString => 0
  | String d s' => (if decide (d = c) then 1 else 0) + occurrences c s'
  end.

Lemma occurrences_app c (a b : string) :
  occurrences c (a +:+ b) = (occurrences c a + occurrences c b)%nat.
Proof. induction a as [|d a IH]; simpl; [done|]. rewrite IH. lia. Qed.

Lemma slashes_pretty_N_go (x : N) (s : string) :
  occurrences "/" (pretty_N_go x s) = occurrences "/" s.
Proof.
  revert s. induction (N.lt_wf_0 x) as [x _ IH]; intros s.
  assert (x = 0 ∨ 0 < x)%N as [->|Hx] by lia.
  - by rewrite pretty_N_go_0.
  - rewrite pretty_N_go_step by done.
    rewrite IH by (by apply N.div_lt). simpl.
    unfold pretty_N_char. by repeat case_match.
Qed.

Lemma slashes_pretty_Z (z : Z) : occurrences "/" (pretty z) = 0%nat.
Proof.
  assert (∀ x : N, occurrences "/" (pretty x) = 0%nat) as HN.
  { intros x. unfold pretty, pretty_N. case_decide; [done|].
    by rewrite slashes_pretty_N_go. }
  destruct z as [|x|x]; unfold pretty, pretty_Z; [done|apply HN|].
  rewrite occurrences_app. simpl. apply HN.
Qed.

Lemma split_at_slash (a a' s s' : string) :
  occurrences "/" s = occurrences "/" s' ->
  a +:+ "/" +:+ s = a' +:+ "/" +:+ s' ->
  a = a' ∧ s = s'.
Proof.
  revert a'. induction a as [|c a IH]; intros [|c' a'] Hn Heq;
    repeat (rewrite append_nil_l in Heq || rewrite append_cons in Heq).
  - injection Heq as ->. done.
  - injection Heq as <- ->. rewrite occurrences_app in Hn.
    simpl in Hn. lia.
  - injection Heq as -> <-. rewrite occurrences_app in Hn.
    simpl in Hn. lia.
  - injection Heq as -> Heq. destruct (IH a' Hn Heq) as [-> ->]. done.
Qed.

Lemma show_Q_inj (a b : Q) : show_Q a = show_Q b <-> (a == b)%Q.
Proof.
  split.
  - unfold show_Q. intros Heq.
    apply split_at_slash in Heq as [Hn Hd]; [|by rewrite !slashes_pretty_Z].
    apply (inj pretty) in Hn. apply (inj pretty) in Hd.
    rewrite <- (Qred_correct a), <- (Qred_correct b).
    destruct (Qred a) as [na da], (Qred b) as [nb db]. simpl in *.
    injection Hd as ->. subst nb. reflexivity.
  - intros Heq. unfold show_Q. by rewrite (Qred_complete a b Heq).
Qed.

(** The analysis parameters of two requests agree: everything that
    enters a tile key besides the file and the tile. *)
Definition same_analysis (p p' : RenderParams) : Prop :=
  sampleRate p = sampleRate p' ∧ n_fft p = n_fft p'
  ∧ win_length p = win_length p' ∧ hop_length p = hop_length p'
  ∧ n_mels p = n_mels p' ∧ (f_min p == f_min p')%Q
  ∧ (f_max p == f_max p')%Q ∧ top_db p = top_db p'.

Ltac key_split H Hfield :=
  apply split_at_colon in H as [Hfield H];
  [|by rewrite ?colons_app, ?colons_pretty_Z, ?colons_show_Q].

Lemma tileKey_same_analysis fileId s n p p' :
  same_analysis p p' -> tileKey fileId s n p = tileKey fileId s n p'.
Proof.
  intros (Hsr & Hfft & Hwin & Hhop & Hmel & Hmin & Hmax & Htop).
  unfold tileKey.
  rewrite Hsr, Hfft, Hwin, Hhop, Hmel, Htop.
  by rewrite (proj2 (show_Q_inj _ _) Hmin), (proj2 (show_Q_inj _ _) Hmax).
Qed.

(** X8. Two tile keys are equal exactly when they name the same file (colons
    in the file identifier included), the same start frame and frame
    count, and the same analysis parameters; the time window and the
    display parameters of the request play no part. *)
Theorem tileKey_equal_iff (fileId fileId' : string) (s s' n n' : Z)
    (p p' : RenderParams) :
  tileKey fileId s n p = tileKey fileId' s' n' p'
  <-> fileId = fileId' ∧ s = s' ∧ n = n' ∧ same_analysis p p'.
Proof.
  split.
  - intros Heq.
    destruct (tileKey_inj _ _ _ _ _ _ _ _ Heq) as (-> & -> & ->).
    do 3 (split; [done|]).
    unfold tileKey in Heq. apply (inj (String.app fileId')) in Heq.
    apply (inj (String.app ":")) in Heq.
    key_split Heq H1. key_split Heq H2. key_split Heq Hsr.
    key_split Heq Hfft. key_split Heq Hwin. key_split Heq Hhop.
    key_split Heq Hmel. key_split Heq Hmin. key_split Heq Hmax.
    apply (inj pretty) in Hsr, Hfft, Hwin, Hhop, Hmel, Heq.
    apply show_Q_inj in Hmin, Hmax.
    by repeat split.
  - intros (-> & -> & -> & Hsame). by apply tileKey_same_analysis.
Qed.

(** ** The number of tiles of a window *)

Lemma tiling_length c F1 l :
  tiling c F1 l ->
  Z.of_nat (length l) = (F1 - c + 1 + (TILE_FRAMES - 1)) / TILE_FRAMES.
Proof.
  induction 1 as [c F1 H1 H2|c F1 rest H1 _ IH]; unfold TILE_FRAMES in *.
  - change (Z.of_nat (length [mkTile c (F1 - c + 1)])) with 1.
    apply (Z.div_unique _ _ 1 (F1 - c)); lia.
  - cbn [length]. rewrite Nat2Z.inj_succ, IH.
    replace (F1 - c + 1 + (1024 - 1))
      with (F1 - (c + 1024) + 1 + (1024 - 1) + 1 * 1024) by lia.
    rewrite Z.div_add by lia. lia.
Qed.

(** X9. A window of [F1 - F0 + 1] frames needs that many frames divided by
    1024, rounded up, tiles; their frame counts add up to the frames of
    the window; and an empty range needs no tile. *)
Theorem needed_tile_count (F0 F1 : Z) :
  (F0 <= F1 ->
   Z.of_nat (length (neededLoop F0 F1)) = (F1 - F0 + 1 + 1023) / 1024
   ∧ total_frames (neededLoop F0 F1) = F1 - F0 + 1)
  ∧ (F1 < F0 -> neededLoop F0 F1 = []).
Proof.
  split; [|apply neededLoop_empty].
  intros Hle. pose proof (neededLoop_tiling F0 F1 Hle) as Ht. split.
  - by rewrite (tiling_length _ _ _ Ht).
  - by apply tiling_total.
Qed.

Lemma needed_tile_count_witness :
  0 <= 2499
  ∧ Z.of_nat (length (neededLoop 0 2499)) = 3
  ∧ total_frames (neededLoop 0 2499) = 2500.
Proof.
  assert (0 <= 2499) as Hle by lia.
  split; [exact Hle|].
  exact (proj1 (needed_tile_count 0 2499) Hle).
Defined.

(** ** The tiles a render stores are the needed tiles that were missing *)

(** The tiles that [computeSegmentAndPopulateTiles] cuts a segment
    into. *)
Definition seg_tiles (seg : Tile) : list Tile :=
  neededLoop (startFrame seg) (startFrame seg + frames seg - 1).

(** [k] full tiles from frame [s] on. *)
Fixpoint full_run (s : Z) (k : nat) : list Tile :=
  match k with
  | O => []
  | S k' => mkTile s TILE_FRAMES :: full_run (s + TILE_FRAMES) k'
  end.

Lemma full_run_snoc s k :
  full_run s (S k)
  = full_run s k ++ [mkTile (s + TILE_FRAMES * Z.of_nat k) TILE_FRAMES].
Proof.
  revert s. induction k as [|k IH]; intros s.
  - cbn [full_run app].
    replace (s + TILE_FRAMES * Z.of_nat 0) with s by lia. reflexivity.
  - change (full_run s (S (S k)))
      with (mkTile s TILE_FRAMES :: full_run (s + TILE_FRAMES) (S k)).
    rewrite IH. cbn [full_run app].
    replace (s + TILE_FRAMES + TILE_FRAMES * Z.of_nat k)
      with (s + TILE_FRAMES * Z.of_nat (S k)) by lia.
    reflexivity.
Qed.

Lemma neededLoop_full_run s k e :
  e = s + TILE_FRAMES * Z.of_nat k - 1 ->
  neededLoop s e = full_run s k.
Proof.
  revert s. induction k as [|k IH]; intros s ->.
  - rewrite neededLoop_empty; [done|lia].
  - rewrite neededLoop_eq.
    destruct (Z_le_gt_dec s (s + TILE_FRAMES * Z.of_nat (S k) - 1)) as [_|?];
      [|unfold TILE_FRAMES in *; lia].
    rewrite Z.min_l by (unfold TILE_FRAMES; lia).
    cbn [full_run]. f_equal. apply IH. lia.
Qed.

Lemma neededLoop_full_run_last s k c F1 :
  c = s + TILE_FRAMES * Z.of_nat k ->
  c <= F1 -> F1 - c + 1 <= TILE_FRAMES ->
  neededLoop s F1 = full_run s k ++ [mkTile c (F1 - c + 1)].
Proof.
  revert s. induction k as [|k IH]; intros s -> Hle Hw.
  - rewrite neededLoop_eq.
    destruct (Z_le_gt_dec s F1) as [_|?]; [|lia].
    rewrite Z.min_r by lia. rewrite neededLoop_empty by lia.
    cbn [full_run app].
    replace (s + TILE_FRAMES * Z.of_nat 0) with s by lia. reflexivity.
  - rewrite neededLoop_eq.
    destruct (Z_le_gt_dec s F1) as [_|?]; [|unfold TILE_FRAMES in *; lia].
    rewrite Z.min_l by (unfold TILE_FRAMES in *; lia).
    cbn [full_run app]. f_equal.
    apply IH; lia.
Qed.

Lemma segments_retile (flag : Tile -> bool) c F1 l :
  tiling c F1 l ->
  concat (map seg_tiles (segments None (map (fun t => (t, flag t)) l)))
  = List.filter (fun t => negb (flag t)) l
  ∧ ∀ s k,
      s + TILE_FRAMES * Z.of_nat (S k) = c ->
      concat (map seg_tiles
                (segments
                   (Some (mkTile s (TILE_FRAMES * Z.of_nat (S k))))
                   (map (fun t => (t, flag t)) l)))
      = full_run s (S k) ++ List.filter (fun t => negb (flag t)) l.
Proof.
  induction 1 as [c F1 H1 H2|c F1 rest H1 _ [IHn IHs]].
  - split; [|intros s k Hc]; cbn [map segments List.filter];
      destruct (flag _); cbn [negb map concat segments];
      unfold seg_tiles; cbn [startFrame frames]; rewrite ?app_nil_r.
    + done.
    + rewrite (neededLoop_full_run_last c 0 c) by lia.
      cbn [full_run app]. do 2 f_equal. lia.
    + apply neededLoop_full_run. lia.
    + rewrite (neededLoop_full_run_last s (S k) c) by lia.
      do 3 f_equal. lia.
  - split; [|intros s k Hc]; cbn [map segments List.filter];
      destruct (flag _); cbn [negb map concat segments].
    + done.
    + replace (mkTile c TILE_FRAMES)
        with (mkTile c (TILE_FRAMES * Z.of_nat 1)) at 1
        by (f_equal; lia).
      rewrite (IHs c 0%nat) by lia. cbn [full_run app].
      reflexivity.
    + rewrite IHn. f_equal. unfold seg_tiles. cbn [startFrame frames].
      apply neededLoop_full_run. lia.
    + cbn [startFrame frames].
      replace (TILE_FRAMES * Z.of_nat (S k) + TILE_FRAMES)
        with (TILE_FRAMES * Z.of_nat (S (S k))) by lia.
      rewrite (IHs s (S k)) by lia.
      rewrite (full_run_snoc s (S k)), <- app_assoc. cbn [app].
      replace (s + TILE_FRAMES * Z.of_nat (S k)) with c by lia.
      reflexivity.
Qed.

Lemma missing_segments_tiles cache fileId F0 F1 p :
  0 <= F0 -> F0 <= F1 ->
  concat (map seg_tiles (snd (analyzeTiles cache fileId F0 F1 p)))
  = missingTiles cache fileId p (neededLoop F0 F1).
Proof.
  intros H0 Hle. rewrite analyzeTiles_missing by done.
  apply (segments_retile _ F0 F1), neededLoop_tiling, Hle.
Qed.

(** X10. For a window that starts at a frame that is not negative, the
    missing segments, cut back into tiles the way
    [computeSegmentAndPopulateTiles] cuts them, are exactly the needed
    tiles that are not cached, in order: a render computes no tile it
    already has and leaves no needed tile out.  The second part ties the
    cut to the code: with rows of [n_mels] values each, the loop stores
    one entry per tile of the cut. *)
Theorem missing_segments_are_missing_tiles
    (cache : gmap string (list num)) (fileId : string) (F0 F1 : Z)
    (p : RenderParams) :
  0 <= F0 -> F0 <= F1 ->
  concat (map seg_tiles (snd (analyzeTiles cache fileId F0 F1 p)))
  = missingTiles cache fileId p (fst (analyzeTiles cache fileId F0 F1 p))
  ∧ ∀ seg usable c,
      rows_ok (n_mels p) usable ->
      storeTiles fileId seg p usable 0 c
      = (Ok tt,
         foldl (putTile fileId p usable (startFrame seg)) c (seg_tiles seg)).
Proof.
  intros H0 Hle. split.
  - by apply missing_segments_tiles.
  - intros seg usable c Hrows. rewrite storeTiles_closed by done.
    unfold seg_tiles. by rewrite Z.add_0_r.
Qed.

(** ** Cached tiles are never replaced *)

Lemma storeTiles_other fileId seg p usable key :
  ∀ cursor cache,
    (∀ t, t ∈ neededLoop (startFrame seg + cursor)
                (startFrame seg + frames seg - 1) ->
          key ≠ tileKey fileId (startFrame t) (frames t) p) ->
    snd (storeTiles fileId seg p usable cursor cache) !! key = cache !! key.
Proof.
  intros cursor.
  remember (Z.to_nat (frames seg - cursor)) as n eqn:Hn.
  revert cursor Hn. induction (lt_wf n) as [n _ IH].
  intros cursor -> cache Hne.
  rewrite storeTiles_eq.
  destruct (Z_lt_ge_dec cursor (frames seg)) as [Hlt|Hge]; [|done].
  cbv zeta. destruct (flattenMel _ _) as [flat|e]; [|done].
  rewrite neededLoop_eq in Hne.
  destruct (Z_le_gt_dec (startFrame seg + cursor)
              (startFrame seg + frames seg - 1)) as [_|?]; [|lia].
  replace (startFrame seg + frames seg - 1 - (startFrame seg + cursor) + 1)
    with (frames seg - cursor) in Hne by lia.
  set (this := Z.min TILE_FRAMES (frames seg - cursor)) in *.
  assert (0 < this) by (unfold this, TILE_FRAMES; lia).
  rewrite (IH (Z.to_nat (frames seg - (cursor + this))));
    [|lia|reflexivity|].
  - rewrite lookup_insert_ne; [done|].
    intros Heq. eapply Hne; [by left|]. by rewrite <- Heq.
  - intros t Ht. apply Hne. right. by rewrite <- Z.add_assoc.
Qed.

Section Immutable.

Variable Math_pow : num -> num -> num.
Variable mel_spectrogram_db :
  Z -> list num -> Z -> Z -> Z -> Q -> Q -> Z -> Z ->
  result (list (list num)).

Lemma computeSegment_other fileId seg p st key :
  (∀ t, t ∈ seg_tiles seg ->
        key ≠ tileKey fileId (startFrame t) (frames t) p) ->
  melTileCache
    (snd (computeSegmentAndPopulateTiles mel_spectrogram_db fileId seg p st))
    !! key
  = melTileCache st !! key.
Proof.
  intros Hne. rewrite computeSegment_eq. cbv zeta.
  destruct (pcmStore st !! fileId) as [entry|]; [|done].
  destruct (call_primitive _ _ _) as [melFrames|e]; [|done]. cbv zeta.
  pose proof (storeTiles_other fileId seg p
                (slice melFrames (n_fft p / hop_length p)
                   (n_fft p / hop_length p + frames seg))
                key 0 (melTileCache st)) as Ho.
  cbn [log_call melTileCache].
  destruct (storeTiles _ _ _ _ _ _) as [r cache]. simpl in *.
  apply Ho. intros t Ht. apply Hne. unfold seg_tiles.
  by rewrite Z.add_0_r in Ht.
Qed.

Lemma computeSegments_other fileId missing p key :
  ∀ st,
    (∀ t, t ∈ concat (map seg_tiles missing) ->
          key ≠ tileKey fileId (startFrame t) (frames t) p) ->
    melTileCache
      (snd (computeSegments mel_spectrogram_db fileId missing p st)) !! key
    = melTileCache st !! key.
Proof.
  induction missing as [|seg rest IH]; intros st Hne; [done|].
  cbn [computeSegments].
  pose proof (computeSegment_other fileId seg p st key) as H1.
  destruct (computeSegmentAndPopulateTiles _ _ _ _ _) as [[[]|e] st1];
    simpl in *.
  - rewrite IH.
    + apply H1. intros t Ht. apply Hne, elem_of_app. by left.
    + intros t Ht. apply Hne, elem_of_app. by right.
  - apply H1. intros t Ht. apply Hne, elem_of_app. by left.
Qed.

Lemma assemble_keeps fileId p st key :
  valid_window p ->
  is_Some (melTileCache st !! key) ->
  melTileCache (snd (assembleWindowMel mel_spectrogram_db fileId p st)) !! key
  = melTileCache st !! key.
Proof.
  intros Hv Hk. unfold assembleWindowMel.
  destruct (valid_window_frames p Hv) as (F0 & F1 & -> & H0 & Hle).
  pose proof (missing_segments_tiles (melTileCache st) fileId F0 F1 p H0 Hle)
    as Hm.
  destruct (analyzeTiles _ _ _ _ _) as [needed missing]. simpl in Hm.
  pose proof (computeSegments_other fileId missing p key st) as Ho.
  assert (∀ t, t ∈ concat (map seg_tiles missing) ->
               key ≠ tileKey fileId (startFrame t) (frames t) p) as Hne.
  { intros t Ht. rewrite Hm in Ht.
    apply list_elem_of_In, filter_In in Ht as [_ Ht].
    intros ->. unfold has_key in Ht. destruct Hk as [v Hk].
    by rewrite Hk in Ht. }
  destruct (computeSegments _ _ _ _ _) as [[[]|e] st1]; simpl in *.
  - destruct (concatTiles _); simpl; by apply Ho.
  - by apply Ho.
Qed.

Definition well_formed (m : Msg) : Prop :=
  match m with
  | RenderMsg _ p => valid_window p
  | _ => True
  end.

(** X11. Whatever messages the worker handles, as long as the windows it is
    asked to render have positive rates and a start time that is not
    negative: a tile that is cached stays cached with the value it has
    (nothing is evicted or recomputed, whatever the replies are), and a
    file whose PCM is loaded stays loaded. *)
Theorem cache_entries_are_permanent (msgs : list Msg) (st : State)
    (key : string) (tile : list num) (fileId : string) :
  Forall well_formed msgs ->
  let st' := snd (run Math_pow mel_spectrogram_db msgs st) in
  (melTileCache st !! key = Some tile -> melTileCache st' !! key = Some tile)
  ∧ (is_Some (pcmStore st !! fileId) -> is_Some (pcmStore st' !! fileId)).
Proof.
  intros Hwf. revert st. induction Hwf as [|m msgs Hm _ IH]; intros st.
  { by split. }
  cbn [run].
  assert (let st1 := snd (onmessage Math_pow mel_spectrogram_db m st) in
          (melTileCache st !! key = Some tile ->
           melTileCache st1 !! key = Some tile)
          ∧ (is_Some (pcmStore st !! fileId) ->
             is_Some (pcmStore st1 !! fileId))) as H1.
  { cbv zeta. destruct m as [|f sr pcm|f p]; cbn [onmessage snd].
    - destruct (ensureWasm_frame st) as (-> & -> & _). by split.
    - simpl. split; [done|]. intros Hs.
      destruct (decide (f = fileId)) as [->|Hne].
      + rewrite lookup_insert_eq. by eexists.
      + by rewrite lookup_insert_ne.
    - rewrite render_reply. cbn [snd].
      destruct (ensureWasm_frame st) as (Hp & Hc & _).
      split.
      + intros Hk. rewrite assemble_keeps; [by rewrite Hc|done|].
        rewrite Hc, Hk. by eexists.
      + pose proof (assemble_frame mel_spectrogram_db f p
                      (ensureWasmInitialized st)) as [Hp' _].
        simpl in Hp'. by rewrite Hp', Hp. }
  destruct (onmessage _ _ m st) as [out st1]. simpl in H1.
  specialize (IH st1).
  destruct (run _ _ msgs st1) as [outs st2]. simpl in *.
  destruct H1 as [H1 H2], IH as [IH1 IH2]. split; auto.
Qed.

End Immutable.

(** ** Tiling against one un-tiled computation *)

Lemma lookups_Some_inv {A} (f : Tile -> option A) (l : list Tile) :
  ∀ vals, map f l = map Some vals -> Forall2 (fun t v => f t = Some v) l vals.
Proof.
  induction l as [|t l IH]; intros [|v vals] Heq;
    [constructor|discriminate|discriminate|].
  injection Heq as Ht Heq. constructor; [done|by apply IH].
Qed.

Section Reference.

Variable mel_spectrogram_db :
  Z -> list num -> Z -> Z -> Z -> Q -> Q -> Z -> Z ->
  result (list (list num)).

(** An assembled buffer is made of the cache entries of the needed
    tiles, as the cache has them after the segments were computed. *)
Lemma assemble_Ok_tiles fileId p st mel n st' :
  assembleWindowMel mel_spectrogram_db fileId p st = (Ok (mel, n), st') ->
  ∃ F0 F1 tiles,
    framesForWindow p = Some (F0, F1) ∧ n = F1 - F0 + 1
    ∧ mel = concat tiles
    ∧ Forall2
        (fun t tile =>
           melTileCache st' !! tileKey fileId (startFrame t) (frames t) p
           = Some tile)
        (neededLoop F0 F1) tiles.
Proof.
  unfold assembleWindowMel.
  destruct (framesForWindow p) as [[F0 F1]|]; [|done].
  destruct (analyzeTiles _ _ _ _ _) as [needed missing] eqn:Han.
  assert (needed = neededLoop F0 F1) as ->.
  { unfold analyzeTiles in Han. by injection Han as <- _. }
  destruct (computeSegments _ _ _ _ _) as [[[]|e] st1]; [|done].
  destruct (concatTiles _) as [mel'|e] eqn:Hcat; [|done].
  intros [= <- <- <-].
  destruct (concatTiles_Ok_inv _ _ Hcat) as (tiles & Hmap & ->).
  exists F0, F1, tiles. do 3 (split; [done|]).
  by apply lookups_Some_inv.
Qed.

(** C1 (as amended). For a render of a valid window.  When the PCM is
    loaded, none of the needed tiles is cached and the primitive returns
    rows of [n_mels] columns, the assembled buffer and frame count are
    those of one call of the primitive over the whole frame range with
    the same padding and the same discard of floor(n_fft/hop_length)
    frames, also where the left padding is clamped at sample 0.  In every
    case the assembled buffer is the concatenation, in order, of the
    cache entries of the needed tiles, and a tile that was cached before
    the render is reused as stored: its entry is the one it had. *)
Theorem cold_window_equals_single_call
    (st : State) (fileId : string) (p : RenderParams) :
  valid_window p ->
  (∀ entry,
     pcmStore st !! fileId = Some entry ->
     cold_window st fileId p ->
     primitive_rows_ok mel_spectrogram_db p ->
     fst (assembleWindowMel mel_spectrogram_db fileId p st)
     = referenceWindowMel mel_spectrogram_db fileId p st)
  ∧ (∀ mel n st',
       assembleWindowMel mel_spectrogram_db fileId p st
       = (Ok (mel, n), st') ->
       ∃ F0 F1 tiles,
         framesForWindow p = Some (F0, F1) ∧ n = F1 - F0 + 1
         ∧ mel = concat tiles
         ∧ Forall2
             (fun t tile =>
                melTileCache st'
                  !! tileKey fileId (startFrame t) (frames t) p
                = Some tile
                ∧ ∀ old,
                    melTileCache st
                      !! tileKey fileId (startFrame t) (frames t) p
                    = Some old ->
                    tile = old)
             (neededLoop F0 F1) tiles).
Proof.
  intros Hv. split.
  - intros entry Hl Hcold Hrows.
    destruct (valid_window_frames p Hv) as (F0 & F1 & HF & H0 & _).
    apply (cold_assemble_reference mel_spectrogram_db st fileId p entry F0 F1);
      try done.
    intros melFrames Hprim. by eapply Hrows.
  - intros mel n st' Has.
    destruct (assemble_Ok_tiles fileId p st mel n st' Has)
      as (F0 & F1 & tiles & HF & Hn & Hmel & Htiles).
    exists F0, F1, tiles. do 3 (split; [done|]).
    eapply Forall2_impl; [exact Htiles|].
    intros t tile Ht. cbv beta in Ht. split; [done|].
    intros old Hold.
    pose proof (assemble_keeps mel_spectrogram_db fileId p st
                  (tileKey fileId (startFrame t) (frames t) p) Hv
                  ltac:(by rewrite Hold)) as Hkeep.
    rewrite Has in Hkeep. cbn [snd] in Hkeep.
    rewrite Ht, Hold in Hkeep. by injection Hkeep.
Qed.

End Reference.

(** Two and a half seconds of the long file from a cold cache: three
    tiles, cut from one call and put together again.  And the first two
    seconds after the first second was rendered: the assembled buffer
    starts with the cached tile. *)
Lemma cold_window_equals_single_call_witness :
  let p := long_params 0 (5 # 2) in
  let q := long_params 0 2 in
  valid_window p
  ∧ neededLoop 0 2559 = [mkTile 0 1024; mkTile 1024 1024; mkTile 2048 512]
  ∧ framesForWindow p = Some (0, 2559)
  ∧ pcmStore longer_loaded !! "a" = Some (mkPcm 1024 (ramp 4200))
  ∧ cold_window longer_loaded "a" p
  ∧ primitive_rows_ok framing_primitive p
  ∧ fst (assembleWindowMel framing_primitive "a" p longer_loaded)
    = referenceWindowMel framing_primitive "a" p longer_loaded
  ∧ valid_window q
  ∧ ∃ mel cached rest,
      fst (assembleWindowMel framing_primitive "a" q
             long_after_first_second)
      = Ok (mel, 2048)
      ∧ melTileCache long_after_first_second !! tileKey "a" 0 1024 q
        = Some cached
      ∧ mel = cached ++ rest.
Proof.
  intros p q.
  assert (valid_window p) as Hv by (repeat split; vm_compute; congruence).
  assert (valid_window q) as Hvq by (repeat split; vm_compute; congruence).
  assert (pcmStore longer_loaded !! "a" = Some (mkPcm 1024 (ramp 4200)))
    as Hl by (vm_compute; reflexivity).
  assert (cold_window longer_loaded "a" p) as Hcold
    by (intros F0 F1 t _ _; apply lookup_empty).
  assert (primitive_rows_ok framing_primitive p) as Hrows
    by (apply framing_rows_ok; vm_compute; congruence).
  split; [exact Hv|]. split; [vm_compute; reflexivity|].
  split; [reflexivity|]. split; [exact Hl|]. split; [exact Hcold|].
  split; [exact Hrows|]. split.
  - exact (proj1 (cold_window_equals_single_call framing_primitive
                    longer_loaded "a" p Hv) _ Hl Hcold Hrows).
  - split; [exact Hvq|].
    assert (∃ mel n st',
              assembleWindowMel framing_primitive "a" q
                long_after_first_second = (Ok (mel, n), st'))
      as (mel & n & st' & Has) by (vm_compute; do 3 eexists; reflexivity).
    assert (∃ cached,
              melTileCache long_after_first_second !! tileKey "a" 0 1024 q
              = Some cached) as [cached Hc] by (vm_compute; eauto).
    destruct (proj2 (cold_window_equals_single_call framing_primitive
                       long_after_first_second "a" q Hvq) mel n st' Has)
      as (F0 & F1 & tiles & HF & Hn & Hmel & Htiles).
    assert (framesForWindow q = Some (0, 2047)) as HF' by reflexivity.
    rewrite HF' in HF. injection HF as <- <-.
    change (neededLoop 0 2047) with [mkTile 0 1024; mkTile 1024 1024]
      in Htiles.
    apply Forall2_cons_inv_l in Htiles as (tile & tiles' & [_ Hold] & _ & ->).
    cbn [startFrame frames] in Hold.
    exists mel, cached, (concat tiles').
    split; [by rewrite Has, Hn|]. split; [exact Hc|].
    by rewrite Hmel, (Hold cached Hc).
Defined.

(** ** A window whose first frame is -1 *)

(** While no segment is open, the end of the last segment is not
    looked at. *)
Lemma scan_ignores_end (flag : Tile -> bool) (l : list Tile) :
  ∀ acc e,
    scanFinish
      (foldl (fun s t => scanTile (flag t) t s) (mkScan acc (-1) e) l)
    = scanFinish
        (foldl (fun s t => scanTile (flag t) t s) (mkScan acc (-1) (-1)) l).
Proof.
  induction l as [|t l IH]; intros acc e; [done|].
  cbn [foldl].
  assert (∀ e', scanTile (flag t) t (mkScan acc (-1) e')
                = if flag t then mkScan acc (-1) e'
                  else mkScan acc (startFrame t)
                         (startFrame t + frames t - 1)) as Hstep.
  { intros e'. unfold scanTile. by destruct (flag t). }
  rewrite !Hstep. destruct (flag t); [apply IH|done].
Qed.

(** With the first tile starting at frame -1 and not cached, the scan
    takes the start of the open segment for the mark of no segment: the
    segments are those of the window without its first tile. *)
Lemma analyzeTiles_minus_one cache fileId F1 p :
  -1 <= F1 ->
  cache !! tileKey fileId (-1) (Z.min TILE_FRAMES (F1 + 2)) p = None ->
  analyzeTiles cache fileId (-1) F1 p
  = (mkTile (-1) (Z.min TILE_FRAMES (F1 + 2))
       :: neededLoop (Z.min TILE_FRAMES (F1 + 2) - 1) F1,
     snd (analyzeTiles cache fileId (Z.min TILE_FRAMES (F1 + 2) - 1) F1 p)).
Proof.
  intros Hle Hnone. unfold analyzeTiles. cbn [snd].
  rewrite (neededLoop_eq (-1) F1).
  destruct (Z_le_gt_dec (-1) F1) as [_|?]; [|lia].
  replace (F1 - -1 + 1) with (F1 + 2) by lia.
  replace (-1 + Z.min TILE_FRAMES (F1 + 2))
    with (Z.min TILE_FRAMES (F1 + 2) - 1) by lia.
  f_equal. cbn [foldl startFrame frames].
  replace (has_key cache
             (tileKey fileId (-1) (Z.min TILE_FRAMES (F1 + 2)) p))
    with false by (unfold has_key; by rewrite Hnone).
  change (scanTile false (mkTile (-1) (Z.min TILE_FRAMES (F1 + 2)))
            (mkScan [] (-1) (-1)))
    with (mkScan [] (-1) (-1 + Z.min TILE_FRAMES (F1 + 2) - 1)).
  apply (scan_ignores_end
           (fun t => has_key cache
                       (tileKey fileId (startFrame t) (frames t) p))).
Qed.

Section MinusOne.

Variable Math_pow : num -> num -> num.
Variable mel_spectrogram_db :
  Z -> list num -> Z -> Z -> Z -> Q -> Q -> Z -> Z ->
  result (list (list num)).

(** X12. A render whose window starts at frame -1 (a start time just below
    zero) while its first tile is not cached is always answered with an
    error, whether the PCM is loaded or not, and leaves that tile
    uncached, so that repeating the request fails again.  When the
    window is a single tile the error is the [TypeError] of
    [concatTiles] and the primitive is not invoked at all. *)
Theorem window_from_frame_minus_one_fails (fileId : string)
    (p : RenderParams) (st : State) (F1 : Z) :
  framesForWindow p = Some (-1, F1) ->
  melTileCache st !! tileKey fileId (-1) (Z.min TILE_FRAMES (F1 + 2)) p
  = None ->
  let r := render Math_pow mel_spectrogram_db fileId p st in
  (∃ e, fst r = ErrorReply e)
  ∧ melTileCache (snd r)
      !! tileKey fileId (-1) (Z.min TILE_FRAMES (F1 + 2)) p = None
  ∧ (F1 < TILE_FRAMES - 1 ->
     r = (ErrorReply TypeError, ensureWasmInitialized st)).
Proof.
  intros HF Hnone r. unfold r. clear r. rewrite render_reply. cbn [fst snd].
  set (st0 := ensureWasmInitialized st).
  destruct (ensureWasm_frame st) as (_ & Hc & _). fold st0 in Hc.
  pose proof (framesForWindow_nonempty _ _ _ HF) as Hle.
  set (n := Z.min TILE_FRAMES (F1 + 2)) in *.
  unfold assembleWindowMel. rewrite HF, Hc.
  rewrite analyzeTiles_minus_one by done. fold n.
  set (missing := snd (analyzeTiles (melTileCache st) fileId (n - 1) F1 p)).
  assert (melTileCache
            (snd (computeSegments mel_spectrogram_db fileId missing p st0))
            !! tileKey fileId (-1) n p = None) as Hstill.
  { rewrite (computeSegments_other mel_spectrogram_db); [by rewrite Hc|].
    intros t Ht. apply tileKey_ne.
    destruct (Z_le_gt_dec (n - 1) F1) as [Hin|Hout].
    - unfold missing in Ht.
      rewrite missing_segments_tiles in Ht
        by (unfold n, TILE_FRAMES in *; lia).
      apply list_elem_of_In, filter_In in Ht as [Ht _].
      apply list_elem_of_In in Ht.
      pose proof (consecutive_starts _ _ _
                    (tiling_consecutive _ _ _ (neededLoop_tiling _ _ Hin)) Ht).
      intros [= Hs _]. unfold n, TILE_FRAMES in *. lia.
    - unfold missing, analyzeTiles in Ht. cbn [snd] in Ht.
      rewrite neededLoop_empty in Ht by lia. by inversion Ht. }
  split; [|split].
  - destruct (computeSegments _ _ _ _ _) as [[[]|e] st1]; cbn [fst replyOf];
      [|by eexists].
    cbn [map startFrame frames]. simpl in Hstill. rewrite Hstill.
    rewrite concatTiles_absent by (by left). by eexists.
  - destruct (computeSegments _ _ _ _ _) as [[[]|e] st1]; [|done].
    cbn [map startFrame frames]. simpl in Hstill. rewrite Hstill.
    by rewrite concatTiles_absent by (by left).
  - intros Hsingle.
    assert (missing = []) as ->.
    { unfold missing, analyzeTiles. cbn [snd].
      rewrite neededLoop_empty; [done|]. unfold n, TILE_FRAMES in *. lia. }
    cbn [computeSegments map startFrame frames]. rewrite Hc, Hnone.
    by rewrite concatTiles_absent by (by left).
Qed.

End MinusOne.

(** ** The gain bounds *)

Lemma insert_sorted_length x l :
  length (insert_sorted x l) = S (length l).
Proof.
  induction l as [|y l IH]; [done|]. simpl.
  destruct (Qle_bool x y); simpl; by rewrite ?IH.
Qed.

Lemma sort_asc_length l : length (sort_asc l) = length l.
Proof.
  induction l as [|x l IH]; [done|].
  unfold sort_asc in *. cbn [foldr]. by rewrite insert_sorted_length, IH.
Qed.

(** Reading the sorted finite values gives one of them or, outside the
    array or at an index that is no integer, [undefined]. *)
Lemma arr_get_num_sorted (l : list Q) (i : num) :
  arr_get_num (Fin <$> l) i = NaN ∨ ∃ q, arr_get_num (Fin <$> l) i = Fin q.
Proof.
  unfold arr_get_num, arr_get. destruct i as [q| | |]; [|by left..].
  destruct (Qeq_bool _ _); [|by left].
  destruct (_ <? 0); [by left|].
  rewrite list_lookup_fmap. destruct (l !! _); simpl; eauto.
Qed.

Lemma arr_get_num_inside (l : list Q) (q : Q) (k : Z) :
  (q == inject_Z k)%Q -> 0 <= k < Z.of_nat (length l) ->
  ∃ v, arr_get_num (Fin <$> l) (Fin q) = Fin v.
Proof.
  intros Hq Hk. unfold arr_get_num, arr_get.
  assert (Qfloor q = k) as Hf by (by rewrite Hq, Qfloor_Z).
  rewrite Hf.
  assert (Qeq_bool q (inject_Z k) = true) as -> by (by apply Qeq_bool_iff).
  destruct (Z.ltb_spec k 0); [lia|].
  rewrite list_lookup_fmap.
  destruct (lookup_lt_is_Some_2 l (Z.to_nat k)) as [v ->]; [lia|].
  simpl. eauto.
Qed.

Definition ordered_bounds (acc : num * num) : Prop :=
  ∃ a b, acc = (Fin a, Fin b) ∧ (a <= b)%Q.

Lemma minmax_step_ordered acc v :
  ordered_bounds acc -> ordered_bounds (minmax_step acc v).
Proof.
  intros (a & b & -> & Hab). unfold minmax_step, ordered_bounds.
  destruct v as [q| | |]; simpl; [|eauto..].
  unfold gtb, ltb. qltb_cases; eexists _, _; (split; [done|]); lra.
Qed.

Lemma minmax_fold_ordered mel :
  ∀ acc, ordered_bounds acc -> ordered_bounds (foldl minmax_step acc mel).
Proof.
  induction mel as [|v mel IH]; intros acc Hacc; [done|].
  cbn [foldl]. by apply IH, minmax_step_ordered.
Qed.

Lemma minmax_fold_start mel :
  (finite_values mel = [] -> foldl minmax_step (PInf, NInf) mel = (PInf, NInf))
  ∧ (finite_values mel ≠ [] ->
     ordered_bounds (foldl minmax_step (PInf, NInf) mel)).
Proof.
  induction mel as [|v mel [IH1 IH2]]; [by split|].
  unfold finite_values in *. cbn [omap foldl].
  destruct v as [q| | |]; simpl; try (split; [apply IH1|apply IH2]).
  split; [done|]. intros _. apply minmax_fold_ordered.
  exists q, q. split; [done|lra].
Qed.

Lemma round_half_even_near (x : Q) :
  (Qabs (inject_Z (round_half_even x) - x) <= 1 # 2)%Q.
Proof.
  unfold round_half_even.
  pose proof (Qfloor_le x) as Hlo. pose proof (Qlt_floor x) as Hhi.
  rewrite inject_Z_plus in Hhi. change (inject_Z 1) with 1%Q in Hhi.
  apply Qabs_Qle_condition.
  destruct (x - inject_Z (Qfloor x) ?= 1 # 2)%Q eqn:E.
  - apply Qeq_alt in E.
    destruct (Z.even (Qfloor x)); rewrite ?inject_Z_plus;
      change (inject_Z 1) with 1%Q; lra.
  - apply Qlt_alt in E. lra.
  - apply Qgt_alt in E. rewrite inject_Z_plus.
    change (inject_Z 1) with 1%Q. lra.
Qed.

Lemma binade_le (q : Q) : ¬ (q == 0)%Q -> (2 ^ binade q <= Qabs q)%Q.
Proof.
  intros Hq. unfold binade.
  set (n := Z.abs (Qnum q)). set (d := Zpos (Qden q)).
  set (k := Z.log2 n - Z.log2 d).
  destruct (Qle_bool (2 ^ k) (Qabs q)) eqn:E; [by apply Qle_bool_iff|].
  assert (0 < n) as Hn.
  { unfold n. destruct q as [[|a|a] b]; simpl; try lia.
    exfalso. apply Hq. reflexivity. }
  assert (0 < d) as Hd by (unfold d; lia).
  destruct (Z.log2_spec n Hn) as [Hn1 _].
  destruct (Z.log2_spec d Hd) as [_ Hd2].
  pose proof (Z.log2_nonneg n). pose proof (Z.log2_nonneg d).
  replace (k - 1) with (Z.log2 n - Z.succ (Z.log2 d)) by (unfold k; lia).
  rewrite Qpower_minus by discriminate.
  rewrite <- !(Zpower_Qpower 2) by lia.
  assert (Qabs q == inject_Z n / inject_Z d)%Q as ->.
  { destruct q as [a b]. unfold n, d. simpl. apply Qmake_Qdiv. }
  apply Qle_shift_div_l.
  { change 0%Q with (inject_Z 0). rewrite <- Zlt_Qlt. lia. }
  unfold Qdiv. rewrite <- Qmult_assoc, (Qmult_comm (/ _)), Qmult_assoc.
  apply Qle_shift_div_r.
  { change 0%Q with (inject_Z 0). rewrite <- Zlt_Qlt. lia. }
  rewrite <- !inject_Z_mult, <- Zle_Qle. nia.
Qed.

(** Below [2^34] the double nearest to a number is at most [2^-20]
    away. *)
Lemma to_double_near (x : Q) :
  (Qabs x < 17179869184)%Q ->
  (Qabs (to_double x - x) <= 1 # 1048576)%Q.
Proof.
  intros Hx. unfold to_double.
  destruct (Qeq_bool x 0) eqn:E.
  { apply Qeq_bool_iff in E. rewrite E. vm_compute. discriminate. }
  assert (¬ (x == 0)%Q) as Hne.
  { intros H. apply Qeq_bool_iff in H. congruence. }
  cbv zeta. rewrite Qred_correct.
  set (e := binade x - 52).
  assert (0 < 2 ^ e)%Q as Hpos by (by apply Qpower_0_lt).
  assert (e <= -19) as He.
  { pose proof (binade_le x Hne) as Hb.
    assert (2 ^ binade x < 2 ^ 34)%Q as Hlt.
    { eapply Qle_lt_trans; [exact Hb|]. exact Hx. }
    apply Qpower_lt_compat_l_inv in Hlt; [|reflexivity]. unfold e. lia. }
  assert (2 ^ e <= 2 ^ (-19))%Q as Hpe
    by (apply Qpower_le_compat_l; [lia|discriminate]).
  set (y := (x / 2 ^ e)%Q).
  assert (x == y * 2 ^ e)%Q as Hxy.
  { unfold y. field. intros H. rewrite H in Hpos. by apply Qlt_irrefl in Hpos. }
  pose proof (round_half_even_near y) as Hr.
  set (R := inject_Z (round_half_even y)) in *.
  assert (R * 2 ^ e - x == (R - y) * 2 ^ e)%Q as -> by (rewrite Hxy at 1; ring).
  rewrite Qabs_Qmult, (Qabs_pos (2 ^ e)) by lra.
  change (2 ^ (-19))%Q with (1 # 524288)%Q in Hpe.
  assert (0 <= Qabs (R - y))%Q by apply Qabs_nonneg.
  nra.
Qed.

(** Up to [2^33] in magnitude, adding [1e-6] to a number moves its
    double. *)
Lemma add_eps_above (a : Q) :
  (Qabs a <= 8589934592)%Q ->
  (a < to_double (a + to_double (1 # 1000000)))%Q.
Proof.
  intros Ha. set (eps := to_double (1 # 1000000)).
  assert ((1 # 1048576) < eps)%Q as He1 by reflexivity.
  assert (eps < 1)%Q as He2 by reflexivity.
  apply Qabs_Qle_condition in Ha as [Ha1 Ha2].
  assert (Qabs (a + eps) < 17179869184)%Q as Hx
    by (apply Qabs_Qlt_condition; split; lra).
  pose proof (to_double_near (a + eps) Hx) as Hn.
  apply Qabs_Qle_condition in Hn as [Hn1 Hn2]. lra.
Qed.

(** X13. As soon as the window holds one finite value, the gain bounds are
    two finite numbers, whatever [gainPercentile] is (negative, above
    100, infinite or [NaN] included).  The upper one is above the lower
    one or is the double nearest to [smin + 1e-6]: that is above [smin]
    as long as [|smin| <= 2^33], while for a large [smin] it is [smin]
    itself, as for a buffer that holds the value 2e10 alone; the divisor
    of the display mapper is then zero and every value is normalized to
    0 by the [isFinite] guard.  A window without any finite value has
    both bounds at [+Infinity]. *)
Theorem gain_bounds_are_ordered (p : RenderParams) (mel : list num) :
  (finite_values mel ≠ [] ->
   ∃ a b, gainBounds p mel = (Fin a, Fin b)
          ∧ ((a < b)%Q ∨ b = to_double (a + to_double (1 # 1000000)))
          ∧ ((Qabs a <= 8589934592)%Q -> (a < b)%Q))
  ∧ (finite_values mel = [] -> gainBounds p mel = (PInf, PInf))
  ∧ (dynamicGain p = false ->
     gainBounds p [Fin 20000000000]
     = (Fin 20000000000, Fin 20000000000))
  ∧ (∀ a v, normalizedValue (Fin a) (Fin a) v = zero).
Proof.
  destruct (minmax_fold_start mel) as [Hnone Hsome].
  assert (∀ a (hi : num),
            hi = NaN ∨ (∃ q, hi = Fin q) ->
            ∃ b, (if negb (gtb hi (Fin a))
                  then add_double (Fin a) (Fin (to_double (1 # 1000000)))
                  else hi) = Fin b
                 ∧ ((a < b)%Q
                    ∨ b = to_double (a + to_double (1 # 1000000)))
                 ∧ ((Qabs a <= 8589934592)%Q -> (a < b)%Q)) as Hguard.
  { intros a hi [->|[q ->]]; cbn [gtb ltb negb add_double add].
    - eexists. split; [done|]. split; [by right|apply add_eps_above].
    - destruct (Qltb a q) eqn:Hlt; cbn [negb].
      + apply Qltb_true in Hlt. exists q. split; [done|]. split; [by left|done].
      + eexists. split; [done|]. split; [by right|apply add_eps_above]. }
  split; [|split; [|split]].
  - intros Hfin. unfold gainBounds.
    destruct (Hsome Hfin) as (lo & hi & -> & Hle).
    destruct (dynamicGain p).
    + rewrite length_fmap, sort_asc_length.
      destruct (finite_values mel) as [|x l] eqn:Hl; [done|].
      set (vals := x :: l) in *.
      assert (0 < Z.of_nat (length vals)) as Hpos by (simpl; lia).
      destruct (Nat.ltb_spec 0 (length vals)) as [_|?]; [|simpl in *; lia].
      set (len := Z.of_nat (length vals)) in *.
      assert (∃ a, arr_get_num (Fin <$> sort_asc vals)
                     (Math_min
                        (Math_floor (mul (Fin (5 # 100))
                                       (num_of_nat (length vals))))
                        (sub (num_of_nat (length vals)) one))
                   = Fin a) as [a ->].
      { unfold num_of_nat, Math_floor, mul, sub, add, neg, one, Math_min, ltb.
        fold len.
        set (k := Qfloor ((5 # 100) * inject_Z len)).
        assert (0 <= k).
        { unfold k. change 0 with (Qfloor 0). apply Qfloor_resp_le.
          assert (0 <= inject_Z len)%Q
            by (change 0%Q with (inject_Z 0); rewrite <- Zle_Qle; lia).
          nra. }
        assert (inject_Z len + - (1) == inject_Z (len - 1))%Q as Hm
          by (unfold Z.sub; rewrite inject_Z_plus; reflexivity).
        destruct (Qltb _ _) eqn:Hlt;
          [apply Qltb_true in Hlt|apply Qltb_false in Hlt].
        - apply (arr_get_num_inside _ _ (len - 1)); [done|].
          rewrite sort_asc_length. lia.
        - apply (arr_get_num_inside _ _ k); [reflexivity|].
          rewrite sort_asc_length. rewrite Hm, <- Zle_Qle in Hlt.
          fold len. lia. }
      match goal with
      | |- context [gtb ?h (Fin a)] =>
          destruct (Hguard a h (arr_get_num_sorted (sort_asc vals) _))
            as (b & -> & Hab)
      end.
      eauto.
    + destruct (Hguard lo (Fin hi)) as (b & -> & Hab); eauto.
  - intros Hfin. unfold gainBounds. rewrite (Hnone Hfin).
    rewrite length_fmap, sort_asc_length, Hfin.
    by destruct (dynamicGain p).
  - intros Hdyn. unfold gainBounds. rewrite Hdyn. vm_compute. reflexivity.
  - intros a v. unfold normalizedValue. cbv zeta.
    assert (Qeq_bool (a + - a) 0 = true) as Hz
      by (apply Qeq_bool_iff; ring).
    destruct v as [q| | |]; cbn [sub add neg div sign isFinite negb];
      rewrite ?Hz; cbn [sign signed_inf];
      try destruct (q + - a ?= 0)%Q; reflexivity.
Qed.

(** ** Changing the display parameters *)

Lemma framesForWindow_same p p' :
  sampleRate p = sampleRate p' -> hop_length p = hop_length p' ->
  (t0 p == t0 p')%Q -> (windowDuration p == windowDuration p')%Q ->
  framesForWindow p = framesForWindow p'.
Proof.
  intros Hsr Hhop Ht Hw. unfold framesForWindow. rewrite <- Hsr, <- Hhop.
  destruct (hop_length p =? 0); [done|]. cbv zeta.
  set (fps := (inject_Z (sampleRate p) / inject_Z (hop_length p))%Q).
  assert (Qfloor (t0 p * fps) = Qfloor (t0 p' * fps)) as ->
    by (apply Qfloor_comp; by rewrite Ht).
  assert (Qfloor (windowDuration p * fps) = Qfloor (windowDuration p' * fps))
    as -> by (apply Qfloor_comp; by rewrite Hw).
  done.
Qed.

Section DisplayChange.

Variable Math_pow : num -> num -> num.
Variable mel_spectrogram_db :
  Z -> list num -> Z -> Z -> Z -> Q -> Q -> Z -> Z ->
  result (list (list num)).

(** X14. After a render that was answered with an image, a request for the
    same window of the same file with the same analysis parameters and
    any display parameters (gain, gamma, brightness, contrast, colormap)
    is served from the cache: the worker state, the log of primitive
    invocations included, is unchanged, and the reply is the display of
    the very buffer the cache held for the first request. *)
Theorem display_change_reuses_tiles (fileId : string) (p p' : RenderParams)
    (st st' : State) (img : Image) :
  same_analysis p p' ->
  (t0 p == t0 p')%Q -> (windowDuration p == windowDuration p')%Q ->
  render Math_pow mel_spectrogram_db fileId p st = (ImageReply img, st') ->
  ∃ mel frames,
    cachedWindowMel (melTileCache st') fileId p = Ok (mel, frames)
    ∧ 0 < frames
    ∧ render Math_pow mel_spectrogram_db fileId p' st'
      = (match displayImage Math_pow p' mel frames with
         | Ok img' => ImageReply img'
         | Throw e => ErrorReply e
         end, st').
Proof.
  intros Hsame Ht Hw. rewrite render_reply. intros Hr.
  set (st0 := ensureWasmInitialized st) in *.
  destruct (assembleWindowMel mel_spectrogram_db fileId p st0)
    as [[[mel frames]|e] st1] eqn:Has; cbn [fst snd] in Hr; [|done].
  injection Hr as Hreply <-.
  destruct (assemble_again mel_spectrogram_db fileId p st0 _ st1 Has)
    as [Hwarm Hagain].
  rewrite assemble_warm in Hagain by done. injection Hagain as Hc.
  assert (0 < frames) as Hpos.
  { destruct (assemble_frames mel_spectrogram_db fileId p st0 mel frames)
      as (F0 & F1 & _ & _ & ?); [by rewrite Has|lia]. }
  exists mel, frames. split; [done|]. split; [done|].
  assert (framesForWindow p = framesForWindow p') as HF.
  { destruct Hsame as (? & _ & _ & ? & _). by apply framesForWindow_same. }
  assert (warm_window (melTileCache st1) fileId p') as Hwarm'.
  { intros F0 F1 t HF' Hin.
    rewrite <- (tileKey_same_analysis fileId _ _ p p' Hsame).
    apply (Hwarm F0 F1); [by rewrite HF|done]. }
  assert (cachedWindowMel (melTileCache st1) fileId p' = Ok (mel, frames))
    as Hc'.
  { rewrite <- Hc. unfold cachedWindowMel. rewrite <- HF.
    destruct (framesForWindow p) as [[F0 F1]|]; [|done].
    erewrite map_ext; [reflexivity|]. intros t. cbv beta.
    by rewrite (tileKey_same_analysis fileId _ _ p p' Hsame). }
  assert (wasmReady st1 = true) as Hready.
  { pose proof (assemble_frame mel_spectrogram_db fileId p st0) as [_ Hw'].
    rewrite Has in Hw'. simpl in Hw'. rewrite Hw'.
    unfold st0, ensureWasmInitialized. by destruct (wasmReady st) eqn:E. }
  rewrite render_reply.
  assert (ensureWasmInitialized st1 = st1) as ->
    by (unfold ensureWasmInitialized; by rewrite Hready).
  rewrite assemble_warm by done. rewrite Hc'. cbn [fst snd replyOf].
  destruct (Z.leb_spec frames 0); [lia|done].
Qed.

End DisplayChange.

(** ** Layout of the image *)

(** X15. The image of a window is [frames] pixels wide and [n_mels] high,
    four bytes per pixel, rows from the top.  The pixel in column [x] of
    row [y] shows frame [x] of the window at mel band [n_mels - 1 - y]
    (the lowest band is the bottom row): its colour bytes are those of
    the colormap at the index of that value, and it is opaque. *)
Theorem image_pixel_layout (Math_pow : num -> num -> num)
    (p : RenderParams) (mel : list num) (frames : Z) (img : Image)
    (x y : Z) :
  displayImage Math_pow p mel frames = Ok img ->
  0 <= x < frames -> 0 <= y < n_mels p ->
  let smin := fst (gainBounds p mel) in
  let smax := snd (gainBounds p mel) in
  let gamma := chooseGamma p mel smin smax in
  let v := arr_get mel (x * n_mels p + (n_mels p - 1 - y)) in
  let idx := colorIndex Math_pow smin smax gamma p v in
  let o := Z.to_nat ((y * frames + x) * 4) in
  img_width img = frames ∧ img_height img = n_mels p
  ∧ length (img_data img) = Z.to_nat (frames * n_mels p * 4)
  ∧ img_data img !! o = Some (lut_get (idx * 4 + 0))
  ∧ img_data img !! (o + 1)%nat = Some (lut_get (idx * 4 + 1))
  ∧ img_data img !! (o + 2)%nat = Some (lut_get (idx * 4 + 2))
  ∧ img_data img !! (o + 3)%nat = Some 255.
Proof.
  intros Hd Hx Hy. cbv zeta. unfold displayImage in Hd.
  destruct (gainBounds p mel) as [smin smax]. cbn [fst snd].
  destruct (Z.leb_spec frames 0); [lia|].
  destruct (Z.leb_spec (n_mels p) 0); [lia|].
  injection Hd as <-. cbn [img_width img_height img_data].
  do 2 (split; [done|]).
  set (gamma := chooseGamma p mel smin smax).
  pose proof (rasterize_spec Math_pow smin smax gamma p mel
                (Z.to_nat frames) (Z.to_nat (n_mels p))) as Hspec.
  cbv zeta in Hspec. rewrite !Z2Nat.id in Hspec by lia.
  destruct Hspec as [Hlen Hpix]. split; [rewrite Hlen; lia|].
  specialize (Hpix (Z.to_nat (n_mels p - 1 - y)) (Z.to_nat x)).
  assert (pixelOffset (Z.to_nat frames) (Z.to_nat (n_mels p))
            (Z.to_nat (n_mels p - 1 - y)) (Z.to_nat x)
          = Z.to_nat ((y * frames + x) * 4)) as Ho.
  { unfold pixelOffset.
    replace (Z.to_nat (n_mels p) - 1 - Z.to_nat (n_mels p - 1 - y))%nat
      with (Z.to_nat y) by lia.
    nia. }
  unfold pixel_ok in Hpix. rewrite Ho in Hpix.
  assert (pixelBytes Math_pow smin smax gamma p mel (Z.to_nat (n_mels p))
            (Z.to_nat (n_mels p - 1 - y)) (Z.to_nat x)
          = let idx :=
              colorIndex Math_pow smin smax gamma p
                (arr_get mel (x * n_mels p + (n_mels p - 1 - y))) in
            [lut_get (idx * 4 + 0); lut_get (idx * 4 + 1);
             lut_get (idx * 4 + 2); 255]) as Hb.
  { unfold pixelBytes. by rewrite !Z2Nat.id by lia. }
  rewrite Hb in Hpix. cbv zeta in Hpix.
  pose proof (Hpix ltac:(lia) ltac:(lia) 0%nat ltac:(lia)) as Hr.
  pose proof (Hpix ltac:(lia) ltac:(lia) 1%nat ltac:(lia)) as Hg.
  pose proof (Hpix ltac:(lia) ltac:(lia) 2%nat ltac:(lia)) as Hb'.
  pose proof (Hpix ltac:(lia) ltac:(lia) 3%nat ltac:(lia)) as Ha.
  rewrite Nat.add_0_r in Hr. by repeat split.
Qed.

(** * The start time of the window

    The [t0] of a render request is the [startTime] of the provider
    ([src/unnamed/part_003]), which every update passes through
    [enforceBoundaries]; the navigator
    ([src/renderer/spectrogram/SpectrogramNavigator.tsx]) turns a pointer
    position into a time with [getTimeFromPosition] and centres the
    window on it.  Times are JavaScript numbers. *)

(** Truthiness of a number: neither zero nor [NaN]. *)
Definition truthy (x : num) : bool :=
  match x with
  | Fin q => negb (Qeq_bool q 0)
  | NaN => false
  | _ => true
  end.

(** [enforceBoundaries]; [duration] is [null] until the audio is
    loaded. *)
Definition enforceBoundaries (duration : option num) (windowDuration : num)
    (start : num) : num :=
  match duration with
  | None => start
  | Some duration =>
      if negb (truthy duration) then start
      else
        let boundedStart := Math_max zero start in
        let boundedEnd := add boundedStart windowDuration in
        if gtb boundedEnd duration
        then Math_max zero (sub duration windowDuration)
        else boundedStart
  end.

(** [scroll]: the new [startTime]. *)
Definition scroll (duration : option num) (windowDuration startTime : num)
    (deltaSeconds : num) : num :=
  enforceBoundaries duration windowDuration (add startTime deltaSeconds).

(** [getTimeFromPosition]; [rect] holds [left] and [right] of the
    bounding rectangle, absent while the element is not mounted. *)
Definition getTimeFromPosition (rect : option (num * num))
    (duration : option num) (clientX : num) : num :=
  match rect, duration with
  | Some (rect_left, rect_right), Some duration =>
      if truthy duration then
        let newTime :=
          div (mul duration (sub clientX rect_left))
              (sub rect_right rect_left) in
        let newTime := if ltb newTime zero then zero else newTime in
        let newTime := if gtb newTime duration then duration else newTime in
        newTime
      else zero
  | _, _ => zero
  end.

(** [updateComplete]: the [startTime] and the [currentTime] it sets. *)
Definition updateComplete (rect : option (num * num))
    (duration : option num) (windowDuration clientX : num) : num * num :=
  let newTime := getTimeFromPosition rect duration clientX in
  let newStartTime := sub newTime (div windowDuration (Fin 2)) in
  (enforceBoundaries duration windowDuration newStartTime, newTime).

Lemma truthy_Fin (d : Q) : truthy (Fin d) = true -> ¬ (d == 0)%Q.
Proof.
  simpl. destruct (Qeq_bool d 0) eqn:E; [done|].
  intros _ Hd. apply Qeq_bool_iff in Hd. congruence.
Qed.

Lemma enforceBoundaries_bounds (d w : Q) (start : num) :
  truthy (Fin d) = true -> start ≠ NaN ->
  ∃ r, enforceBoundaries (Some (Fin d)) (Fin w) start = Fin r
       ∧ (0 <= r)%Q ∧ (r + w <= d ∨ r == 0)%Q
       ∧ (∀ s, start = Fin s -> 0 <= s -> s + w <= d -> r == s)%Q.
Proof.
  intros Hd Hs. unfold enforceBoundaries. rewrite Hd. cbn [negb].
  destruct start as [s| | |]; [| | |done]; cbn; unfold gtb, ltb, Qltb;
    repeat (destruct (Qlt_le_dec _ _); cbn);
    eexists; (split; [reflexivity|]);
    (split; [lra|]); (split; [lra|]);
    intros s' Hs' ? ?; try discriminate; injection Hs' as <-; lra.
Qed.

(** X16. Once the duration of the file is known (a finite number that is not
    zero), whatever start time is asked for — negative, past the end or
    infinite, though not [NaN] — and whatever the length of the window,
    [enforceBoundaries] returns a finite start that is not negative,
    with the window ending inside the file unless the start is 0; a
    start whose window already lies inside the file is returned as it
    is, and bounding twice changes nothing.  For the worker such a start
    is a valid [t0]: the first frame of the window is not negative. *)
Theorem bounded_start_is_valid (d w : Q) (start : num) :
  truthy (Fin d) = true -> start ≠ NaN ->
  ∃ r, enforceBoundaries (Some (Fin d)) (Fin w) start = Fin r
       ∧ (0 <= r)%Q ∧ (r + w <= d ∨ r == 0)%Q
       ∧ (∀ s, start = Fin s -> 0 <= s -> s + w <= d -> r == s)%Q
       ∧ enforceBoundaries (Some (Fin d)) (Fin w) (Fin r) = Fin r
       ∧ ∀ p, 0 < sampleRate p -> 0 < hop_length p -> (t0 p == r)%Q ->
              ∃ F0 F1, framesForWindow p = Some (F0, F1) ∧ 0 <= F0 <= F1.
Proof.
  intros Hd Hs.
  destruct (enforceBoundaries_bounds d w start Hd Hs)
    as (r & Hr & H0 & Hin & Hid).
  exists r. do 4 (split; [done|]). split.
  - clear Hin Hid. revert Hr. unfold enforceBoundaries. rewrite Hd.
    destruct start as [s| | |]; [| | |done]; cbn; unfold gtb, ltb, Qltb;
      repeat (destruct (Qlt_le_dec _ _); cbn);
      intros [= <-]; cbn; unfold gtb, ltb, Qltb;
      repeat (destruct (Qlt_le_dec _ _); cbn);
      try reflexivity; exfalso; lra.
  - intros p Hsr Hhop Ht. apply valid_window_frames.
    repeat split; [done..|]. by rewrite Ht.
Qed.

Lemma getTimeFromPosition_range (l r d x : Q) :
  (l < r)%Q -> (0 < d)%Q ->
  ∃ t, getTimeFromPosition (Some (Fin l, Fin r)) (Some (Fin d)) (Fin x)
       = Fin t
       ∧ (0 <= t <= d)%Q
       ∧ (l <= x <= r -> t == d * (x - l) / (r - l))%Q.
Proof.
  intros Hlr Hd. unfold getTimeFromPosition.
  assert (truthy (Fin d) = true) as ->.
  { simpl. destruct (Qeq_bool d 0) eqn:E; [|done].
    apply Qeq_bool_iff in E. lra. }
  unfold sub, neg, add, mul, div.
  assert (Qeq_bool (r + - l) 0 = false) as ->.
  { destruct (Qeq_bool (r + - l) 0) eqn:E; [|done].
    apply Qeq_bool_iff in E. lra. }
  remember (d * (x + - l) / (r + - l))%Q as T eqn:HT.
  assert (0 < r + - l)%Q as Hb by lra.
  assert (x < l -> T < 0)%Q as F1.
  { intros ?. rewrite HT. apply Qlt_shift_div_r; [done|]. nra. }
  assert (l <= x -> 0 <= T)%Q as F2.
  { intros ?. rewrite HT. apply Qle_shift_div_l; [done|]. nra. }
  assert (r < x -> d < T)%Q as F3.
  { intros ?. rewrite HT. apply Qlt_shift_div_l; [done|]. nra. }
  assert (x <= r -> T <= d)%Q as F4.
  { intros ?. rewrite HT. apply Qle_shift_div_r; [done|]. nra. }
  assert (id (T == d * (x - l) / (r - l))%Q) as Hlin by (by rewrite HT).
  clear HT.
  unfold zero, gtb, ltb, Qltb.
  destruct (Qlt_le_dec T 0) as [H1|H1]; cbv beta iota;
    destruct (Qlt_le_dec _ _) as [H2|H2]; cbv beta iota;
    eexists; (split; [reflexivity|]); (split; [lra|]); intros [? ?];
    try exact Hlin; exfalso; lra.
Qed.

(** X17. A press on the navigator, wherever the pointer is (left or right of
    the bar included), sets a current time inside the file — the linear
    image of the pointer position while the pointer is over the bar —
    and a start time that is bounded as above: not negative, the window
    inside the file unless the start is 0, and the window centred on the
    chosen time whenever that fits. *)
Theorem navigator_press_stays_in_file (l r d w x : Q) :
  (l < r)%Q -> (0 < d)%Q ->
  ∃ s t,
    updateComplete (Some (Fin l, Fin r)) (Some (Fin d)) (Fin w) (Fin x)
    = (Fin s, Fin t)
    ∧ (0 <= t <= d)%Q
    ∧ (l <= x <= r -> t == d * (x - l) / (r - l))%Q
    ∧ (0 <= s)%Q ∧ (s + w <= d ∨ s == 0)%Q
    ∧ (0 <= t - w / 2 -> t + w / 2 <= d -> s == t - w / 2)%Q.
Proof.
  intros Hlr Hd. unfold updateComplete.
  destruct (getTimeFromPosition_range l r d x Hlr Hd) as (t & -> & Ht & Hlin).
  assert (truthy (Fin d) = true) as Htr.
  { simpl. destruct (Qeq_bool d 0) eqn:E; [|done].
    apply Qeq_bool_iff in E. lra. }
  assert (sub (Fin t) (div (Fin w) (Fin 2)) = Fin (t + - (w / 2))) as ->
    by done.
  destruct (enforceBoundaries_bounds d w (Fin (t + - (w / 2))) Htr
              ltac:(done)) as (s & -> & H0 & Hin & Hid).
  exists s, t. split; [done|]. do 4 (split; [done|]).
  intros H1 H2.
  assert (w / 2 == w * (1 # 2))%Q as Hhalf by reflexivity.
  rewrite Hhalf in *. apply (Hid _ eq_refl); lra.
Qed.

(** ** Worked instances *)

Lemma repeated_render_is_cached_witness :
  let r := render pow_gamma_one framing_primitive "a" first_second
             short_loaded in
  (∃ img, r = (ImageReply img, snd r))
  ∧ warm_window (melTileCache (snd r)) "a" first_second
  ∧ render pow_gamma_one framing_primitive "a" first_second (snd r) = r.
Proof.
  intros r.
  assert (∃ img, r = (ImageReply img, snd r)) as [img Himg]
    by (vm_compute; eexists; reflexivity).
  split; [by exists img|].
  destruct (repeated_render_is_cached pow_gamma_one framing_primitive "a"
              first_second short_loaded (snd r) img Himg) as [Hw Hr].
  split; [exact Hw|]. rewrite Hr. symmetry. exact Himg.
Defined.

(** A primitive that refuses every slice. *)
Definition failing_primitive (sr : Z) (samples : list num)
    (n_fft win_length hop_length : Z) (f_min f_max : Q)
    (n_mels top_db : Z) : result (list (list num)) :=
  Throw (PrimitiveError "unreachable").

Lemma primitive_failure_keeps_cache_witness :
  let r := render pow_gamma_one failing_primitive "a" first_second
             short_loaded in
  framesForWindow first_second = Some (0, 7)
  ∧ pcmStore short_loaded !! "a" = Some (mkPcm 8 (ramp 12))
  ∧ snd (analyzeTiles (melTileCache short_loaded) "a" 0 7 first_second)
    = [mkTile 0 8]
  ∧ fst r = ErrorReply (PrimitiveError "unreachable")
  ∧ melTileCache (snd r) = melTileCache short_loaded
  ∧ pcmStore (snd r) = pcmStore short_loaded.
Proof.
  intros r.
  assert (framesForWindow first_second = Some (0, 7)) as HF by reflexivity.
  assert (pcmStore short_loaded !! "a" = Some (mkPcm 8 (ramp 12))) as Hl
    by reflexivity.
  assert (snd (analyzeTiles (melTileCache short_loaded) "a" 0 7 first_second)
          = [mkTile 0 8]) as Hm by reflexivity.
  do 3 (split; [done|]).
  exact (primitive_failure_keeps_cache pow_gamma_one failing_primitive "a"
           first_second short_loaded _ 0 7 _ [] _ HF Hl Hm eq_refl).
Defined.

Lemma cached_tiles_have_pcm_witness :
  is_Some (melTileCache short_rendered !! tileKey "a" 0 8 first_second)
  ∧ ∃ fileId s n p,
      tileKey "a" 0 8 first_second = tileKey fileId s n p
      ∧ is_Some (pcmStore short_rendered !! fileId).
Proof.
  assert (is_Some (melTileCache short_rendered
                     !! tileKey "a" 0 8 first_second)) as Hk
    by (vm_compute; eauto).
  split; [exact Hk|].
  exact (cached_tiles_have_pcm pow_gamma_one framing_primitive
           [SetPcmMsg "a" 8 (ramp 12); RenderMsg "a" first_second]
           (tileKey "a" 0 8 first_second) Hk).
Defined.

Lemma missing_segments_are_missing_tiles_witness :
  let cache := melTileCache long_after_first_second in
  let p := long_params 0 1 in
  0 <= 0 ∧ 0 <= 2499
  ∧ concat (map seg_tiles (snd (analyzeTiles cache "a" 0 2499 p)))
    = missingTiles cache "a" p (fst (analyzeTiles cache "a" 0 2499 p)).
Proof.
  intros cache p.
  assert (0 <= 0) as H0 by lia. assert (0 <= 2499) as H1 by lia.
  do 2 (split; [done|]).
  exact (proj1 (missing_segments_are_missing_tiles cache "a" 0 2499 p H0 H1)).
Defined.

Lemma cache_entries_are_permanent_witness :
  let msgs := [SetPcmMsg "a" 8 (replicate 12 (Fin 5));
               RenderMsg "b" first_second; RenderMsg "a" first_second] in
  let st' := snd (run pow_gamma_one framing_primitive msgs short_rendered) in
  Forall well_formed msgs
  ∧ (∀ tile,
       melTileCache short_rendered !! tileKey "a" 0 8 first_second
       = Some tile ->
       melTileCache st' !! tileKey "a" 0 8 first_second = Some tile)
  ∧ is_Some (pcmStore st' !! "a").
Proof.
  intros msgs st'.
  assert (Forall well_formed msgs) as Hwf.
  { constructor; [exact I|].
    constructor; [exact first_second_valid|].
    constructor; [exact first_second_valid|]. constructor. }
  split; [exact Hwf|]. split.
  - intros tile.
    exact (proj1 (cache_entries_are_permanent pow_gamma_one framing_primitive
                    msgs short_rendered (tileKey "a" 0 8 first_second)
                    tile "a" Hwf)).
  - apply (proj2 (cache_entries_are_permanent pow_gamma_one framing_primitive
                    msgs short_rendered "" [] "a" Hwf)).
    vm_compute. eauto.
Defined.

(** The second that starts one frame before the file. *)
Definition early_second : RenderParams := short_params (-1 # 8) 1 2 2 10 4000.

Lemma window_from_frame_minus_one_fails_witness :
  framesForWindow early_second = Some (-1, 6)
  ∧ melTileCache short_loaded !! tileKey "a" (-1) 8 early_second = None
  ∧ render pow_gamma_one framing_primitive "a" early_second short_loaded
    = (ErrorReply TypeError, ensureWasmInitialized short_loaded).
Proof.
  assert (framesForWindow early_second = Some (-1, 6)) as HF by reflexivity.
  assert (melTileCache short_loaded
            !! tileKey "a" (-1) (Z.min TILE_FRAMES (6 + 2)) early_second
          = None) as Hn by reflexivity.
  split; [exact HF|]. split; [exact Hn|].
  apply (window_from_frame_minus_one_fails pow_gamma_one framing_primitive
           "a" early_second short_loaded 6 HF Hn).
  unfold TILE_FRAMES. lia.
Defined.

(** The first second again, with other display parameters. *)
Definition first_second_bright : RenderParams :=
  mkParams 8 2 1 1 10 4000 2 80 0 1
           true true (Fin 1) (Fin 90) (Fin (1 # 10)) (Fin 2) "viridis".

Lemma display_change_reuses_tiles_witness :
  let r := render pow_gamma_one framing_primitive "a" first_second
             short_loaded in
  same_analysis first_second first_second_bright
  ∧ (∃ img, r = (ImageReply img, snd r))
  ∧ snd (render pow_gamma_one framing_primitive "a" first_second_bright
           (snd r))
    = snd r.
Proof.
  intros r.
  assert (same_analysis first_second first_second_bright) as Hsame
    by (repeat split; reflexivity).
  assert (∃ img, r = (ImageReply img, snd r)) as [img Himg]
    by (vm_compute; eexists; reflexivity).
  split; [exact Hsame|]. split; [by exists img|].
  destruct (display_change_reuses_tiles pow_gamma_one framing_primitive "a"
              first_second first_second_bright short_loaded (snd r) img
              Hsame ltac:(reflexivity) ltac:(reflexivity) Himg)
    as (mel & frames & _ & _ & Hr).
  by rewrite Hr.
Defined.

Lemma image_pixel_layout_witness :
  ∃ img,
    displayImage pow_gamma_one first_second (ramp 16) 8 = Ok img
    ∧ img_width img = 8 ∧ img_height img = 2
    ∧ length (img_data img) = 64%nat
    ∧ img_data img !! 47%nat = Some 255.
Proof.
  assert (∃ img, displayImage pow_gamma_one first_second (ramp 16) 8 = Ok img)
    as [img Hd] by (vm_compute; eexists; reflexivity).
  exists img. split; [exact Hd|].
  destruct (image_pixel_layout pow_gamma_one first_second (ramp 16) 8 img
              3 1 Hd ltac:(lia) ltac:(vm_compute; split; congruence))
    as (Hw & Hh & Hlen & _ & _ & _ & Ha).
  split; [exact Hw|]. split; [exact Hh|]. split; [exact Hlen|]. exact Ha.
Defined.

Lemma bounded_start_is_valid_witness :
  truthy (Fin 10) = true ∧ Fin (-3) ≠ NaN
  ∧ ∃ r, enforceBoundaries (Some (Fin 10)) (Fin 15) (Fin (-3)) = Fin r
         ∧ (0 <= r)%Q.
Proof.
  assert (truthy (Fin 10) = true) as Hd by reflexivity.
  assert (Fin (-3) ≠ NaN) as Hs by discriminate.
  split; [exact Hd|]. split; [exact Hs|].
  destruct (bounded_start_is_valid 10 15 (Fin (-3)) Hd Hs)
    as (r & Hr & H0 & _).
  exists r. split; [exact Hr|exact H0].
Defined.

Lemma navigator_press_stays_in_file_witness :
  (100 < 500)%Q ∧ (0 < 60)%Q
  ∧ ∃ s t,
      updateComplete (Some (Fin 100, Fin 500)) (Some (Fin 60)) (Fin 15)
        (Fin 300)
      = (Fin s, Fin t)
      ∧ (0 <= t <= 60)%Q ∧ (0 <= s)%Q.
Proof.
  assert (100 < 500)%Q as Hlr by reflexivity.
  assert (0 < 60)%Q as Hd by reflexivity.
  split; [exact Hlr|]. split; [exact Hd|].
  destruct (navigator_press_stays_in_file 100 500 60 15 300 Hlr Hd)
    as (s & t & Hu & Ht & _ & Hs & _).
  exists s, t. split; [exact Hu|]. split; [exact Ht|exact Hs].
Defined.

(** ** Tiles are aligned to the first frame of the window *)

Lemma tiling_aligned c F1 l t :
  tiling c F1 l -> t ∈ l -> (TILE_FRAMES | startFrame t - c).
Proof.
  induction 1 as [c F1 H1 H2|c F1 rest H1 _ IH]; intros Hin.
  - apply list_elem_of_singleton in Hin as ->. cbn [startFrame].
    exists 0. lia.
  - apply elem_of_cons in Hin as [->|Hin].
    + exists 0. cbn [startFrame]. lia.
    + destruct (IH Hin) as [k Hk]. exists (k + 1). lia.
Qed.

Section Shifted.

Variable Math_pow : num -> num -> num.
Variable mel_spectrogram_db :
  Z -> list num -> Z -> Z -> Z -> Q -> Q -> Z -> Z ->
  result (list (list num)).

(** The assembler touches no key besides those of the needed tiles. *)
Lemma assemble_other fileId p st key F0 F1 :
  framesForWindow p = Some (F0, F1) -> 0 <= F0 ->
  (∀ t, t ∈ neededLoop F0 F1 ->
        key ≠ tileKey fileId (startFrame t) (frames t) p) ->
  melTileCache (snd (assembleWindowMel mel_spectrogram_db fileId p st)) !! key
  = melTileCache st !! key.
Proof.
  intros HF H0 Hne. unfold assembleWindowMel. rewrite HF.
  pose proof (framesForWindow_nonempty p F0 F1 HF) as Hle.
  pose proof (missing_segments_tiles (melTileCache st) fileId F0 F1 p H0 Hle)
    as Hm.
  destruct (analyzeTiles _ _ _ _ _) as [needed missing]. simpl in Hm.
  assert (∀ t, t ∈ concat (map seg_tiles missing) ->
               key ≠ tileKey fileId (startFrame t) (frames t) p) as Hne'.
  { intros t Ht. rewrite Hm in Ht.
    apply list_elem_of_In, filter_In in Ht as [Ht _].
    by apply Hne, list_elem_of_In. }
  pose proof (computeSegments_other mel_spectrogram_db fileId missing p key
                st Hne') as Ho.
  destruct (computeSegments _ _ _ _ _) as [[[]|e] st1]; simpl in *; [|done].
  by destruct (concatTiles _).
Qed.

(** X18. The tiles of a window start at its first frame plus a multiple
    of 1024, so two windows whose first frames do not differ by a
    multiple of 1024 have no tile key in common, whatever their
    parameters: rendering one of them caches no tile of the other, which
    is left to be computed in full. *)
Theorem shifted_window_shares_no_tile (fileId : string)
    (p p' : RenderParams) (st : State) (F0 F1 F0' F1' : Z) :
  valid_window p ->
  framesForWindow p = Some (F0, F1) ->
  framesForWindow p' = Some (F0', F1') ->
  ¬ (TILE_FRAMES | F0' - F0) ->
  (∀ t t', t ∈ neededLoop F0 F1 -> t' ∈ neededLoop F0' F1' ->
     tileKey fileId (startFrame t) (frames t) p
     ≠ tileKey fileId (startFrame t') (frames t') p')
  ∧ (cold_window st fileId p' ->
     cold_window (snd (render Math_pow mel_spectrogram_db fileId p st))
       fileId p').
Proof.
  intros Hv HF HF' Hshift.
  pose proof (framesForWindow_nonempty p F0 F1 HF) as Hle.
  pose proof (framesForWindow_nonempty p' F0' F1' HF') as Hle'.
  assert (∀ t t', t ∈ neededLoop F0 F1 -> t' ∈ neededLoop F0' F1' ->
            tileKey fileId (startFrame t) (frames t) p
            ≠ tileKey fileId (startFrame t') (frames t') p') as Hdisj.
  { intros t t' Ht Ht' Heq. apply tileKey_inj in Heq as (_ & Hs & _).
    destruct (tiling_aligned _ _ _ _ (neededLoop_tiling F0 F1 Hle) Ht)
      as [k Hk].
    destruct (tiling_aligned _ _ _ _ (neededLoop_tiling F0' F1' Hle') Ht')
      as [k' Hk'].
    apply Hshift. exists (k - k'). lia. }
  split; [exact Hdisj|].
  intros Hcold G0 G1 t' HG Ht'. rewrite HF' in HG. injection HG as <- <-.
  rewrite render_reply. cbn [snd].
  destruct (valid_window_frames p Hv) as (E0 & E1 & HE & H0 & _).
  rewrite HF in HE. injection HE as <- <-.
  rewrite (assemble_other fileId p _ _ F0 F1 HF H0).
  - destruct (ensureWasm_frame st) as (_ & -> & _).
    by apply (Hcold F0' F1').
  - intros t Ht Heq. by apply (Hdisj t t' Ht Ht').
Qed.

End Shifted.

(** The second that starts one frame into the file. *)
Definition late_second : RenderParams := short_params (1 # 8) 1 2 2 10 4000.

Lemma shifted_window_shares_no_tile_witness :
  valid_window first_second
  ∧ framesForWindow first_second = Some (0, 7)
  ∧ framesForWindow late_second = Some (1, 8)
  ∧ ¬ (TILE_FRAMES | 1 - 0)
  ∧ cold_window short_rendered "a" late_second.
Proof.
  assert (framesForWindow first_second = Some (0, 7)) as HF by reflexivity.
  assert (framesForWindow late_second = Some (1, 8)) as HF' by reflexivity.
  assert (¬ (TILE_FRAMES | 1 - 0)) as Hshift.
  { intros [k Hk]. unfold TILE_FRAMES in Hk. lia. }
  split; [exact first_second_valid|]. split; [exact HF|]. split; [exact HF'|].
  split; [exact Hshift|].
  assert (short_rendered
          = snd (render pow_gamma_one framing_primitive "a" first_second
                   short_loaded)) as ->.
  { unfold short_rendered, short_loaded. cbn [run onmessage].
    by destruct (render _ _ _ _ _). }
  apply (proj2 (shifted_window_shares_no_tile pow_gamma_one framing_primitive
                  "a" first_second late_second short_loaded 0 7 1 8
                  first_second_valid HF HF' Hshift)).
  apply short_loaded_cold.
Defined.
